(** * MuHash3072: arithmetic modulo 2^3072 - 1103717 on limb arrays

    Shallow embedding of [src/crypto/muhash.h] and [src/crypto/muhash.cpp].
    A [limb_t] is an integer in [0, 2^LIMB_SIZE) and a [double_limb_t] an
    integer in [0, 2^(2*LIMB_SIZE)); every assignment to a variable of one
    of these types is written with its wrap-around ([limb], [double_limb]).
    A [Num3072] is its array of limbs, least significant limb first. *)

From Stdlib Require Import ZArith List Lia Bool Arith.
From Stdlib Require Import Permutation.
From Stdlib Require Strings.Byte.
Import ListNotations.
Local Open Scope Z_scope.

(** ** Build configuration (muhash.h) *)

(** [Wide] is the build with [HAVE___INT128], [Narrow] the other one. *)
Inductive limb_config : Type := Wide | Narrow.

Definition LIMB_SIZE_of (cfg : limb_config) : Z :=
  match cfg with Wide => 64 | Narrow => 32 end.

Definition LIMBS_of (cfg : limb_config) : nat :=
  match cfg with Wide => 48%nat | Narrow => 96%nat end.

Definition MAX_PRIME_DIFF : Z := 1103717.

(** The modulus, 2^3072 - 1103717. *)
Definition PRIME : Z := 2 ^ 3072 - MAX_PRIME_DIFF.

(** [limb_t limbs[LIMBS]] *)
Definition Num3072 : Type := list Z.

(** ** Loops *)

(** [for (int i = lo; i < hi; ++i) body]: the state after the loop. *)
Fixpoint iter_from {S : Type} (n : nat) (i : nat) (body : nat -> S -> S) (s : S) : S :=
  match n with
  | O => s
  | Datatypes.S n' => iter_from n' (Datatypes.S i) body (body i s)
  end.

Definition for_loop {S : Type} (lo hi : nat) (body : nat -> S -> S) (s : S) : S :=
  iter_from (hi - lo) lo body s.

(** [l[i]]; every index the code uses is below [LIMBS]. *)
Definition at_ (l : list Z) (i : nat) : Z := nth i l 0.

(** [l[i] = v]; every index the code writes is inside the array. *)
Fixpoint set_at {A : Type} (l : list A) (i : nat) (v : A) : list A :=
  match l, i with
  | [], _ => []
  | _ :: t, O => v :: t
  | h :: t, Datatypes.S i' => h :: set_at t i' v
  end.

(** ** Limb primitives (muhash.cpp, anonymous namespace) *)

Section Primitives.

Variable LIMB_SIZE : Z.

(** Conversion to [limb_t] and to [double_limb_t]. *)
Definition limb (x : Z) : Z := x mod 2 ^ LIMB_SIZE.
Definition double_limb (x : Z) : Z := x mod 2 ^ (2 * LIMB_SIZE).

(** [std::numeric_limits<limb_t>::max()] *)
Definition limb_max : Z := 2 ^ LIMB_SIZE - 1.

(** [extract3]: the new [c0,c1,c2] and [n]. *)
Definition extract3 (c : Z * Z * Z) : (Z * Z * Z) * Z :=
  let '(c0, c1, c2) := c in
  let n := c0 in
  let c0 := c1 in
  let c1 := c2 in
  let c2 := 0 in
  ((c0, c1, c2), n).

(** [extract2]: the new [c0,c1] and [n]. *)
Definition extract2 (c : Z * Z) : (Z * Z) * Z :=
  let '(c0, c1) := c in
  let n := c0 in
  let c0 := c1 in
  let c1 := 0 in
  ((c0, c1), n).

(** [mul]: [c0,c1] = a * b *)
Definition mul (a b : Z) : Z * Z :=
  let t := double_limb (a * b) in
  let c1 := limb (Z.shiftr t LIMB_SIZE) in
  let c0 := limb t in
  (c0, c1).

(** [mulnadd3]: the incoming [c2] is overwritten, not added to. *)
Definition mulnadd3 (c d : Z * Z * Z) (n : Z) : Z * Z * Z :=
  let '(c0, c1, c2) := c in
  let '(d0, d1, d2) := d in
  let t := double_limb (double_limb (d0 * n) + c0) in
  let c0 := limb t in
  let t := Z.shiftr t LIMB_SIZE in
  let t := double_limb (t + double_limb (double_limb (d1 * n) + c1)) in
  let c1 := limb t in
  let t := Z.shiftr t LIMB_SIZE in
  let c2 := limb (double_limb (t + limb (d2 * n))) in
  (c0, c1, c2).

(** [muln2]: the last shift of [t] is dropped by the code. *)
Definition muln2 (c : Z * Z) (n : Z) : Z * Z :=
  let '(c0, c1) := c in
  let t := double_limb (c0 * n) in
  let c0 := limb t in
  let t := Z.shiftr t LIMB_SIZE in
  let t := double_limb (t + double_limb (c1 * n)) in
  let c1 := limb t in
  (c0, c1).

(** [muladd3]: [c0,c1,c2] += a * b *)
Definition muladd3 (c : Z * Z * Z) (a b : Z) : Z * Z * Z :=
  let '(c0, c1, c2) := c in
  let t := double_limb (a * b) in
  let th := limb (Z.shiftr t LIMB_SIZE) in
  let tl := limb t in
  let c0 := limb (c0 + tl) in
  let th := limb (th + (if c0 <? tl then 1 else 0)) in
  let c1 := limb (c1 + th) in
  let c2 := limb (c2 + (if c1 <? th then 1 else 0)) in
  (c0, c1, c2).

(** [muldbladd3]: [c0,c1,c2] += 2 * a * b *)
Definition muldbladd3 (c : Z * Z * Z) (a b : Z) : Z * Z * Z :=
  let '(c0, c1, c2) := c in
  let t := double_limb (a * b) in
  let th := limb (Z.shiftr t LIMB_SIZE) in
  let tl := limb t in
  let c0 := limb (c0 + tl) in
  let tt := limb (th + (if c0 <? tl then 1 else 0)) in
  let c1 := limb (c1 + tt) in
  let c2 := limb (c2 + (if c1 <? tt then 1 else 0)) in
  let c0 := limb (c0 + tl) in
  let th := limb (th + (if c0 <? tl then 1 else 0)) in
  let c1 := limb (c1 + th) in
  let c2 := limb (c2 + (if c1 <? th then 1 else 0)) in
  (c0, c1, c2).

(** [add2]: [c0,c1] += a *)
Definition add2 (c : Z * Z) (a : Z) : Z * Z :=
  let '(c0, c1) := c in
  let c0 := limb (c0 + a) in
  let c1 := limb (c1 + (if c0 <? a then 1 else 0)) in
  (c0, c1).

End Primitives.

(** ** Num3072 arithmetic modulo the prime (muhash.cpp, anonymous namespace) *)

Section Arithmetic.

Variable LIMB_SIZE : Z.
Variable LIMBS : nat.

Definition IsOverflow_scan (d : Num3072) (i : nat) (ret : option bool) : option bool :=
  match ret with
  | Some r => Some r
  | None => if negb (at_ d i =? limb_max LIMB_SIZE) then Some false else None
  end.

(** [IsOverflow]; [None] in the loop state means that no [return] was
    reached yet. *)
Definition IsOverflow (d : Num3072) : bool :=
  if at_ d 0 <=? limb LIMB_SIZE (limb_max LIMB_SIZE - MAX_PRIME_DIFF) then false
  else
    match for_loop 1 LIMBS (IsOverflow_scan d) None with
    | Some r => r
    | None => true
    end.

Definition FullReduce_step (i : nat) (st : Z * Num3072) : Z * Num3072 :=
  let '(c0, d) := st in
  let c1 := 0 in
  let '(c0, c1) := add2 LIMB_SIZE (c0, c1) (at_ d i) in
  let '((c0, c1), n) := extract2 (c0, c1) in
  (c0, set_at d i n).

Definition FullReduce (d : Num3072) : Num3072 :=
  let c0 := limb LIMB_SIZE MAX_PRIME_DIFF in
  snd (for_loop 0 LIMBS FullReduce_step (c0, d)).

(** The body of the first loop of [Multiply]; the state is [c0], [c1]
    and [tmp]. *)
Definition Multiply_step (in_out a : Num3072) (j : nat) (st : Z * Z * Num3072)
  : Z * Z * Num3072 :=
  let '(c0, c1, tmp) := st in
  let c2 := 0 in
  let '(d0, d1) := mul LIMB_SIZE (at_ in_out (1 + j)) (at_ a (LIMBS + j - (1 + j))) in
  let d2 := 0 in
  let d := for_loop (2 + j) LIMBS
             (fun i d => muladd3 LIMB_SIZE d (at_ in_out i) (at_ a (LIMBS + j - i)))
             (d0, d1, d2) in
  let c := mulnadd3 LIMB_SIZE (c0, c1, c2) d (limb LIMB_SIZE MAX_PRIME_DIFF) in
  let c := for_loop 0 (j + 1)
             (fun i c => muladd3 LIMB_SIZE c (at_ in_out i) (at_ a (j - i))) c in
  let '((c0, c1, _), n) := extract3 c in
  (c0, c1, set_at tmp j n).

(** The block that computes limb [LIMBS - 1] of the product. *)
Definition Multiply_last (in_out a : Num3072) (st : Z * Z * Num3072)
  : Z * Z * Num3072 :=
  let '(c0, c1, tmp) := st in
  let c2 := 0 in
  let c := for_loop 0 LIMBS
             (fun i c => muladd3 LIMB_SIZE c (at_ in_out i) (at_ a (LIMBS - 1 - i)))
             (c0, c1, c2) in
  let '((c0, c1, _), n) := extract3 c in
  (c0, c1, set_at tmp (LIMBS - 1) n).

Definition reduce2_step (tmp : Num3072) (j : nat) (st : Z * Z * Num3072)
  : Z * Z * Num3072 :=
  let '(c0, c1, in_out) := st in
  let '(c0, c1) := add2 LIMB_SIZE (c0, c1) (at_ tmp j) in
  let '((c0, c1), n) := extract2 (c0, c1) in
  (c0, c1, set_at in_out j n).

(** "Perform a second reduction": these lines are the same in [Multiply]
    and in [Square].  The result is [c0], [c1] and [in_out] at the place
    of the [DEBUG] assertions. *)
Definition second_reduction (st : Z * Z * Num3072) (in_out : Num3072)
  : Z * Z * Num3072 :=
  let '(c0, c1, tmp) := st in
  let '(c0, c1) := muln2 LIMB_SIZE (c0, c1) (limb LIMB_SIZE MAX_PRIME_DIFF) in
  for_loop 0 LIMBS (reduce2_step tmp) (c0, c1, in_out).

(** "Perform a potential third reduction." *)
Definition third_reduction (st : Z * Z * Num3072) : Num3072 :=
  let '(c0, _, in_out) := st in
  if negb (c0 =? 0) then FullReduce in_out else in_out.

(** [tmp] is declared without initialiser; every limb of it is written
    before it is read. *)
Definition uninitialised : Num3072 := repeat 0 LIMBS.

(** [c0], [c1] and [tmp] after the two blocks that compute the product. *)
Definition Multiply_product (in_out a : Num3072) : Z * Z * Num3072 :=
  let st := for_loop 0 (LIMBS - 1) (Multiply_step in_out a) (0, 0, uninitialised) in
  Multiply_last in_out a st.

(** [c0], [c1] and [in_out] where [Multiply] has its [DEBUG] assertions. *)
Definition Multiply_residual (in_out a : Num3072) : Z * Z * Num3072 :=
  second_reduction (Multiply_product in_out a) in_out.

Definition Multiply (in_out a : Num3072) : Num3072 :=
  third_reduction (Multiply_residual in_out a).

(** The body of the first loop of [Square]. *)
Definition Square_step (in_out : Num3072) (j : nat) (st : Z * Z * Num3072)
  : Z * Z * Num3072 :=
  let '(c0, c1, tmp) := st in
  let d := (0, 0, 0) in
  let c2 := 0 in
  let d := for_loop 0 ((LIMBS - 1 - j) / 2)
             (fun i d => muldbladd3 LIMB_SIZE d (at_ in_out (i + j + 1))
                           (at_ in_out (LIMBS - 1 - i))) d in
  let d := if negb (Nat.land (j + 1) 1 =? 0)%nat
           then muladd3 LIMB_SIZE d (at_ in_out ((LIMBS - 1 - j) / 2 + j + 1))
                  (at_ in_out (LIMBS - 1 - (LIMBS - 1 - j) / 2))
           else d in
  let c := mulnadd3 LIMB_SIZE (c0, c1, c2) d (limb LIMB_SIZE MAX_PRIME_DIFF) in
  let c := for_loop 0 ((j + 1) / 2)
             (fun i c => muldbladd3 LIMB_SIZE c (at_ in_out i) (at_ in_out (j - i))) c in
  let c := if negb (Nat.land (j + 1) 1 =? 0)%nat
           then muladd3 LIMB_SIZE c (at_ in_out ((j + 1) / 2))
                  (at_ in_out (j - (j + 1) / 2))
           else c in
  let '((c0, c1, _), n) := extract3 c in
  (c0, c1, set_at tmp j n).

Definition Square_last (in_out : Num3072) (st : Z * Z * Num3072)
  : Z * Z * Num3072 :=
  let '(c0, c1, tmp) := st in
  let c2 := 0 in
  let c := for_loop 0 (LIMBS / 2)
             (fun i c => muldbladd3 LIMB_SIZE c (at_ in_out i)
                           (at_ in_out (LIMBS - 1 - i)))
             (c0, c1, c2) in
  let '((c0, c1, _), n) := extract3 c in
  (c0, c1, set_at tmp (LIMBS - 1) n).

Definition Square_product (in_out : Num3072) : Z * Z * Num3072 :=
  let st := for_loop 0 (LIMBS - 1) (Square_step in_out) (0, 0, uninitialised) in
  Square_last in_out st.

(** [c0], [c1] and [in_out] where [Square] has its [DEBUG] assertions. *)
Definition Square_residual (in_out : Num3072) : Z * Z * Num3072 :=
  second_reduction (Square_product in_out) in_out.

Definition Square (in_out : Num3072) : Num3072 :=
  third_reduction (Square_residual in_out).

(** [for (int j = 0; j < n; ++j) Square(&x);] *)
Definition Square_times (n : nat) (x : Num3072) : Num3072 :=
  for_loop 0 n (fun _ y => Square y) x.

(** The body of the loop of [Inverse] that fills [p]. *)
Definition Inverse_table_step (i : nat) (p : list Num3072) : list Num3072 :=
  let q := nth i p [] in
  let q := Square_times (Nat.shiftl 1 i) q in
  let q := Multiply q (nth i p []) in
  set_at p (i + 1) q.

(** [p] after the first loop of [Inverse]. *)
Definition Inverse_table (a : Num3072) : list Num3072 :=
  let p := repeat [] 12 in
  let p := set_at p 0 a in
  for_loop 0 11 Inverse_table_step p.

(** [Inverse]: the value written to [*out]. *)
Definition Inverse (a : Num3072) : Num3072 :=
  let p := Inverse_table a in
  let x := nth 11 p [] in
  let x := Square_times 512 x in
  let x := Multiply x (nth 9 p []) in
  let x := Square_times 256 x in
  let x := Multiply x (nth 8 p []) in
  let x := Square_times 128 x in
  let x := Multiply x (nth 7 p []) in
  let x := Square_times 64 x in
  let x := Multiply x (nth 6 p []) in
  let x := Square_times 32 x in
  let x := Multiply x (nth 5 p []) in
  let x := Square_times 8 x in
  let x := Multiply x (nth 3 p []) in
  let x := Square_times 2 x in
  let x := Multiply x (nth 1 p []) in
  let x := Square_times 1 x in
  let x := Multiply x (nth 0 p []) in
  let x := Square_times 5 x in
  let x := Multiply x (nth 2 p []) in
  let x := Square_times 3 x in
  let x := Multiply x (nth 0 p []) in
  let x := Square_times 2 x in
  let x := Multiply x (nth 0 p []) in
  let x := Square_times 4 x in
  let x := Multiply x (nth 0 p []) in
  let x := Square_times 4 x in
  let x := Multiply x (nth 1 p []) in
  let x := Square_times 3 x in
  let x := Multiply x (nth 0 p []) in
  x.

End Arithmetic.

(** ** Byte order helpers *)

(** Modelled from the spec: [ReadLE32], [ReadLE64], [WriteLE32] and
    [WriteLE64] of [crypto/common.h] are not part of the sources at hand.
    The spec has limbs "little-endian-encoded over [their] width":
    [ReadLE n buf off] is the integer whose [n] bytes, least significant
    first, are [buf[off]], ..., [buf[off + n - 1]], and [WriteLE n buf off x]
    stores the [n] low bytes of [x] there. *)
Definition ReadLE (n : nat) (buf : list Byte.byte) (off : nat) : Z :=
  for_loop 0 n
    (fun k acc => acc + Z.of_N (Byte.to_N (nth (off + k) buf Byte.x00)) * 2 ^ (8 * Z.of_nat k))
    0.

Definition byte_of_Z (x : Z) : Byte.byte :=
  match Byte.of_N (Z.to_N (x mod 256)) with
  | Some b => b
  | None => Byte.x00
  end.

Definition WriteLE (n : nat) (buf : list Byte.byte) (off : nat) (x : Z) : list Byte.byte :=
  for_loop 0 n
    (fun k buf => set_at buf (off + k) (byte_of_Z (Z.shiftr x (8 * Z.of_nat k))))
    buf.

(** ** The class MuHash3072 (muhash.h, muhash.cpp) *)

Record MuHash3072 : Type := { data : Num3072 }.

Definition INPUT_SIZE : nat := 32.
Definition OUTPUT_SIZE : nat := 384.

Section Facade.

Variable LIMB_SIZE : Z.
Variable LIMBS : nat.

(** [sizeof(limb_t)]; the code asserts [sizeof(limb_t) * 8 == LIMB_SIZE]. *)
Definition sizeof_limb_t : Z := LIMB_SIZE / 8.

(** [MuHash3072::MuHash3072()] *)
Definition MuHash3072_new : MuHash3072 :=
  let limbs := uninitialised LIMBS in
  let limbs := set_at limbs 0 1 in
  {| data := for_loop 1 LIMBS (fun i limbs => set_at limbs i 0) limbs |}.

(** The key stream of the ChaCha20 cipher of [crypto/chacha20.h], which is
    not part of the sources at hand: [ChaCha20_Keystream key n] stands for
    the [n] bytes that [ChaCha20(key).Keystream(tmp, n)] writes. *)
Variable ChaCha20_Keystream : list Byte.byte -> nat -> list Byte.byte.

(** [MuHash3072::MuHash3072(Span<const unsigned char> key32)], for a key
    that passes [assert(key32.size() == INPUT_SIZE)]. *)
Definition MuHash3072_of_key (key32 : list Byte.byte) : MuHash3072 :=
  let tmp := ChaCha20_Keystream key32 OUTPUT_SIZE in
  {| data :=
       for_loop 0 LIMBS
         (fun i limbs =>
            if sizeof_limb_t =? 4 then set_at limbs i (ReadLE 4 tmp (4 * i))
            else if sizeof_limb_t =? 8 then set_at limbs i (ReadLE 8 tmp (8 * i))
            else limbs)
         (uninitialised LIMBS) |}.

(** [MuHash3072::Finalize], for a buffer that passes
    [assert(hash384.size() == OUTPUT_SIZE)]: the object and the buffer
    after the call. *)
Definition Finalize (this : MuHash3072) (hash384 : list Byte.byte)
  : MuHash3072 * list Byte.byte :=
  let data := data this in
  let data := if IsOverflow LIMB_SIZE LIMBS data
              then FullReduce LIMB_SIZE LIMBS data else data in
  let hash384 :=
    for_loop 0 LIMBS
      (fun i buf =>
         if sizeof_limb_t =? 4 then WriteLE 4 buf (i * 4) (at_ data i)
         else if sizeof_limb_t =? 8 then WriteLE 8 buf (i * 8) (at_ data i)
         else buf)
      hash384 in
  ({| data := data |}, hash384).

(** [MuHash3072::operator*=]: the new value of [*this]. *)
Definition mul_assign (this x : MuHash3072) : MuHash3072 :=
  {| data := Multiply LIMB_SIZE LIMBS (data this) (data x) |}.

(** [MuHash3072::operator/=]: the new value of [*this]. *)
Definition div_assign (this x : MuHash3072) : MuHash3072 :=
  let tmp := Inverse LIMB_SIZE LIMBS (data x) in
  {| data := Multiply LIMB_SIZE LIMBS (data this) tmp |}.

End Facade.

(** ** Values *)

Section Values.

Variable LIMB_SIZE : Z.
Variable LIMBS : nat.

(** The integer that a little-endian array of limbs stands for. *)
Fixpoint eval (l : list Z) : Z :=
  match l with
  | [] => 0
  | x :: t => x + 2 ^ LIMB_SIZE * eval t
  end.

Definition is_limb (x : Z) : bool := (0 <=? x) && (x <? 2 ^ LIMB_SIZE).

(** An array of [LIMBS] values of type [limb_t]. *)
Definition well_formed (l : Num3072) : bool :=
  (length l =? LIMBS)%nat && forallb is_limb l.

Definition val2 (c : Z * Z) : Z :=
  let '(c0, c1) := c in c0 + 2 ^ LIMB_SIZE * c1.

Definition val3 (c : Z * Z * Z) : Z :=
  let '(c0, c1, c2) := c in
  c0 + 2 ^ LIMB_SIZE * c1 + 2 ^ LIMB_SIZE * 2 ^ LIMB_SIZE * c2.

Definition is_limb3 (c : Z * Z * Z) : bool :=
  let '(c0, c1, c2) := c in is_limb c0 && is_limb c1 && is_limb c2.

End Values.

(** The value of a [Num3072] in a given build. *)
Definition value (cfg : limb_config) (d : Num3072) : Z :=
  eval (LIMB_SIZE_of cfg) d.

Definition wf (cfg : limb_config) (d : Num3072) : bool :=
  well_formed (LIMB_SIZE_of cfg) (LIMBS_of cfg) d.

(** Canonical form: the value is below the prime. *)
Definition canonical (cfg : limb_config) (d : Num3072) : bool :=
  wf cfg d && (value cfg d <? PRIME).

(** ** Sums and columns of a product *)

(** [f 0 + ... + f (n - 1)] *)
Fixpoint sum_to (n : nat) (f : nat -> Z) : Z :=
  match n with
  | O => 0
  | S k => sum_to k f + f k
  end.

(** [f lo + ... + f (hi - 1)] *)
Definition sum_range (lo hi : nat) (f : nat -> Z) : Z :=
  sum_to (hi - lo) (fun i => f (lo + i)%nat).

(** Column [k] of the schoolbook product of [a] and [b]: the sum of the
    [a[i] * b[k - i]] for [i <= k]. *)
Definition column (a b : list Z) (k : nat) : Z :=
  sum_to (S k) (fun i => at_ a i * at_ b (k - i)).

Section Parts.

Variable LIMB_SIZE : Z.
Variable LIMBS : nat.

(** The columns below [2^3072], and those from there on, of the
    product of [a] and [b]: the product is
    [low_part + 2^3072 * high_part]. *)
Definition low_part (a b : list Z) : Z :=
  sum_to LIMBS (fun k => column a b k * (2 ^ LIMB_SIZE) ^ Z.of_nat k).

Definition high_part (a b : list Z) : Z :=
  sum_to (LIMBS - 1)
    (fun k => column a b (LIMBS + k) * (2 ^ LIMB_SIZE) ^ Z.of_nat k).

(** What the first [j] rounds of the first loop have accumulated. *)
Definition folded (a b : list Z) (j : nat) : Z :=
  sum_to j (fun k => (column a b k + MAX_PRIME_DIFF * column a b (LIMBS + k))
                     * (2 ^ LIMB_SIZE) ^ Z.of_nat k).

(** The conditions on the limb width and count that the carry bounds of
    the code rest on; both builds meet them. *)
Definition config_ok : bool :=
  (0 <? LIMB_SIZE) && (2 <=? LIMBS)%nat && Nat.even LIMBS
  && ((MAX_PRIME_DIFF + 1) * Z.of_nat LIMBS <? 2 ^ LIMB_SIZE)
  && (MAX_PRIME_DIFF * (Z.of_nat LIMBS * 2 ^ LIMB_SIZE + MAX_PRIME_DIFF)
      <=? 2 ^ LIMB_SIZE * 2 ^ LIMB_SIZE - 2 ^ LIMB_SIZE).

End Parts.

(** The modulus in terms of the limb width and count; it is [PRIME] in
    both builds. *)
Definition modulus (LIMB_SIZE : Z) (LIMBS : nat) : Z :=
  (2 ^ LIMB_SIZE) ^ Z.of_nat LIMBS - MAX_PRIME_DIFF.

(** ** The exponent of [Inverse] *)

(** [2^(2^i) - 1], the exponent of [p[i]]. *)
Definition repunit (i : nat) : Z := 2 ^ Z.of_nat (2 ^ i) - 1.

(** [n] squarings and a multiplication by [p[i]], on the exponent. *)
Definition chain (n i : nat) (e : Z) : Z := e * 2 ^ Z.of_nat n + repunit i.

(** The exponent that the schedule of [Inverse] builds, before its last
    multiplication and after it. *)
Definition inverse_exponent_before_last : Z :=
  (chain 4 1 (chain 4 0 (chain 2 0 (chain 3 0 (chain 5 2 (chain 1 0 (chain 2 1
    (chain 8 3 (chain 32 5 (chain 64 6 (chain 128 7 (chain 256 8 (chain 512 9
      (repunit 11)))))))))))))) * 2 ^ Z.of_nat 3.

Definition inverse_exponent : Z := inverse_exponent_before_last + repunit 0.

Section PowerRelation.

Variable LIMB_SIZE : Z.
Variable LIMBS : nat.

(** [x] is an array of limbs whose value is congruent to the [e]-th
    power of [v]. *)
Definition is_power (v : Z) (x : Num3072) (e : Z) : Prop :=
  length x = LIMBS /\ forallb (is_limb LIMB_SIZE) x = true /\ 0 <= e /\
  eval LIMB_SIZE x mod modulus LIMB_SIZE LIMBS = v ^ e mod modulus LIMB_SIZE LIMBS.

End PowerRelation.

(** ** Concrete operands *)

(** The array of [n] limbs of width [w] with value [v mod 2^(w*n)]. *)
Fixpoint limbs_of_Z (w : Z) (n : nat) (v : Z) : Num3072 :=
  match n with
  | O => []
  | S n' => v mod 2 ^ w :: limbs_of_Z w n' (v / 2 ^ w)
  end.

Definition Num3072_of_Z (cfg : limb_config) (v : Z) : Num3072 :=
  limbs_of_Z (LIMB_SIZE_of cfg) (LIMBS_of cfg) v.

(** A buffer of [OUTPUT_SIZE] bytes. *)
Definition zero_buffer : list Byte.byte := repeat Byte.x00 OUTPUT_SIZE.

(** The [n] low bytes of [v], least significant first: a key stream that
    makes the constructor load the value [v]. *)
Definition bytes_of_Z (n : nat) (v : Z) : list Byte.byte :=
  map (fun k => byte_of_Z (Z.shiftr v (8 * Z.of_nat k))) (seq 0 n).


(** A key stream that yields the bytes of the prime, the key it is asked
    for, and the accumulator that the constructor builds from them in the
    wide build. *)
Definition prime_keystream (key : list Byte.byte) (n : nat) : list Byte.byte :=
  bytes_of_Z n PRIME.

Definition zero_key : list Byte.byte := repeat Byte.x00 INPUT_SIZE.

Definition prime_accumulator : MuHash3072 :=
  MuHash3072_of_key 64 48 prime_keystream zero_key.

(** The accumulator whose limbs are all [limb_max], in the wide build. *)
Definition all_ones_accumulator : MuHash3072 :=
  {| data := repeat (limb_max 64) 48 |}.

(** What [Finalize] writes: the limbs after the reduction of the overflow
    window. *)
Definition normalise (w : Z) (n : nat) (d : Num3072) : Num3072 :=
  if IsOverflow w n d then FullReduce w n d else d.

(** The loop of [Finalize] for limbs of [nb] bytes. *)
Definition write_limbs (nb n : nat) (d : Num3072) (buf : list Byte.byte)
  : list Byte.byte :=
  for_loop 0 n (fun i buf => WriteLE nb buf (i * nb) (at_ d i)) buf.

(** [sizeof(limb_t)] as a number of bytes to write. *)
Definition limb_bytes (cfg : limb_config) : nat :=
  match cfg with Wide => 8%nat | Narrow => 4%nat end.

(** A key stream that yields the bytes of the prime minus one. *)
Definition minus_one_keystream (key : list Byte.byte) (n : nat) : list Byte.byte :=
  bytes_of_Z n (PRIME - 1).

(** ** Loop invariants *)

Section Invariants.

Variable LIMB_SIZE : Z.
Variable LIMBS : nat.

(** What one round of the first loop of [Multiply] leaves in [c0,c1,c2]
  before [extract3], as a value modulo the size of the accumulator. *)
Definition round_value (a b : list Z) (j : nat) (c0 c1 : Z) : Z :=
(c0 + 2 ^ LIMB_SIZE * c1
 + MAX_PRIME_DIFF * (column a b (LIMBS + j)
                     mod (2 ^ LIMB_SIZE * 2 ^ LIMB_SIZE * 2 ^ LIMB_SIZE))
 + column a b j)
  mod (2 ^ LIMB_SIZE * 2 ^ LIMB_SIZE * 2 ^ LIMB_SIZE).

(** The same for the block of limb [LIMBS - 1]. *)
Definition last_value (a b : list Z) (c0 c1 : Z) : Z :=
(c0 + 2 ^ LIMB_SIZE * c1 + column a b (LIMBS - 1))
  mod (2 ^ LIMB_SIZE * 2 ^ LIMB_SIZE * 2 ^ LIMB_SIZE).

(** The carry limbs of a state of the first loop are limbs. *)
Definition carry_ok (st : Z * Z * Num3072) : Prop :=
let '(c0, c1, _) := st in 0 <= c0 < 2 ^ LIMB_SIZE /\ 0 <= c1 < 2 ^ LIMB_SIZE.

(** The state of the first loop of [Multiply] after [j] rounds. *)
Definition first_pass_inv (a b : list Z) (j : nat) (st : Z * Z * Num3072) : Prop :=
let '(c0, c1, tmp) := st in
0 <= c0 < 2 ^ LIMB_SIZE /\ 0 <= c1 < 2 ^ LIMB_SIZE /\
c0 + 2 ^ LIMB_SIZE * c1 <= (MAX_PRIME_DIFF + 1) * Z.of_nat LIMBS * 2 ^ LIMB_SIZE /\
length tmp = LIMBS /\ forallb (is_limb LIMB_SIZE) tmp = true /\
eval LIMB_SIZE (firstn j tmp) + (2 ^ LIMB_SIZE) ^ Z.of_nat j * (c0 + 2 ^ LIMB_SIZE * c1)
= folded LIMB_SIZE LIMBS a b j.

(** The state of the loop of the second reduction before round [j]; [X]
  is what the loop has to add to [tmp]. *)
Definition second_inv (tmp : Num3072) (X : Z) (j : nat) (st : Z * Z * Num3072) : Prop :=
let '(e0, e1, out) := st in
0 <= e0 < 2 ^ LIMB_SIZE /\ 0 <= e1 < 2 ^ LIMB_SIZE /\
e0 + 2 ^ LIMB_SIZE * e1 <= 2 ^ LIMB_SIZE * 2 ^ LIMB_SIZE - 2 ^ LIMB_SIZE /\
((1 <= j)%nat -> e1 = 0) /\
length out = LIMBS /\ forallb (is_limb LIMB_SIZE) out = true /\
eval LIMB_SIZE (firstn j out) + (2 ^ LIMB_SIZE) ^ Z.of_nat j * (e0 + 2 ^ LIMB_SIZE * e1)
= eval LIMB_SIZE (firstn j tmp) + X.

(** The state of the loop of [FullReduce] before round [j]. *)
Definition full_inv (d : Num3072) (j : nat) (st : Z * Num3072) : Prop :=
let '(c0, d') := st in
0 <= c0 < 2 ^ LIMB_SIZE /\ length d' = LIMBS /\
forallb (is_limb LIMB_SIZE) d' = true /\
skipn j d' = skipn j d /\
eval LIMB_SIZE (firstn j d') + (2 ^ LIMB_SIZE) ^ Z.of_nat j * c0
= eval LIMB_SIZE (firstn j d) + MAX_PRIME_DIFF.

(** The state of the scan of [IsOverflow] before it looks at limb [j]. *)
Definition scan_inv (d : Num3072) (j : nat) (ret : option bool) : Prop :=
(ret = None /\ forall i, (1 <= i < j)%nat -> at_ d i = limb_max LIMB_SIZE) \/
(ret = Some false /\ exists i, (1 <= i < j)%nat /\ at_ d i <> limb_max LIMB_SIZE).

(** The table of [Inverse] after [i] rounds of its first loop: [p[k]] is
  the power [2^(2^k) - 1] of [a] for every [k <= i]. *)
Definition table_inv (a : Num3072) (i : nat) (p : list Num3072) : Prop :=
length p = 12%nat /\ nth 0 p [] = a /\
forall k, (k <= i)%nat ->
          is_power LIMB_SIZE LIMBS (eval LIMB_SIZE a) (nth k p []) (repunit k).

End Invariants.

(** ** Digests and sequences of updates *)

(** The 384 bytes that [Finalize] writes for an accumulator. *)
Definition digest (cfg : limb_config) (m : MuHash3072) : list Byte.byte :=
  snd (Finalize (LIMB_SIZE_of cfg) (LIMBS_of cfg) m zero_buffer).

(** One update of an accumulator by a caller: [acc *= x] or [acc /= x]. *)
Inductive update : Type :=
| Times (x : MuHash3072)
| Over (x : MuHash3072).

Definition operand (u : update) : MuHash3072 :=
  match u with Times x => x | Over x => x end.

Definition apply_update (cfg : limb_config) (acc : MuHash3072) (u : update) : MuHash3072 :=
  match u with
  | Times x => mul_assign (LIMB_SIZE_of cfg) (LIMBS_of cfg) acc x
  | Over x => div_assign (LIMB_SIZE_of cfg) (LIMBS_of cfg) acc x
  end.

(** A sequence of updates, applied from left to right. *)
Definition apply_updates (cfg : limb_config) (acc : MuHash3072) (us : list update)
  : MuHash3072 :=
  fold_left (apply_update cfg) us acc.

(** The factor by which an update multiplies the value modulo the prime. *)
Definition factor (cfg : limb_config) (u : update) : Z :=
  match u with
  | Times x => value cfg (data x)
  | Over x => value cfg (data x) ^ (PRIME - 2)
  end.

Definition factors (cfg : limb_config) (us : list update) : Z :=
  fold_right (fun u z => factor cfg u * z) 1 us.

(** The accumulator with all limbs 0. *)
Definition zero_accumulator (cfg : limb_config) : MuHash3072 :=
  {| data := Num3072_of_Z cfg 0 |}.

(** An update by a caller that holds a 32-byte key:
    [acc *= MuHash3072(key32)] or [acc /= MuHash3072(key32)]. *)
Inductive keyed_update : Type :=
| Insert (key32 : list Byte.byte)
| Remove (key32 : list Byte.byte).

Definition keyed (cfg : limb_config)
           (ChaCha20_Keystream : list Byte.byte -> nat -> list Byte.byte)
           (k : keyed_update) : update :=
  match k with
  | Insert key32 =>
      Times (MuHash3072_of_key (LIMB_SIZE_of cfg) (LIMBS_of cfg) ChaCha20_Keystream key32)
  | Remove key32 =>
      Over (MuHash3072_of_key (LIMB_SIZE_of cfg) (LIMBS_of cfg) ChaCha20_Keystream key32)
  end.

(** A fresh accumulator after a sequence of keyed updates. *)
Definition run (cfg : limb_config)
           (ChaCha20_Keystream : list Byte.byte -> nat -> list Byte.byte)
           (ks : list keyed_update) : MuHash3072 :=
  apply_updates cfg (MuHash3072_new (LIMBS_of cfg)) (map (keyed cfg ChaCha20_Keystream) ks).

(** The operands that a sequence of updates multiplies in, and those that
    it divides out, as multiplications. *)
Definition added (us : list update) : list update :=
  flat_map (fun u => match u with Times x => [Times x] | Over _ => [] end) us.

Definition removed (us : list update) : list update :=
  flat_map (fun u => match u with Times _ => [] | Over x => [Times x] end) us.

(** ** [Multiply] and [Square] over an array [tmp] that is not initialised *)

Section Garbage.

Variable LIMB_SIZE : Z.
Variable LIMBS : nat.

(** [Num3072 tmp;] has no initialiser: [garbage] is what the array holds
  when [Multiply] or [Square] is entered. *)
Variable garbage : Num3072.

Definition Multiply_product_over (in_out a : Num3072) : Z * Z * Num3072 :=
let st := for_loop 0 (LIMBS - 1) (Multiply_step LIMB_SIZE LIMBS in_out a) (0, 0, garbage) in
Multiply_last LIMB_SIZE LIMBS in_out a st.

Definition Multiply_over (in_out a : Num3072) : Num3072 :=
third_reduction LIMB_SIZE LIMBS
  (second_reduction LIMB_SIZE LIMBS (Multiply_product_over in_out a) in_out).

Definition Square_product_over (in_out : Num3072) : Z * Z * Num3072 :=
let st := for_loop 0 (LIMBS - 1) (Square_step LIMB_SIZE LIMBS in_out) (0, 0, garbage) in
Square_last LIMB_SIZE LIMBS in_out st.

Definition Square_over (in_out : Num3072) : Num3072 :=
third_reduction LIMB_SIZE LIMBS
  (second_reduction LIMB_SIZE LIMBS (Square_product_over in_out) in_out).

End Garbage.

(** Two runs of a loop that fills [tmp] limb by limb agree on the carry
    and on the [j] limbs written so far. *)
Definition same_so_far (LIMBS : nat) (j : nat) (s1 s2 : Z * Z * Num3072) : Prop :=
  fst (fst s1) = fst (fst s2) /\ snd (fst s1) = snd (fst s2) /\
  length (snd s1) = LIMBS /\ length (snd s2) = LIMBS /\
  firstn j (snd s1) = firstn j (snd s2).

(** A buffer of [OUTPUT_SIZE] bytes [0xff]. *)
Definition ones_buffer : list Byte.byte := repeat Byte.xff OUTPUT_SIZE.

(** ** Objects in memory *)

(** The functions of muhash.cpp receive pointers to [Num3072] objects and
    read and write limbs through them.  An [address] names such an object:
    the [data] member of an accumulator, or a local variable whose address
    the code takes, which are [tmp] of [operator/=] and [p[0]] to [p[11]]
    and [x] of [Inverse]. *)
Inductive address : Type :=
| data_of (object : nat)
| div_tmp
| Inverse_p (i : nat)
| Inverse_x.

Definition address_eqb (p q : address) : bool :=
  match p, q with
  | data_of i, data_of j => Nat.eqb i j
  | div_tmp, div_tmp => true
  | Inverse_p i, Inverse_p j => Nat.eqb i j
  | Inverse_x, Inverse_x => true
  | _, _ => false
  end.

Definition memory : Type := address -> Num3072.

(** [*p = v] *)
Definition store_object (m : memory) (p : address) (v : Num3072) : memory :=
  fun q => if address_eqb q p then v else m q.

(** [p->limbs[i] = v] *)
Definition store_limb (m : memory) (p : address) (i : nat) (v : Z) : memory :=
  store_object m p (set_at (m p) i v).

(** [p->limbs[i]] *)
Definition load_limb (m : memory) (p : address) (i : nat) : Z := at_ (m p) i.

Section InMemory.

Variable LIMB_SIZE : Z.
Variable LIMBS : nat.

(** [FullReduce(d)]: the memory after the call. *)
Definition FullReduce_step_at (d : address) (i : nat) (st : Z * memory) : Z * memory :=
let '(c0, m) := st in
let c1 := 0 in
let '(c0, c1) := add2 LIMB_SIZE (c0, c1) (load_limb m d i) in
let '((c0, c1), n) := extract2 (c0, c1) in
(c0, store_limb m d i n).

Definition FullReduce_at (m : memory) (d : address) : memory :=
let c0 := limb LIMB_SIZE MAX_PRIME_DIFF in
snd (for_loop 0 LIMBS (FullReduce_step_at d) (c0, m)).

(** The loop of the second reduction, which writes [in_out->limbs[j]]. *)
Definition reduce2_step_at (tmp : Num3072) (in_out : address) (j : nat)
         (st : Z * Z * memory) : Z * Z * memory :=
let '(c0, c1, m) := st in
let '(c0, c1) := add2 LIMB_SIZE (c0, c1) (at_ tmp j) in
let '((c0, c1), n) := extract2 (c0, c1) in
(c0, c1, store_limb m in_out j n).

(** The second and the third reduction of [Multiply] and of [Square], from
  [c0], [c1] and the local array [tmp]. *)
Definition reduce_at (st : Z * Z * Num3072) (m : memory) (in_out : address) : memory :=
let '(c0, c1, tmp) := st in
let '(c0, c1) := muln2 LIMB_SIZE (c0, c1) (limb LIMB_SIZE MAX_PRIME_DIFF) in
let '(c0, _, m) := for_loop 0 LIMBS (reduce2_step_at tmp in_out) (c0, c1, m) in
if negb (c0 =? 0) then FullReduce_at m in_out else m.

(** [Multiply(in_out, a)]: the memory after the call.  The two blocks that
  compute the product read [in_out->limbs] and [a->limbs] and write the
  local array [tmp] only. *)
Definition Multiply_at (m : memory) (in_out a : address) : memory :=
reduce_at (Multiply_product LIMB_SIZE LIMBS (m in_out) (m a)) m in_out.

(** [Square(in_out)]: the memory after the call. *)
Definition Square_at (m : memory) (in_out : address) : memory :=
reduce_at (Square_product LIMB_SIZE LIMBS (m in_out)) m in_out.

(** [for (int j = 0; j < n; ++j) Square(&x);] *)
Definition Square_times_at (n : nat) (m : memory) (x : address) : memory :=
for_loop 0 n (fun _ m => Square_at m x) m.

(** The body of the loop of [Inverse] that fills [p]. *)
Definition Inverse_table_step_at (i : nat) (m : memory) : memory :=
let m := store_object m (Inverse_p (i + 1)) (m (Inverse_p i)) in
let m := Square_times_at (Nat.shiftl 1 i) m (Inverse_p (i + 1)) in
Multiply_at m (Inverse_p (i + 1)) (Inverse_p i).

(** [Inverse(out, a)]: the memory after the call. *)
Definition Inverse_at (m : memory) (out a : address) : memory :=
let m := store_object m (Inverse_p 0) (m a) in
let m := for_loop 0 11 Inverse_table_step_at m in
let m := store_object m Inverse_x (m (Inverse_p 11)) in
let m := Square_times_at 512 m Inverse_x in
let m := Multiply_at m Inverse_x (Inverse_p 9) in
let m := Square_times_at 256 m Inverse_x in
let m := Multiply_at m Inverse_x (Inverse_p 8) in
let m := Square_times_at 128 m Inverse_x in
let m := Multiply_at m Inverse_x (Inverse_p 7) in
let m := Square_times_at 64 m Inverse_x in
let m := Multiply_at m Inverse_x (Inverse_p 6) in
let m := Square_times_at 32 m Inverse_x in
let m := Multiply_at m Inverse_x (Inverse_p 5) in
let m := Square_times_at 8 m Inverse_x in
let m := Multiply_at m Inverse_x (Inverse_p 3) in
let m := Square_times_at 2 m Inverse_x in
let m := Multiply_at m Inverse_x (Inverse_p 1) in
let m := Square_times_at 1 m Inverse_x in
let m := Multiply_at m Inverse_x (Inverse_p 0) in
let m := Square_times_at 5 m Inverse_x in
let m := Multiply_at m Inverse_x (Inverse_p 2) in
let m := Square_times_at 3 m Inverse_x in
let m := Multiply_at m Inverse_x (Inverse_p 0) in
let m := Square_times_at 2 m Inverse_x in
let m := Multiply_at m Inverse_x (Inverse_p 0) in
let m := Square_times_at 4 m Inverse_x in
let m := Multiply_at m Inverse_x (Inverse_p 0) in
let m := Square_times_at 4 m Inverse_x in
let m := Multiply_at m Inverse_x (Inverse_p 1) in
let m := Square_times_at 3 m Inverse_x in
let m := Multiply_at m Inverse_x (Inverse_p 0) in
store_object m out (m Inverse_x).

(** [MuHash3072::operator*=] on the accumulators [this] and [x]:
  [Multiply(&this->data, &x.data)]. *)
Definition mul_assign_at (m : memory) (this x : nat) : memory :=
Multiply_at m (data_of this) (data_of x).

(** [MuHash3072::operator/=] on the accumulators [this] and [x]:
  [Inverse(&tmp, &x.data); Multiply(&this->data, &tmp)]. *)
Definition div_assign_at (m : memory) (this x : nat) : memory :=
let m := Inverse_at m div_tmp (data_of x) in
Multiply_at m (data_of this) div_tmp.

End InMemory.

(** The schedule of [Inverse] after [x = p[11]]: the numbers of squarings
    of [x] and the index of the entry of [p] by which [x] is multiplied
    next. *)
Definition Inverse_schedule : list (nat * nat) :=
  [(512, 9); (256, 8); (128, 7); (64, 6); (32, 5); (8, 3); (2, 1); (1, 0);
   (5, 2); (3, 0); (2, 0); (4, 0); (4, 1); (3, 0)]%nat.

(** A memory of the wide build: every accumulator has the value 2, and
    the local variables hold all-ones limbs. *)
Definition memory_of_twos : memory :=
  fun p => match p with
           | data_of _ => Num3072_of_Z Wide 2
           | _ => repeat (limb_max 64) 48
           end.

(** A memory of the wide build with the values 3, 5, 7, ... in the
    accumulators. *)
Definition memory_of_odds : memory :=
  fun p => match p with
           | data_of n => Num3072_of_Z Wide (2 * Z.of_nat n + 3)
           | _ => repeat (limb_max 64) 48
           end.

(** The key of a keyed update. *)
Definition key_of (k : keyed_update) : list Byte.byte :=
  match k with Insert key32 => key32 | Remove key32 => key32 end.

(** Every key of a sequence of keyed updates passes
    [assert(key32.size() == INPUT_SIZE)]. *)
Definition keys_ok (ks : list keyed_update) : bool :=
  forallb (fun k => (length (key_of k) =? INPUT_SIZE)%nat) ks.

(** * Proofs *)

(** ** Arithmetic on bounds *)

(** Bounds on one round of the first loop: with a carry of at most [K * B]
    and columns of at most [n] products of limbs, nothing wraps. *)
Lemma round_bound B C n c hi lo :
  1 < B -> 0 <= C -> 1 <= n -> (C + 1) * n < B ->
  0 <= c <= (C + 1) * n * B ->
  0 <= hi <= (n - 1) * ((B - 1) * (B - 1)) ->
  0 <= lo <= n * ((B - 1) * (B - 1)) ->
  hi < B * B * B /\
  0 <= c + lo + C * hi <= (C + 1) * n * (B * B) /\
  (C + 1) * n * (B * B) < B * B * B.
Proof.
  intros HB HC Hn HK Hc Hhi Hlo.
  set (M := (B - 1) * (B - 1)) in *.
  set (K := (C + 1) * n) in *.
  assert (HM : 0 <= M) by (subst M; apply Z.mul_nonneg_nonneg; lia).
  assert (HMB : M + B <= B * B) by (subst M; ring_simplify; lia).
  assert (HBB : 0 < B * B) by (apply Z.mul_pos_pos; lia).
  assert (HK0 : 0 <= K) by (subst K; apply Z.mul_nonneg_nonneg; lia).
  assert (H1 : (n - 1) * M <= K * M).
  { apply Z.mul_le_mono_nonneg_r; [lia|]. subst K. 
    assert (0 <= C * n) by (apply Z.mul_nonneg_nonneg; lia). lia. }
  assert (H2 : K * M + K * B <= K * (B * B)).
  { rewrite <- Z.mul_add_distr_l. apply Z.mul_le_mono_nonneg_l; lia. }
  assert (H3 : K * (B * B) < B * (B * B)).
  { apply Z.mul_lt_mono_pos_r; lia. }
  assert (H4 : C * hi <= C * ((n - 1) * M)).
  { apply Z.mul_le_mono_nonneg_l; lia. }
  assert (H5 : C * ((n - 1) * M) + n * M <= K * M).
  { subst K. 
    replace ((C + 1) * n * M) with (C * ((n - 1) * M) + n * M + C * M) by ring.
    assert (0 <= C * M) by (apply Z.mul_nonneg_nonneg; lia). lia. }
  assert (H6 : 0 <= C * hi) by (apply Z.mul_nonneg_nonneg; lia).
  replace (B * B * B) with (B * (B * B)) by ring.
  split; [|split]; lia.
Qed.

Lemma div_bound B K x r :
  0 < B -> 0 <= r -> r + B * x <= K * (B * B) -> x <= K * B.
Proof.
  intros HB Hr H.
  apply Z.mul_le_mono_pos_l with (p := B); [assumption|].
  replace (B * (K * B)) with (K * (B * B)) by ring. lia.
Qed.

(** Two and three limbs in base [B] stay below [B^2] and [B^3]. *)
Lemma two_limbs_range B a b :
  1 < B -> 0 <= a < B -> 0 <= b < B -> 0 <= a + B * b < B * B.
Proof.
  intros HB Ha Hb.
  assert (0 <= B * b) by (apply Z.mul_nonneg_nonneg; lia).
  assert (B * b <= B * (B - 1)) by (apply Z.mul_le_mono_nonneg_l; lia).
  replace (B * (B - 1)) with (B * B - B) in * by ring. lia.
Qed.

Lemma three_limbs_range B a b c :
  1 < B -> 0 <= a < B -> 0 <= b < B -> 0 <= c < B ->
  0 <= a + B * b + B * B * c < B * B * B.
Proof.
  intros HB Ha Hb Hc. pose proof (two_limbs_range B a b HB Ha Hb).
  assert (0 <= B * B) by (apply Z.mul_nonneg_nonneg; lia).
  assert (0 <= B * B * c) by (apply Z.mul_nonneg_nonneg; lia).
  assert (B * B * c <= B * B * (B - 1)) by (apply Z.mul_le_mono_nonneg_l; lia).
  replace (B * B * (B - 1)) with (B * B * B - B * B) in * by ring. lia.
Qed.

(** ** The limb primitives *)

Section LimbFacts.

Variable w : Z.
Hypothesis Hw : 0 < w.

Local Abbreviation B := (2 ^ w).

Lemma B_gt_1 : 1 < B.
Proof. apply Z.pow_gt_1; lia. Qed.

Lemma dlimb_base : 2 ^ (2 * w) = B * B.
Proof. replace (2 * w) with (w + w) by lia. apply Z.pow_add_r; lia. Qed.

Lemma is_limb_iff x : is_limb w x = true <-> 0 <= x < B.
Proof. unfold is_limb. rewrite andb_true_iff, Z.leb_le, Z.ltb_lt. tauto. Qed.

Lemma limb_small x : 0 <= x < B -> limb w x = x.
Proof. intros. unfold limb. apply Z.mod_small; lia. Qed.

Lemma limb_range x : 0 <= limb w x < B.
Proof. unfold limb. apply Z.mod_pos_bound. pose proof B_gt_1; lia. Qed.

Lemma double_limb_small x : 0 <= x < B * B -> double_limb w x = x.
Proof. intros. unfold double_limb. rewrite dlimb_base. apply Z.mod_small; lia. Qed.

Lemma shiftr_limb x : Z.shiftr x w = x / B.
Proof. apply Z.shiftr_div_pow2; lia. Qed.

(** The carry test of the code: after [s = x + y] in [limb_t], the
    comparison [s < y] tells whether the addition wrapped. *)
Lemma add_carry x y :
  0 <= x < B -> 0 <= y < B ->
  limb w (x + y) = x + y - B * (if limb w (x + y) <? y then 1 else 0).
Proof.
  intros Hx Hy. unfold limb.
  destruct (Z_lt_le_dec (x + y) B) as [Hs | Hs].
  - rewrite Z.mod_small by lia.
    destruct (Z.ltb_spec (x + y) y); lia.
  - assert (E : (x + y) mod B = x + y - B).
    { symmetry. apply Z.mod_unique with (q := 1); lia. }
    rewrite E. destruct (Z.ltb_spec (x + y - B) y); lia.
Qed.

Lemma carry_bit (b : bool) : 0 <= (if b then 1 else 0) <= 1.
Proof. destruct b; lia. Qed.

Lemma prod_bound a b :
  0 <= a < B -> 0 <= b < B -> 0 <= a * b <= (B - 1) * (B - 1).
Proof. intros. split; [nia|]. apply Z.mul_le_mono_nonneg; lia. Qed.

(** A product of two limbs, split into its low and high limb. *)
Lemma prod_split a b :
  0 <= a < B -> 0 <= b < B ->
  0 <= (a * b) mod B < B /\ 0 <= (a * b) / B <= B - 2 /\
  a * b = (a * b) mod B + B * ((a * b) / B).
Proof.
  intros Ha Hb. pose proof B_gt_1 as HB.
  pose proof (prod_bound a b Ha Hb) as Hp.
  pose proof (Z.mod_pos_bound (a * b) B ltac:(lia)) as Hm.
  pose proof (Z.div_mod (a * b) B ltac:(lia)) as Hd.
  split; [lia|]. split; [|lia].
  split; [apply Z.div_pos; lia|].
  assert ((a * b) / B < B - 1); [|lia].
  apply Z.div_lt_upper_bound; nia.
Qed.

Lemma mul_spec a b :
  0 <= a < B -> 0 <= b < B ->
  mul w a b = ((a * b) mod B, (a * b) / B).
Proof.
  intros Ha Hb. pose proof B_gt_1 as HB.
  destruct (prod_split a b Ha Hb) as (Hl & Hh & E).
  pose proof (prod_bound a b Ha Hb) as Hp.
  unfold mul. rewrite double_limb_small by nia.
  rewrite shiftr_limb. rewrite (limb_small (a * b / B)) by lia.
  reflexivity.
Qed.

Lemma muladd3_eq c0 c1 c2 a b :
  0 <= a < B -> 0 <= b < B ->
  muladd3 w (c0, c1, c2) a b =
  let tl := limb w (a * b) in
  let th := (a * b) / B in
  let c0' := limb w (c0 + tl) in
  let th' := th + (if c0' <? tl then 1 else 0) in
  let c1' := limb w (c1 + th') in
  (c0', c1', limb w (c2 + (if c1' <? th' then 1 else 0))).
Proof.
  intros Ha Hb. pose proof B_gt_1 as HB.
  destruct (prod_split a b Ha Hb) as (Hl & Hh & E).
  pose proof (prod_bound a b Ha Hb) as Hp.
  unfold muladd3. rewrite double_limb_small by nia.
  rewrite shiftr_limb. rewrite (limb_small (a * b / B)) by lia.
  cbv zeta.
  rewrite (limb_small (a * b / B + _)).
  2:{ pose proof (carry_bit (limb w (c0 + limb w (a * b)) <? limb w (a * b))). lia. }
  reflexivity.
Qed.

(** [muladd3] adds the product, modulo the size of the accumulator. *)
Lemma muladd3_spec c a b :
  is_limb3 w c = true -> 0 <= a < B -> 0 <= b < B ->
  is_limb3 w (muladd3 w c a b) = true /\
  val3 w (muladd3 w c a b) = (val3 w c + a * b) mod (B * B * B).
Proof.
  destruct c as [[c0 c1] c2]. intros Hc Ha Hb. pose proof B_gt_1 as HB.
  unfold is_limb3 in Hc. rewrite !andb_true_iff, !is_limb_iff in Hc.
  destruct Hc as [[H0 H1] H2].
  rewrite muladd3_eq by assumption. cbv zeta.
  destruct (prod_split a b Ha Hb) as (Hl & Hh & E).
  change (limb w (a * b)) with ((a * b) mod B).
  set (tl := (a * b) mod B) in *. set (th := a * b / B) in *.
  pose proof (add_carry c0 tl H0 Hl) as E0.
  pose proof (limb_range (c0 + tl)) as R0.
  set (c0' := limb w (c0 + tl)) in *.
  set (k1 := if c0' <? tl then 1 else 0) in *.
  pose proof (carry_bit (c0' <? tl)) as Hk1. fold k1 in Hk1.
  pose proof (add_carry c1 (th + k1) H1 ltac:(lia)) as E1.
  pose proof (limb_range (c1 + (th + k1))) as R1.
  set (c1' := limb w (c1 + (th + k1))) in *.
  set (k2 := if c1' <? th + k1 then 1 else 0) in *.
  pose proof (carry_bit (c1' <? th + k1)) as Hk2. fold k2 in Hk2.
  pose proof (add_carry c2 k2 H2 ltac:(lia)) as E2.
  pose proof (limb_range (c2 + k2)) as R2.
  set (c2' := limb w (c2 + k2)) in *.
  set (k3 := if c2' <? k2 then 1 else 0) in *.
  pose proof (carry_bit (c2' <? k2)) as Hk3. fold k3 in Hk3.
  split.
  - unfold is_limb3. rewrite !andb_true_iff, !is_limb_iff. lia.
  - unfold val3. apply Z.mod_unique with (q := k3).
    + left. apply three_limbs_range; lia.
    + rewrite E0, E1, E2, E. ring.
Qed.

Lemma muldbladd3_twice c a b :
  muldbladd3 w c a b = muladd3 w (muladd3 w c a b) a b.
Proof. destruct c as [[c0 c1] c2]. reflexivity. Qed.

Lemma limb3_iff c0 c1 c2 :
  is_limb3 w (c0, c1, c2) = true <-> (0 <= c0 < B /\ 0 <= c1 < B /\ 0 <= c2 < B).
Proof. unfold is_limb3. rewrite !andb_true_iff, !is_limb_iff. tauto. Qed.

Lemma muldbladd3_spec c a b :
  is_limb3 w c = true -> 0 <= a < B -> 0 <= b < B ->
  is_limb3 w (muldbladd3 w c a b) = true /\
  val3 w (muldbladd3 w c a b) = (val3 w c + 2 * (a * b)) mod (B * B * B).
Proof.
  intros Hc Ha Hb. rewrite muldbladd3_twice.
  destruct (muladd3_spec c a b Hc Ha Hb) as [L1 E1].
  destruct (muladd3_spec _ a b L1 Ha Hb) as [L2 E2].
  split; [exact L2|]. rewrite E2, E1.
  rewrite Z.add_mod_idemp_l by (pose proof B_gt_1; nia).
  f_equal. ring.
Qed.

(** [mulnadd3] adds [n * d] to [c0,c1]; what [c2] held is not part of
    the result. *)
Lemma mulnadd3_spec c0 c1 c2 d n :
  0 <= c0 < B -> 0 <= c1 < B -> is_limb3 w d = true -> 0 <= n < B ->
  is_limb3 w (mulnadd3 w (c0, c1, c2) d n) = true /\
  val3 w (mulnadd3 w (c0, c1, c2) d n) =
  (c0 + B * c1 + n * val3 w d) mod (B * B * B).
Proof.
  destruct d as [[d0 d1] d2]. intros H0 H1 Hd Hn. pose proof B_gt_1 as HB.
  apply limb3_iff in Hd. destruct Hd as (D0 & D1 & D2).
  pose proof (prod_bound d0 n D0 Hn) as P0.
  pose proof (prod_bound d1 n D1 Hn) as P1.
  unfold mulnadd3.
  rewrite (double_limb_small (d0 * n)) by nia.
  rewrite (double_limb_small (d0 * n + c0)) by nia.
  rewrite (double_limb_small (d1 * n)) by nia.
  rewrite (double_limb_small (d1 * n + c1)) by nia.
  rewrite !shiftr_limb.
  set (t1 := d0 * n + c0).
  assert (T1 : 0 <= t1 < B * B) by (subst t1; nia).
  pose proof (Z.div_mod t1 B ltac:(lia)) as E1.
  pose proof (Z.mod_pos_bound t1 B ltac:(lia)) as M1.
  assert (Q1 : 0 <= t1 / B < B).
  { split; [apply Z.div_pos; lia | apply Z.div_lt_upper_bound; lia]. }
  rewrite (double_limb_small (t1 / B + _)) by nia.
  set (t2 := t1 / B + (d1 * n + c1)).
  assert (T2 : 0 <= t2 < B * B) by (subst t2; nia).
  pose proof (Z.div_mod t2 B ltac:(lia)) as E2.
  pose proof (Z.mod_pos_bound t2 B ltac:(lia)) as M2.
  assert (Q2 : 0 <= t2 / B < B).
  { split; [apply Z.div_pos; lia | apply Z.div_lt_upper_bound; lia]. }
  pose proof (limb_range (d2 * n)) as M3.
  rewrite (double_limb_small (t2 / B + _)) by nia.
  unfold limb. rewrite Z.add_mod_idemp_r by lia.
  set (t3 := t2 / B + d2 * n).
  pose proof (Z.div_mod t3 B ltac:(lia)) as E3.
  pose proof (Z.mod_pos_bound t3 B ltac:(lia)) as M4.
  split.
  - apply limb3_iff. lia.
  - unfold val3. apply Z.mod_unique with (q := t3 / B).
    + left. apply three_limbs_range; lia.
    + pose proof (f_equal (Z.mul B) E2) as E2'.
      pose proof (f_equal (Z.mul (B * B)) E3) as E3'.
      subst t3 t2 t1. lia.
Qed.

Lemma muln2_spec c0 c1 n :
  0 <= c0 < B -> 0 <= c1 < B -> 0 <= n < B ->
  let '(r0, r1) := muln2 w (c0, c1) n in
  0 <= r0 < B /\ 0 <= r1 < B /\
  r0 + B * r1 = ((c0 + B * c1) * n) mod (B * B).
Proof.
  intros H0 H1 Hn. pose proof B_gt_1 as HB.
  pose proof (prod_bound c0 n H0 Hn) as P0.
  pose proof (prod_bound c1 n H1 Hn) as P1.
  unfold muln2.
  rewrite (double_limb_small (c0 * n)) by nia.
  rewrite (double_limb_small (c1 * n)) by nia.
  rewrite shiftr_limb.
  set (t1 := c0 * n).
  assert (T1 : 0 <= t1 <= (B - 1) * (B - 1)) by (subst t1; lia).
  pose proof (Z.div_mod t1 B ltac:(lia)) as E1.
  pose proof (Z.mod_pos_bound t1 B ltac:(lia)) as M1.
  assert (Q1 : 0 <= t1 / B <= B - 2).
  { split; [apply Z.div_pos; lia|].
    assert (t1 / B < B - 1); [apply Z.div_lt_upper_bound; nia | lia]. }
  rewrite (double_limb_small (t1 / B + _)) by nia.
  set (t2 := t1 / B + c1 * n).
  pose proof (Z.div_mod t2 B ltac:(lia)) as E2.
  pose proof (Z.mod_pos_bound t2 B ltac:(lia)) as M2.
  unfold limb. split; [lia|]. split; [lia|].
  apply Z.mod_unique with (q := t2 / B).
  - left. apply two_limbs_range; lia.
  - subst t2 t1.
    set (q1 := c0 * n / B) in *. set (r1 := (c0 * n) mod B) in *.
    set (q2 := (q1 + c1 * n) / B) in *. set (r2 := (q1 + c1 * n) mod B) in *.
    nia.
Qed.

Lemma add2_spec c0 c1 a :
  0 <= c0 < B -> 0 <= c1 < B -> 0 <= a < B ->
  let '(r0, r1) := add2 w (c0, c1) a in
  0 <= r0 < B /\ 0 <= r1 < B /\
  r0 + B * r1 = (c0 + B * c1 + a) mod (B * B).
Proof.
  intros H0 H1 Ha. pose proof B_gt_1 as HB. unfold add2.
  pose proof (add_carry c0 a H0 Ha) as E0.
  pose proof (limb_range (c0 + a)) as R0.
  set (r0 := limb w (c0 + a)) in *.
  pose proof (carry_bit (r0 <? a)) as K1.
  set (k1 := if r0 <? a then 1 else 0) in *.
  pose proof (add_carry c1 k1 H1 ltac:(lia)) as E1.
  pose proof (limb_range (c1 + k1)) as R1.
  set (r1 := limb w (c1 + k1)) in *.
  pose proof (carry_bit (r1 <? k1)) as K2.
  set (k2 := if r1 <? k1 then 1 else 0) in *.
  split; [lia|]. split; [lia|].
  apply Z.mod_unique with (q := k2).
  - left. apply two_limbs_range; lia.
  - rewrite E0, E1. ring.
Qed.

End LimbFacts.

(** ** Loops *)

Lemma iter_from_snoc {S : Type} (body : nat -> S -> S) n :
  forall i s, iter_from (Datatypes.S n) i body s = body (i + n)%nat (iter_from n i body s).
Proof.
  induction n as [|n IH]; intros i s.
  - simpl. rewrite Nat.add_0_r. reflexivity.
  - change (iter_from (Datatypes.S (Datatypes.S n)) i body s)
      with (iter_from (Datatypes.S n) (Datatypes.S i) body (body i s)).
    rewrite IH. simpl. f_equal. lia.
Qed.

Lemma for_loop_done {S : Type} lo hi (body : nat -> S -> S) s :
  (hi <= lo)%nat -> for_loop lo hi body s = s.
Proof. intros H. unfold for_loop. replace (hi - lo)%nat with O by lia. reflexivity. Qed.

Lemma for_loop_snoc {S : Type} lo hi (body : nat -> S -> S) s :
  (lo <= hi)%nat ->
  for_loop lo (Datatypes.S hi) body s = body hi (for_loop lo hi body s).
Proof.
  intros H. unfold for_loop.
  replace (Datatypes.S hi - lo)%nat with (Datatypes.S (hi - lo)) by lia.
  rewrite iter_from_snoc. f_equal. lia.
Qed.

(** Loop invariants. *)
Lemma for_loop_inv {S : Type} (Inv : nat -> S -> Prop) lo hi (body : nat -> S -> S) s :
  (lo <= hi)%nat ->
  Inv lo s ->
  (forall i t, (lo <= i < hi)%nat -> Inv i t -> Inv (Datatypes.S i) (body i t)) ->
  Inv hi (for_loop lo hi body s).
Proof.
  intros Hle H0 Hstep. induction hi as [|hi IH].
  - replace lo with O in * by lia. exact H0.
  - destruct (Nat.eq_dec lo (Datatypes.S hi)) as [->|Hne].
    + rewrite for_loop_done by lia. exact H0.
    + rewrite for_loop_snoc by lia. apply Hstep; [lia|].
      apply IH; [lia|]. intros i t Hi. apply Hstep. lia.
Qed.

(** Two loops whose bodies agree on the states that an invariant allows. *)
Lemma for_loop_agree {S : Type} (Inv : S -> Prop) lo hi (f g : nat -> S -> S) s :
  Inv s ->
  (forall i t, (lo <= i < hi)%nat -> Inv t -> f i t = g i t /\ Inv (g i t)) ->
  for_loop lo hi f s = for_loop lo hi g s /\ Inv (for_loop lo hi g s).
Proof.
  intros H0 Hstep. destruct (le_lt_dec lo hi) as [Hle|Hlt].
  - apply (for_loop_inv (fun i t => for_loop lo i f s = t /\ Inv t) lo hi g s Hle).
    + rewrite for_loop_done by lia. auto.
    + intros i t Hi [E It]. rewrite for_loop_snoc by lia. rewrite E.
      apply Hstep; assumption.
  - rewrite !for_loop_done by lia. auto.
Qed.

(** ** Sums *)

Lemma sum_to_ext n f g :
  (forall i, (i < n)%nat -> f i = g i) -> sum_to n f = sum_to n g.
Proof.
  induction n as [|n IH]; intros H; simpl; [reflexivity|].
  rewrite IH, H by (intros; try apply H; lia). reflexivity.
Qed.

Lemma sum_to_add n f g :
  sum_to n (fun i => f i + g i) = sum_to n f + sum_to n g.
Proof. induction n as [|n IH]; simpl; [reflexivity | rewrite IH; ring]. Qed.

Lemma sum_to_scale n c f :
  sum_to n (fun i => c * f i) = c * sum_to n f.
Proof. induction n as [|n IH]; simpl; [ring | rewrite IH; ring]. Qed.

Lemma sum_to_zero n f :
  (forall i, (i < n)%nat -> f i = 0) -> sum_to n f = 0.
Proof.
  induction n as [|n IH]; intros H; simpl; [reflexivity|].
  rewrite IH, H by (intros; try apply H; lia). reflexivity.
Qed.

Lemma sum_to_shift n f :
  sum_to (S n) f = f O + sum_to n (fun i => f (S i)).
Proof.
  induction n as [|n IH]; [simpl; ring|].
  change (sum_to (S (S n)) f) with (sum_to (S n) f + f (S n)).
  rewrite IH. simpl. ring.
Qed.

Lemma sum_to_app n m f :
  sum_to (n + m) f = sum_to n f + sum_to m (fun i => f (n + i)%nat).
Proof.
  induction m as [|m IH].
  - rewrite Nat.add_0_r. simpl. ring.
  - replace (n + S m)%nat with (S (n + m)) by lia. simpl. rewrite IH. ring.
Qed.

Lemma sum_to_bounds n f lo hi :
  (forall i, (i < n)%nat -> lo <= f i <= hi) ->
  Z.of_nat n * lo <= sum_to n f <= Z.of_nat n * hi.
Proof.
  induction n as [|n IH]; intros H; [simpl; lia|].
  change (sum_to (S n) f) with (sum_to n f + f n).
  specialize (IH ltac:(intros; apply H; lia)). specialize (H n ltac:(lia)).
  rewrite Nat2Z.inj_succ. lia.
Qed.

Lemma sum_range_empty lo hi f : (hi <= lo)%nat -> sum_range lo hi f = 0.
Proof. intros. unfold sum_range. replace (hi - lo)%nat with O by lia. reflexivity. Qed.

Lemma sum_range_snoc lo hi f :
  (lo <= hi)%nat -> sum_range lo (S hi) f = sum_range lo hi f + f hi.
Proof.
  intros. unfold sum_range. replace (S hi - lo)%nat with (S (hi - lo)) by lia.
  simpl. do 2 f_equal. lia.
Qed.

Lemma sum_range_from_0 n f : sum_range 0 n f = sum_to n f.
Proof. unfold sum_range. rewrite Nat.sub_0_r. reflexivity. Qed.

Lemma sum_range_first lo hi f :
  (lo < hi)%nat -> sum_range lo hi f = f lo + sum_range (S lo) hi f.
Proof.
  intros. unfold sum_range. replace (hi - lo)%nat with (S (hi - S lo)) by lia.
  rewrite sum_to_shift. rewrite Nat.add_0_r. f_equal.
  apply sum_to_ext. intros. f_equal. lia.
Qed.

(** A sum whose terms read the same from both ends, as the cross terms of
    a square do. *)
Lemma sum_to_symmetric n :
  forall f, (forall t, (t < n)%nat -> f (n - 1 - t)%nat = f t) ->
  sum_to n f = 2 * sum_to (n / 2) f + (if Nat.odd n then f (n / 2)%nat else 0).
Proof.
  induction n as [n IH] using lt_wf_ind. intros f Hsym.
  destruct n as [|[|n]].
  - reflexivity.
  - simpl. ring.
  - rewrite sum_to_shift. change (sum_to (S n) (fun i => f (S i)))
      with (sum_to n (fun i => f (S i)) + f (S n)).
    rewrite (IH n ltac:(lia) (fun i => f (S i))).
    2:{ intros t Ht. rewrite <- (Hsym (S t)) by lia. f_equal. lia. }
    pose proof (Hsym O ltac:(lia)) as H0.
    replace (S (S n) - 1 - 0)%nat with (S n) in H0 by lia.
    replace (S (S n) / 2)%nat with (S (n / 2)).
    2:{ change (S (S n)) with (2 + n)%nat.
        replace (2 + n)%nat with (n + 1 * 2)%nat by lia.
        rewrite Nat.div_add by lia. lia. }
    rewrite (sum_to_shift (n / 2) f).
    rewrite Nat.odd_succ, Nat.even_succ. rewrite H0. ring.
Qed.

(** ** Arrays *)

Lemma length_set_at {A : Type} (l : list A) i v : length (set_at l i v) = length l.
Proof.
  revert i; induction l as [|h t IH]; intros [|i]; simpl; try reflexivity.
  now rewrite IH.
Qed.

Lemma firstn_set_at_same {A : Type} (l : list A) i v :
  firstn i (set_at l i v) = firstn i l.
Proof.
  revert i; induction l as [|h t IH]; intros [|i]; simpl; try reflexivity.
  now rewrite IH.
Qed.

Lemma firstn_set_at_next {A : Type} (l : list A) i v :
  (i < length l)%nat -> firstn (S i) (set_at l i v) = firstn i l ++ [v].
Proof.
  revert i; induction l as [|h t IH]; intros [|i] H; simpl in *; try lia.
  - reflexivity.
  - f_equal. apply IH. lia.
Qed.

Lemma skipn_set_at_next {A : Type} (l : list A) i v :
  skipn (S i) (set_at l i v) = skipn (S i) l.
Proof.
  revert i; induction l as [|h t IH]; intros [|i]; simpl; try reflexivity.
  apply IH.
Qed.

Lemma nth_set_at_same {A : Type} (l : list A) i v d :
  (i < length l)%nat -> nth i (set_at l i v) d = v.
Proof.
  revert i; induction l as [|h t IH]; intros [|i] H; simpl in *; try lia.
  - reflexivity.
  - apply IH. lia.
Qed.

Lemma nth_set_at_other {A : Type} (l : list A) i j v d :
  i <> j -> nth i (set_at l j v) d = nth i l d.
Proof.
  revert i j; induction l as [|h t IH]; intros [|i] [|j] H; simpl; try reflexivity.
  - congruence.
  - apply IH. congruence.
Qed.

Lemma skipn_nth_cons {A : Type} (l : list A) i d :
  (i < length l)%nat -> skipn i l = nth i l d :: skipn (S i) l.
Proof.
  revert i; induction l as [|h t IH]; intros [|i] H; simpl in *; try lia.
  - reflexivity.
  - apply IH. lia.
Qed.

Lemma firstn_snoc_nth {A : Type} (l : list A) i d :
  (i < length l)%nat -> firstn (S i) l = firstn i l ++ [nth i l d].
Proof.
  revert i; induction l as [|h t IH]; intros [|i] H; simpl in *; try lia.
  - reflexivity.
  - f_equal. apply IH. lia.
Qed.

Section Evaluation.

Variable w : Z.
Hypothesis Hw : 0 < w.

Local Abbreviation B := (2 ^ w).

Lemma eval_app l1 l2 :
  eval w (l1 ++ l2) = eval w l1 + B ^ Z.of_nat (length l1) * eval w l2.
Proof.
  induction l1 as [|x t IH]; cbn [eval app length].
  - change (Z.of_nat 0) with 0. rewrite Z.pow_0_r. ring.
  - rewrite IH, Nat2Z.inj_succ, Z.pow_succ_r by lia. ring.
Qed.

Lemma eval_snoc l x :
  eval w (l ++ [x]) = eval w l + B ^ Z.of_nat (length l) * x.
Proof. rewrite eval_app. cbn [eval]. f_equal. f_equal. ring. Qed.

Lemma all_limbs_cons x l :
  forallb (is_limb w) (x :: l) = true <-> 0 <= x < B /\ forallb (is_limb w) l = true.
Proof. simpl. rewrite andb_true_iff, is_limb_iff. tauto. Qed.

Lemma all_limbs_app l1 l2 :
  forallb (is_limb w) (l1 ++ l2) = true <->
  forallb (is_limb w) l1 = true /\ forallb (is_limb w) l2 = true.
Proof. rewrite forallb_app, andb_true_iff. tauto. Qed.

Lemma all_limbs_firstn l n :
  forallb (is_limb w) l = true -> forallb (is_limb w) (firstn n l) = true.
Proof.
  revert n; induction l as [|x t IH]; intros [|n] H; simpl; try reflexivity.
  simpl in H. apply andb_true_iff in H. destruct H as [H1 H2].
  rewrite H1. simpl. now apply IH.
Qed.

Lemma eval_range l :
  forallb (is_limb w) l = true -> 0 <= eval w l < B ^ Z.of_nat (length l).
Proof.
  pose proof (B_gt_1 w Hw) as HB.
  induction l as [|x t IH]; intros H.
  - simpl. lia.
  - apply all_limbs_cons in H. destruct H as [Hx Ht]. specialize (IH Ht).
    simpl eval. simpl length. rewrite Nat2Z.inj_succ, Z.pow_succ_r by lia. nia.
Qed.

Lemma at_limb l i : forallb (is_limb w) l = true -> 0 <= at_ l i < B.
Proof.
  pose proof (B_gt_1 w Hw) as HB. unfold at_.
  revert i; induction l as [|x t IH]; intros i H.
  - destruct i; simpl; lia.
  - apply all_limbs_cons in H. destruct H as [Hx Ht].
    destruct i; simpl; [lia | now apply IH].
Qed.

Lemma well_formed_iff N l :
  well_formed w N l = true <-> length l = N /\ forallb (is_limb w) l = true.
Proof. unfold well_formed. rewrite andb_true_iff, Nat.eqb_eq. tauto. Qed.

(** Two arrays of limbs of one length with the same value are equal. *)
Lemma eval_inj l1 :
  forall l2, length l1 = length l2 ->
  forallb (is_limb w) l1 = true -> forallb (is_limb w) l2 = true ->
  eval w l1 = eval w l2 -> l1 = l2.
Proof.
  pose proof (B_gt_1 w Hw) as HB.
  induction l1 as [|x t IH]; intros [|y u] Hlen H1 H2 E; simpl in Hlen; try lia.
  - reflexivity.
  - apply all_limbs_cons in H1. apply all_limbs_cons in H2.
    destruct H1 as [Hx Ht], H2 as [Hy Hu]. simpl eval in E.
    assert (x = y).
    { assert (Ex : (x + B * eval w t) mod B = x).
      { rewrite Z.mul_comm, Z.mod_add by lia. apply Z.mod_small; lia. }
      assert (Ey : (y + B * eval w u) mod B = y).
      { rewrite Z.mul_comm, Z.mod_add by lia. apply Z.mod_small; lia. }
      congruence. }
    subst y. f_equal. apply IH; try assumption; [lia | nia].
Qed.

Lemma val3_range c : is_limb3 w c = true -> 0 <= val3 w c < B * B * B.
Proof.
  pose proof (B_gt_1 w Hw) as HB. destruct c as [[c0 c1] c2]. intros H.
  apply limb3_iff in H. unfold val3. nia.
Qed.

Lemma val3_inj c c' :
  is_limb3 w c = true -> is_limb3 w c' = true -> val3 w c = val3 w c' -> c = c'.
Proof.
  pose proof (B_gt_1 w Hw) as HB.
  destruct c as [[c0 c1] c2], c' as [[e0 e1] e2]. intros H H' E.
  apply limb3_iff in H. apply limb3_iff in H'.
  assert (eval w [c0; c1; c2] = eval w [e0; e1; e2]) as E'.
  { unfold val3 in E. simpl. lia. }
  apply eval_inj in E'; [congruence | reflexivity | |];
    simpl; rewrite !andb_true_iff, !is_limb_iff; lia.
Qed.

(** *** Accumulation loops *)

Lemma muladd3_loop lo hi (f g : nat -> Z) c :
  is_limb3 w c = true ->
  (forall i, (lo <= i < hi)%nat -> 0 <= f i < B /\ 0 <= g i < B) ->
  is_limb3 w (for_loop lo hi (fun i c => muladd3 w c (f i) (g i)) c) = true /\
  val3 w (for_loop lo hi (fun i c => muladd3 w c (f i) (g i)) c) =
  (val3 w c + sum_range lo hi (fun i => f i * g i)) mod (B * B * B).
Proof.
  intros Hc Hfg. destruct (le_lt_dec lo hi) as [Hle|Hlt].
  - apply (for_loop_inv
             (fun i t => is_limb3 w t = true /\
                         val3 w t = (val3 w c + sum_range lo i (fun i => f i * g i))
                                      mod (B * B * B))); [assumption| |].
    + split; [assumption|]. rewrite sum_range_empty, Z.add_0_r by lia.
      symmetry. apply Z.mod_small. now apply val3_range.
    + intros i t Hi [Lt Et]. destruct (Hfg i Hi) as [Hf Hg].
      destruct (muladd3_spec w Hw t (f i) (g i) Lt Hf Hg) as [L E].
      split; [exact L|]. rewrite E, Et, sum_range_snoc by lia.
      rewrite Z.add_mod_idemp_l by (pose proof (B_gt_1 w Hw); nia).
      f_equal. ring.
  - rewrite for_loop_done by lia. split; [assumption|].
    rewrite sum_range_empty, Z.add_0_r by lia.
    symmetry. apply Z.mod_small. now apply val3_range.
Qed.

Lemma muldbladd3_loop lo hi (f g : nat -> Z) c :
  is_limb3 w c = true ->
  (forall i, (lo <= i < hi)%nat -> 0 <= f i < B /\ 0 <= g i < B) ->
  is_limb3 w (for_loop lo hi (fun i c => muldbladd3 w c (f i) (g i)) c) = true /\
  val3 w (for_loop lo hi (fun i c => muldbladd3 w c (f i) (g i)) c) =
  (val3 w c + 2 * sum_range lo hi (fun i => f i * g i)) mod (B * B * B).
Proof.
  intros Hc Hfg. destruct (le_lt_dec lo hi) as [Hle|Hlt].
  - apply (for_loop_inv
             (fun i t => is_limb3 w t = true /\
                         val3 w t = (val3 w c + 2 * sum_range lo i (fun i => f i * g i))
                                      mod (B * B * B))); [assumption| |].
    + split; [assumption|]. rewrite sum_range_empty, Z.mul_0_r, Z.add_0_r by lia.
      symmetry. apply Z.mod_small. now apply val3_range.
    + intros i t Hi [Lt Et]. destruct (Hfg i Hi) as [Hf Hg].
      destruct (muldbladd3_spec w Hw t (f i) (g i) Lt Hf Hg) as [L E].
      split; [exact L|]. rewrite E, Et, sum_range_snoc by lia.
      rewrite Z.add_mod_idemp_l by (pose proof (B_gt_1 w Hw); nia).
      f_equal. ring.
  - rewrite for_loop_done by lia. split; [assumption|].
    rewrite sum_range_empty, Z.mul_0_r, Z.add_0_r by lia.
    symmetry. apply Z.mod_small. now apply val3_range.
Qed.

End Evaluation.

(** ** The columns of a product *)

Section Columns.

Variable w : Z.
Hypothesis Hw : 0 < w.

Local Abbreviation B := (2 ^ w).

Lemma at_nil i : at_ [] i = 0.
Proof. unfold at_. destruct i; reflexivity. Qed.

Lemma at_beyond l i : (length l <= i)%nat -> at_ l i = 0.
Proof. intros. unfold at_. now apply nth_overflow. Qed.

Lemma column_nil b k : column [] b k = 0.
Proof. unfold column. apply sum_to_zero. intros. rewrite at_nil. ring. Qed.

Lemma column_cons_0 x a b : column (x :: a) b 0 = x * at_ b 0.
Proof. unfold column. simpl. unfold at_ at 1. simpl. ring. Qed.

Lemma column_cons_S x a b k :
  column (x :: a) b (S k) = x * at_ b (S k) + column a b k.
Proof.
  unfold column. rewrite sum_to_shift. f_equal.
Qed.

Lemma eval_sum l :
  forall M, (length l <= M)%nat ->
  eval w l = sum_to M (fun k => at_ l k * B ^ Z.of_nat k).
Proof.
  induction l as [|x t IH]; intros M HM.
  - simpl. symmetry. apply sum_to_zero. intros. rewrite at_nil. ring.
  - destruct M as [|M]; [simpl in HM; lia|].
    rewrite sum_to_shift. cbn [eval]. unfold at_ at 1. cbn [nth].
    change (Z.of_nat 0) with 0. rewrite Z.pow_0_r.
    rewrite (IH M) by (simpl in HM; lia).
    rewrite <- sum_to_scale. rewrite Z.mul_1_r. f_equal.
    apply sum_to_ext. intros i _.
    rewrite Nat2Z.inj_succ, Z.pow_succ_r by lia.
    unfold at_. cbn [nth]. ring.
Qed.

(** The columns of the schoolbook product add up to the product. *)
Lemma product_columns a :
  forall b M, (length a + length b <= S M)%nat ->
  sum_to M (fun k => column a b k * B ^ Z.of_nat k) = eval w a * eval w b.
Proof.
  induction a as [|x a IH]; intros b M HM.
  - cbn [eval]. rewrite Z.mul_0_l. apply sum_to_zero. intros.
    rewrite column_nil. ring.
  - destruct M as [|M].
    + simpl in HM. assert (length b = O) by lia.
      destruct b; [|discriminate]. simpl. ring.
    + rewrite sum_to_shift. rewrite column_cons_0.
      change (Z.of_nat 0) with 0. rewrite Z.pow_0_r.
      rewrite (sum_to_ext M _ (fun k => x * (at_ b (S k) * B ^ Z.of_nat (S k))
                                       + B * (column a b k * B ^ Z.of_nat k))).
      2:{ intros k _. rewrite column_cons_S.
          rewrite Nat2Z.inj_succ, Z.pow_succ_r by lia. ring. }
      rewrite sum_to_add, !sum_to_scale.
      rewrite (IH b M) by (simpl in HM; lia).
      cbn [eval].
      rewrite (eval_sum b (S M)) by (simpl in HM; lia).
      rewrite (sum_to_shift M (fun k => at_ b k * B ^ Z.of_nat k)).
      change (Z.of_nat 0) with 0. rewrite Z.pow_0_r. ring.
Qed.

(** The sum that the code accumulates for the low part of column [j]. *)
Lemma column_low a b j :
  sum_range 0 (j + 1) (fun i => at_ a i * at_ b (j - i)) = column a b j.
Proof. rewrite sum_range_from_0. replace (j + 1)%nat with (S j) by lia. reflexivity. Qed.

(** The sum that the code accumulates for column [N + j]. *)
Lemma column_high N a b j :
  length a = N -> length b = N -> (j < N)%nat ->
  sum_range (1 + j) N (fun i => at_ a i * at_ b (N + j - i)) = column a b (N + j).
Proof.
  intros La Lb Hj. unfold column, sum_range.
  set (n := (N - (1 + j))%nat). set (m := S j).
  replace (S (N + j)) with (m + (n + m))%nat by lia.
  rewrite (sum_to_app m (n + m)), (sum_to_app n m).
  rewrite (sum_to_zero m).
  2:{ intros i Hi. rewrite (at_beyond b) by lia. ring. }
  rewrite (sum_to_zero m).
  2:{ intros i Hi. rewrite (at_beyond a) by lia. ring. }
  rewrite Z.add_0_l, Z.add_0_r.
  apply sum_to_ext. intros i Hi. subst m. do 2 f_equal.
Qed.

Lemma column_nonneg a b k :
  forallb (is_limb w) a = true -> forallb (is_limb w) b = true ->
  0 <= column a b k.
Proof.
  intros Ha Hb. unfold column.
  pose proof (sum_to_bounds (S k) (fun i => at_ a i * at_ b (k - i)) 0
                ((B - 1) * (B - 1))) as H.
  rewrite Z.mul_0_r in H. apply H. intros i _.
  apply (prod_bound w Hw); now apply (at_limb w Hw).
Qed.

Lemma column_low_bound a b k :
  forallb (is_limb w) a = true -> forallb (is_limb w) b = true ->
  column a b k <= Z.of_nat (S k) * ((B - 1) * (B - 1)).
Proof.
  intros Ha Hb. unfold column.
  apply (sum_to_bounds (S k) (fun i => at_ a i * at_ b (k - i)) 0).
  intros i _. apply (prod_bound w Hw); now apply (at_limb w Hw).
Qed.

Lemma column_high_bound N a b j :
  length a = N -> length b = N -> (j < N)%nat ->
  forallb (is_limb w) a = true -> forallb (is_limb w) b = true ->
  column a b (N + j) <= (Z.of_nat N - 1) * ((B - 1) * (B - 1)).
Proof.
  intros La Lb Hj Ha Hb. rewrite <- (column_high N a b j La Lb Hj).
  unfold sum_range.
  pose proof (sum_to_bounds (N - (1 + j))
                (fun i => at_ a (1 + j + i) * at_ b (N + j - (1 + j + i))) 0
                ((B - 1) * (B - 1))) as H.
  assert (Hp : forall i, (i < N - (1 + j))%nat ->
               0 <= at_ a (1 + j + i) * at_ b (N + j - (1 + j + i))
               <= (B - 1) * (B - 1)).
  { intros i _. apply (prod_bound w Hw); now apply (at_limb w Hw). }
  specialize (H Hp). pose proof (B_gt_1 w Hw).
  assert (Z.of_nat (N - (1 + j)) <= Z.of_nat N - 1) by lia.
  assert (0 <= (B - 1) * (B - 1)) by nia.
  eapply Z.le_trans; [apply H|].
  apply Z.mul_le_mono_nonneg_r; lia.
Qed.

End Columns.

(** ** One round of [Multiply] and of [Square] *)

Lemma land_1_odd n : negb (Nat.land n 1 =? 0)%nat = Nat.odd n.
Proof.
  change 1%nat with (Nat.ones 1). rewrite Nat.land_ones.
  rewrite <- Nat.bit0_odd, Nat.bit0_eqb. change (2 ^ 1)%nat with 2%nat.
  pose proof (Nat.mod_upper_bound n 2 ltac:(lia)).
  destruct (n mod 2)%nat as [|[|k]]; try reflexivity; lia.
Qed.

Lemma odd_complement N j :
  Nat.even N = true -> (j + 1 <= N)%nat -> Nat.odd (N - (1 + j)) = Nat.odd (j + 1).
Proof.
  intros HN Hj. rewrite Nat.odd_sub by lia.
  rewrite <- (Nat.negb_even N), HN. replace (1 + j)%nat with (j + 1)%nat by lia.
  simpl. reflexivity.
Qed.

Lemma mod_add_twice M x s p :
  M <> 0 -> ((x mod M + s) mod M + p) mod M = (x + (s + p)) mod M.
Proof.
  intros HM. rewrite Z.add_mod_idemp_l by assumption.
  rewrite <- Z.add_assoc. apply Z.add_mod_idemp_l. assumption.
Qed.

Section Steps.

Variable w : Z.
Variable N : nat.
Hypothesis Hw : 0 < w.
Hypothesis HC : 0 <= MAX_PRIME_DIFF < 2 ^ w.

Local Abbreviation B := (2 ^ w).
Local Abbreviation C := MAX_PRIME_DIFF.

Lemma limb_C : limb w C = C.
Proof. apply limb_small; assumption. Qed.

Lemma Multiply_step_mod a b j c0 c1 tmp :
  length a = N -> length b = N ->
  forallb (is_limb w) a = true -> forallb (is_limb w) b = true ->
  (j + 1 < N)%nat -> 0 <= c0 < B -> 0 <= c1 < B ->
  exists r0 r1 r2,
    is_limb3 w (r0, r1, r2) = true /\
    val3 w (r0, r1, r2) = round_value w N a b j c0 c1 /\
    Multiply_step w N a b j (c0, c1, tmp) = (r1, r2, set_at tmp j r0).
Proof.
  intros La Lb Ha Hb Hj H0 H1. pose proof (B_gt_1 w Hw) as HB.
  assert (HB3 : B * B * B <> 0) by nia.
  unfold Multiply_step. rewrite limb_C.
  pose proof (at_limb w Hw a (1 + j) Ha) as Hx.
  pose proof (at_limb w Hw b (N + j - (1 + j)) Hb) as Hy.
  rewrite (mul_spec w Hw _ _ Hx Hy).
  destruct (prod_split w Hw _ _ Hx Hy) as (Hl & Hh & E).
  set (f := fun i : nat => at_ a i * at_ b (N + j - i)).
  destruct (muladd3_loop w Hw (2 + j) N (fun i => at_ a i) (fun i => at_ b (N + j - i))
              ((at_ a (1 + j) * at_ b (N + j - (1 + j))) mod B,
               at_ a (1 + j) * at_ b (N + j - (1 + j)) / B, 0))
    as [Ld Ed].
  { apply limb3_iff. lia. }
  { intros i _. split; now apply at_limb. }
  set (d := for_loop (2 + j) N _ _) in *.
  assert (Ed' : val3 w d = column a b (N + j) mod (B * B * B)).
  { rewrite Ed. f_equal. rewrite <- (column_high N a b j La Lb ltac:(lia)).
    rewrite (sum_range_first (1 + j) N) by lia.
    unfold val3. change (S (1 + j)) with (2 + j)%nat. lia. }
  destruct (mulnadd3_spec w Hw c0 c1 0 d C H0 H1 Ld HC) as [Lc Ec].
  set (c := mulnadd3 w (c0, c1, 0) d C) in *.
  destruct (muladd3_loop w Hw 0 (j + 1) (fun i => at_ a i) (fun i => at_ b (j - i)) c Lc)
    as [Lr Er].
  { intros i _. split; now apply at_limb. }
  set (r := for_loop 0 (j + 1) _ c) in *.
  destruct r as [[r0 r1] r2]. exists r0, r1, r2.
  split; [exact Lr|]. split; [|reflexivity].
  rewrite Er, Ec, Ed', column_low. unfold round_value.
  apply Z.add_mod_idemp_l. assumption.
Qed.

Lemma Multiply_last_mod a b c0 c1 tmp :
  forallb (is_limb w) a = true -> forallb (is_limb w) b = true ->
  (1 <= N)%nat -> 0 <= c0 < B -> 0 <= c1 < B ->
  exists r0 r1 r2,
    is_limb3 w (r0, r1, r2) = true /\
    val3 w (r0, r1, r2) = last_value w N a b c0 c1 /\
    Multiply_last w N a b (c0, c1, tmp) = (r1, r2, set_at tmp (N - 1) r0).
Proof.
  intros Ha Hb HN H0 H1. pose proof (B_gt_1 w Hw) as HB.
  unfold Multiply_last.
  destruct (muladd3_loop w Hw 0 N (fun i => at_ a i) (fun i => at_ b (N - 1 - i))
              (c0, c1, 0)) as [Lr Er].
  { apply limb3_iff. lia. }
  { intros i _. split; now apply at_limb. }
  set (r := for_loop 0 N _ _) in *.
  destruct r as [[r0 r1] r2]. exists r0, r1, r2.
  split; [exact Lr|]. split; [|reflexivity].
  rewrite Er. unfold last_value. f_equal. unfold val3.
  rewrite <- (column_low a b (N - 1)).
  replace (N - 1 + 1)%nat with N by lia. ring.
Qed.

(** *** Squaring: the doubled cross terms *)

Hypothesis HN : Nat.even N = true.

Lemma square_high_sum a j :
  (j + 1 < N)%nat ->
  2 * sum_range 0 ((N - 1 - j) / 2)
        (fun i => at_ a (i + j + 1) * at_ a (N - 1 - i))
  + (if Nat.odd (j + 1)
     then at_ a ((N - 1 - j) / 2 + j + 1) * at_ a (N - 1 - (N - 1 - j) / 2)
     else 0)
  = sum_range (1 + j) N (fun i => at_ a i * at_ a (N + j - i)).
Proof.
  intros Hj. unfold sum_range at 2.
  set (n := (N - (1 + j))%nat).
  rewrite (sum_to_symmetric n).
  2:{ intros t Ht. rewrite Z.mul_comm. f_equal; f_equal; lia. }
  rewrite sum_range_from_0.
  replace (N - 1 - j)%nat with n by lia.
  rewrite <- (odd_complement N j HN ltac:(lia)). fold n.
  assert (Hh : (n / 2 <= n)%nat) by (apply Nat.Div0.div_le_upper_bound; lia).
  f_equal.
  - f_equal. apply sum_to_ext. intros i Hi.
    assert (i < n)%nat.
    { assert (2 * (n / 2) <= n)%nat by (apply Nat.Div0.mul_div_le). lia. }
    f_equal; f_equal; lia.
  - destruct (Nat.odd n) eqn:Ho; [|reflexivity].
    assert (n / 2 < n)%nat.
    { destruct n as [|n']; [discriminate|]. apply Nat.div_lt; lia. }
    f_equal; f_equal; lia.
Qed.

Lemma square_low_sum a j :
  2 * sum_range 0 ((j + 1) / 2) (fun i => at_ a i * at_ a (j - i))
  + (if Nat.odd (j + 1) then at_ a ((j + 1) / 2) * at_ a (j - (j + 1) / 2) else 0)
  = column a a j.
Proof.
  unfold column. replace (S j) with (j + 1)%nat by lia.
  rewrite (sum_to_symmetric (j + 1)).
  2:{ intros t Ht. rewrite Z.mul_comm. f_equal; f_equal; lia. }
  rewrite sum_range_from_0. reflexivity.
Qed.

Lemma square_last_sum a :
  2 * sum_range 0 (N / 2) (fun i => at_ a i * at_ a (N - 1 - i))
  = sum_range 0 N (fun i => at_ a i * at_ a (N - 1 - i)).
Proof.
  rewrite !sum_range_from_0. rewrite (sum_to_symmetric N).
  2:{ intros t Ht. rewrite Z.mul_comm. f_equal; f_equal; lia. }
  rewrite <- Nat.negb_even, HN. simpl. ring.
Qed.

Lemma Square_step_mod a j c0 c1 tmp :
  length a = N -> forallb (is_limb w) a = true ->
  (j + 1 < N)%nat -> 0 <= c0 < B -> 0 <= c1 < B ->
  exists r0 r1 r2,
    is_limb3 w (r0, r1, r2) = true /\
    val3 w (r0, r1, r2) = round_value w N a a j c0 c1 /\
    Square_step w N a j (c0, c1, tmp) = (r1, r2, set_at tmp j r0).
Proof.
  intros La Ha Hj H0 H1. pose proof (B_gt_1 w Hw) as HB.
  assert (HB3 : B * B * B <> 0) by nia.
  unfold Square_step. rewrite limb_C, !land_1_odd.
  destruct (muldbladd3_loop w Hw 0 ((N - 1 - j) / 2)
              (fun i => at_ a (i + j + 1)) (fun i => at_ a (N - 1 - i)) (0, 0, 0))
    as [Ld0 Ed0].
  { apply limb3_iff. lia. }
  { intros i _. split; now apply at_limb. }
  set (d0 := for_loop 0 ((N - 1 - j) / 2) _ (0, 0, 0)) in *.
  set (mx := at_ a ((N - 1 - j) / 2 + j + 1)).
  set (my := at_ a (N - 1 - (N - 1 - j) / 2)).
  assert (Hmx : 0 <= mx < B) by now apply at_limb.
  assert (Hmy : 0 <= my < B) by now apply at_limb.
  set (d := if Nat.odd (j + 1) then muladd3 w d0 mx my else d0).
  assert (Hd : is_limb3 w d = true /\
               val3 w d = column a a (N + j) mod (B * B * B)).
  { rewrite <- (column_high N a a j La La ltac:(lia)).
    rewrite <- (square_high_sum a j Hj). fold mx my.
    subst d. destruct (Nat.odd (j + 1)).
    - destruct (muladd3_spec w Hw d0 mx my Ld0 Hmx Hmy) as [L E].
      split; [exact L|]. rewrite E, Ed0.
      rewrite Z.add_mod_idemp_l by assumption. f_equal. unfold val3. ring.
    - split; [exact Ld0|]. rewrite Ed0. f_equal. unfold val3. ring. }
  destruct Hd as [Ld Ed].
  destruct (mulnadd3_spec w Hw c0 c1 0 d C H0 H1 Ld HC) as [Lc Ec].
  set (c := mulnadd3 w (c0, c1, 0) d C) in *.
  destruct (muldbladd3_loop w Hw 0 ((j + 1) / 2)
              (fun i => at_ a i) (fun i => at_ a (j - i)) c Lc)
    as [Le Ee].
  { intros i _. split; now apply at_limb. }
  set (e := for_loop 0 ((j + 1) / 2) _ c) in *.
  set (nx := at_ a ((j + 1) / 2)).
  set (ny := at_ a (j - (j + 1) / 2)).
  assert (Hnx : 0 <= nx < B) by now apply at_limb.
  assert (Hny : 0 <= ny < B) by now apply at_limb.
  set (r := if Nat.odd (j + 1) then muladd3 w e nx ny else e).
  assert (Hr : is_limb3 w r = true /\ val3 w r = round_value w N a a j c0 c1).
  { unfold round_value. rewrite <- (square_low_sum a j). fold nx ny.
    subst r. destruct (Nat.odd (j + 1)).
    - destruct (muladd3_spec w Hw e nx ny Le Hnx Hny) as [L E].
      split; [exact L|]. rewrite E, Ee, Ec, Ed.
      apply mod_add_twice. assumption.
    - split; [exact Le|]. rewrite Ee, Ec, Ed.
      rewrite Z.add_0_r. apply Z.add_mod_idemp_l. assumption. }
  destruct Hr as [Lr Er]. destruct r as [[r0 r1] r2]. exists r0, r1, r2.
  split; [exact Lr|]. split; [exact Er | reflexivity].
Qed.

Lemma Square_last_mod a c0 c1 tmp :
  forallb (is_limb w) a = true ->
  (1 <= N)%nat -> 0 <= c0 < B -> 0 <= c1 < B ->
  exists r0 r1 r2,
    is_limb3 w (r0, r1, r2) = true /\
    val3 w (r0, r1, r2) = last_value w N a a c0 c1 /\
    Square_last w N a (c0, c1, tmp) = (r1, r2, set_at tmp (N - 1) r0).
Proof.
  intros Ha HN1 H0 H1. pose proof (B_gt_1 w Hw) as HB.
  unfold Square_last.
  destruct (muldbladd3_loop w Hw 0 (N / 2) (fun i => at_ a i) (fun i => at_ a (N - 1 - i))
              (c0, c1, 0)) as [Lr Er].
  { apply limb3_iff. lia. }
  { intros i _. split; now apply at_limb. }
  set (r := for_loop 0 (N / 2) _ _) in *.
  destruct r as [[r0 r1] r2]. exists r0, r1, r2.
  split; [exact Lr|]. split; [|reflexivity].
  rewrite Er. unfold last_value. f_equal. unfold val3.
  rewrite square_last_sum. rewrite <- (column_low a a (N - 1)).
  replace (N - 1 + 1)%nat with N by lia. ring.
Qed.

End Steps.

(** ** [Square] and [Multiply] *)

Section SquareIsMultiply.

Variable w : Z.
Variable N : nat.
Hypothesis Hw : 0 < w.
Hypothesis HC : 0 <= MAX_PRIME_DIFF < 2 ^ w.
Hypothesis HN : Nat.even N = true.
Hypothesis HN1 : (1 <= N)%nat.

Local Abbreviation B := (2 ^ w).

Lemma Multiply_step_carry a b j st :
  length a = N -> length b = N ->
  forallb (is_limb w) a = true -> forallb (is_limb w) b = true ->
  (j + 1 < N)%nat -> carry_ok w st -> carry_ok w (Multiply_step w N a b j st).
Proof.
  intros La Lb Ha Hb Hj Hst. destruct st as [[c0 c1] tmp]. destruct Hst as [H0 H1].
  destruct (Multiply_step_mod w N Hw HC a b j c0 c1 tmp La Lb Ha Hb Hj H0 H1)
    as (r0 & r1 & r2 & L & _ & E).
  rewrite E. apply limb3_iff in L. unfold carry_ok. tauto.
Qed.

Lemma Square_step_Multiply_step a j st :
  length a = N -> forallb (is_limb w) a = true ->
  (j + 1 < N)%nat -> carry_ok w st ->
  Square_step w N a j st = Multiply_step w N a a j st.
Proof.
  intros La Ha Hj Hst. destruct st as [[c0 c1] tmp]. destruct Hst as [H0 H1].
  destruct (Multiply_step_mod w N Hw HC a a j c0 c1 tmp La La Ha Ha Hj H0 H1)
    as (r0 & r1 & r2 & L & V & E).
  destruct (Square_step_mod w N Hw HC HN a j c0 c1 tmp La Ha Hj H0 H1)
    as (s0 & s1 & s2 & L' & V' & E').
  rewrite E, E'.
  assert (X : (s0, s1, s2) = (r0, r1, r2)).
  { apply (val3_inj w Hw); try assumption. congruence. }
  congruence.
Qed.

Lemma Square_last_Multiply_last a st :
  forallb (is_limb w) a = true -> carry_ok w st ->
  Square_last w N a st = Multiply_last w N a a st.
Proof.
  intros Ha Hst. destruct st as [[c0 c1] tmp]. destruct Hst as [H0 H1].
  destruct (Multiply_last_mod w N Hw a a c0 c1 tmp Ha Ha HN1 H0 H1)
    as (r0 & r1 & r2 & L & V & E).
  destruct (Square_last_mod w N Hw HN a c0 c1 tmp Ha HN1 H0 H1)
    as (s0 & s1 & s2 & L' & V' & E').
  rewrite E, E'.
  assert (X : (s0, s1, s2) = (r0, r1, r2)).
  { apply (val3_inj w Hw); try assumption. congruence. }
  congruence.
Qed.

Lemma Square_product_Multiply_product a :
  length a = N -> forallb (is_limb w) a = true ->
  Square_product w N a = Multiply_product w N a a.
Proof.
  intros La Ha. pose proof (B_gt_1 w Hw) as HB.
  unfold Square_product, Multiply_product.
  destruct (for_loop_agree (carry_ok w) 0 (N - 1) (Square_step w N a)
              (Multiply_step w N a a) (0, 0, uninitialised N)) as [E I].
  { unfold carry_ok. lia. }
  { intros i t Hi Ht. split.
    - apply Square_step_Multiply_step; try assumption. lia.
    - apply Multiply_step_carry; try assumption. lia. }
  rewrite E. apply Square_last_Multiply_last; assumption.
Qed.

(** [Square] computes what [Multiply] computes on two equal operands. *)
Lemma Square_Multiply a :
  length a = N -> forallb (is_limb w) a = true ->
  Square w N a = Multiply w N a a.
Proof.
  intros La Ha. unfold Square, Multiply, Square_residual, Multiply_residual.
  now rewrite Square_product_Multiply_product.
Qed.

End SquareIsMultiply.

(** ** The first pass without wrap-around *)

Lemma all_limbs_set_at w l i v :
  forallb (is_limb w) l = true -> is_limb w v = true ->
  forallb (is_limb w) (set_at l i v) = true.
Proof.
  revert i; induction l as [|h t IH]; intros [|i] Hl Hv; simpl in *; try reflexivity.
  - apply andb_true_iff in Hl. destruct Hl as [_ Ht]. now rewrite Hv, Ht.
  - apply andb_true_iff in Hl. destruct Hl as [Hh Ht]. rewrite Hh. simpl. now apply IH.
Qed.

Lemma all_limbs_repeat_0 w n : 0 < w -> forallb (is_limb w) (repeat 0 n) = true.
Proof.
  intros Hw. induction n as [|n IH]; simpl; [reflexivity|]. rewrite IH, andb_true_r.
  apply is_limb_iff. pose proof (B_gt_1 w Hw). lia.
Qed.

Lemma length_firstn_le {A : Type} (l : list A) j :
  (j <= length l)%nat -> length (firstn j l) = j.
Proof. intros. rewrite length_firstn. lia. Qed.

Section FirstPass.

Variable w : Z.
Variable N : nat.
Hypothesis Hok : config_ok w N = true.

Local Abbreviation B := (2 ^ w).
Local Abbreviation C := MAX_PRIME_DIFF.
Local Abbreviation K := ((MAX_PRIME_DIFF + 1) * Z.of_nat N).

Lemma ok_w : 0 < w.
Proof.
  unfold config_ok in Hok. rewrite !andb_true_iff in Hok.
  destruct Hok as [[[[H _] _] _] _]. now apply Z.ltb_lt.
Qed.

Lemma ok_N : (2 <= N)%nat.
Proof.
  unfold config_ok in Hok. rewrite !andb_true_iff in Hok.
  destruct Hok as [[[[_ H] _] _] _]. now apply Nat.leb_le.
Qed.

Lemma ok_even : Nat.even N = true.
Proof.
  unfold config_ok in Hok. rewrite !andb_true_iff in Hok.
  destruct Hok as [[[_ H] _] _]. exact H.
Qed.

Lemma ok_K : K < B.
Proof.
  unfold config_ok in Hok. rewrite !andb_true_iff in Hok.
  destruct Hok as [[_ H] _]. now apply Z.ltb_lt.
Qed.

Lemma ok_X : C * (Z.of_nat N * B + C) <= B * B - B.
Proof.
  unfold config_ok in Hok. rewrite !andb_true_iff in Hok.
  destruct Hok as [_ H]. now apply Z.leb_le.
Qed.

Lemma C_pos : 0 < C.
Proof. reflexivity. Qed.

Lemma ok_C : 0 <= C < B.
Proof.
  pose proof ok_K as HK. pose proof ok_N as HN. pose proof C_pos as HC.
  assert (C + 1 <= K); [|lia].
  replace (C + 1) with ((C + 1) * 1) at 1 by ring.
  apply Z.mul_le_mono_nonneg_l; lia.
Qed.

(** One round of the first loop, without wrap-around. *)
Lemma Multiply_step_exact a b j c0 c1 tmp :
  length a = N -> length b = N ->
  forallb (is_limb w) a = true -> forallb (is_limb w) b = true ->
  (j + 1 < N)%nat -> 0 <= c0 < B -> 0 <= c1 < B -> c0 + B * c1 <= K * B ->
  exists r0 r1 r2,
    (0 <= r0 < B /\ 0 <= r1 < B /\ 0 <= r2 < B) /\
    r0 + B * (r1 + B * r2) = c0 + B * c1 + column a b j + C * column a b (N + j) /\
    r1 + B * r2 <= K * B /\
    Multiply_step w N a b j (c0, c1, tmp) = (r1, r2, set_at tmp j r0).
Proof.
  intros La Lb Ha Hb Hj H0 H1 Hc.
  pose proof ok_w as Hw. pose proof ok_C as HC. pose proof ok_K as HK.
  pose proof (B_gt_1 w Hw) as HB. pose proof C_pos as HCp.
  destruct (Multiply_step_mod w N Hw HC a b j c0 c1 tmp La Lb Ha Hb Hj H0 H1)
    as (r0 & r1 & r2 & L & V & E).
  exists r0, r1, r2. apply limb3_iff in L.
  pose proof (column_nonneg w Hw a b (N + j) Ha Hb) as Hh0.
  pose proof (column_high_bound w Hw N a b j La Lb ltac:(lia) Ha Hb) as Hh1.
  pose proof (column_nonneg w Hw a b j Ha Hb) as Hl0.
  pose proof (column_low_bound w Hw a b j Ha Hb) as Hl1.
  set (hi := column a b (N + j)) in *. set (lo := column a b j) in *.
  assert (Hlo : lo <= Z.of_nat N * ((B - 1) * (B - 1))).
  { eapply Z.le_trans; [apply Hl1|]. apply Z.mul_le_mono_nonneg_r; [|lia].
    apply Z.mul_nonneg_nonneg; lia. }
  assert (Hc0 : 0 <= c0 + B * c1).
  { assert (0 <= B * c1) by (apply Z.mul_nonneg_nonneg; lia). lia. }
  destruct (round_bound B C (Z.of_nat N) (c0 + B * c1) hi lo)
    as (Hhi3 & HA & HK3); try lia.
  unfold round_value in V. fold hi lo in V.
  rewrite (Z.mod_small hi) in V by lia.
  rewrite Z.mod_small in V by lia.
  unfold val3 in V.
  split; [exact L|]. split; [lia|]. split; [|exact E].
  apply (div_bound B K (r1 + B * r2) r0); lia.
Qed.

Lemma Multiply_last_exact a b c0 c1 tmp :
  forallb (is_limb w) a = true -> forallb (is_limb w) b = true ->
  0 <= c0 < B -> 0 <= c1 < B -> c0 + B * c1 <= K * B ->
  exists r0 r1 r2,
    (0 <= r0 < B /\ 0 <= r1 < B /\ 0 <= r2 < B) /\
    r0 + B * (r1 + B * r2) = c0 + B * c1 + column a b (N - 1) /\
    Multiply_last w N a b (c0, c1, tmp) = (r1, r2, set_at tmp (N - 1) r0).
Proof.
  intros Ha Hb H0 H1 Hc.
  pose proof ok_w as Hw. pose proof ok_C as HC. pose proof ok_K as HK.
  pose proof ok_N as HN.
  pose proof (B_gt_1 w Hw) as HB. pose proof C_pos as HCp.
  destruct (Multiply_last_mod w N Hw a b c0 c1 tmp Ha Hb ltac:(lia) H0 H1)
    as (r0 & r1 & r2 & L & V & E).
  exists r0, r1, r2. apply limb3_iff in L.
  pose proof (column_nonneg w Hw a b (N - 1) Ha Hb) as Hl0.
  pose proof (column_low_bound w Hw a b (N - 1) Ha Hb) as Hl1.
  replace (S (N - 1)) with N in Hl1 by lia.
  set (lo := column a b (N - 1)) in *.
  assert (Hc0 : 0 <= c0 + B * c1).
  { assert (0 <= B * c1) by (apply Z.mul_nonneg_nonneg; lia). lia. }
  destruct (round_bound B C (Z.of_nat N) (c0 + B * c1) 0 lo)
    as (_ & HA & HK3); try lia.
  { split; [lia|]. apply Z.mul_nonneg_nonneg; [lia|].
    apply Z.mul_nonneg_nonneg; lia. }
  unfold last_value in V. fold lo in V.
  rewrite Z.mod_small in V by lia.
  unfold val3 in V.
  split; [exact L|]. split; [lia | exact E].
Qed.

End FirstPass.

Lemma sum_to_nonneg n f :
  (forall i, (i < n)%nat -> 0 <= f i) -> 0 <= sum_to n f.
Proof.
  induction n as [|n IH]; intros H; simpl; [lia|].
  specialize (IH ltac:(intros; apply H; lia)). specialize (H n ltac:(lia)). lia.
Qed.

Lemma sum_to_le n f g :
  (forall i, (i < n)%nat -> f i <= g i) -> sum_to n f <= sum_to n g.
Proof.
  induction n as [|n IH]; intros H; simpl; [lia|].
  specialize (IH ltac:(intros; apply H; lia)). specialize (H n ltac:(lia)). lia.
Qed.

(** The geometric sum. *)
Lemma sum_to_geometric B n :
  (B - 1) * sum_to n (fun k => B ^ Z.of_nat k) = B ^ Z.of_nat n - 1.
Proof.
  induction n as [|n IH].
  - simpl. ring.
  - change (sum_to (S n) (fun k => B ^ Z.of_nat k))
      with (sum_to n (fun k => B ^ Z.of_nat k) + B ^ Z.of_nat n).
    rewrite Z.mul_add_distr_l, IH, Nat2Z.inj_succ, Z.pow_succ_r by lia. ring.
Qed.

Section FirstPassInvariant.

Variable w : Z.
Variable N : nat.
Hypothesis Hok : config_ok w N = true.

Local Abbreviation B := (2 ^ w).
Local Abbreviation C := MAX_PRIME_DIFF.
Local Abbreviation K := ((MAX_PRIME_DIFF + 1) * Z.of_nat N).

Variables a b : list Z.
Hypothesis La : length a = N.
Hypothesis Lb : length b = N.
Hypothesis Ha : forallb (is_limb w) a = true.
Hypothesis Hb : forallb (is_limb w) b = true.

Lemma first_pass_init : first_pass_inv w N a b 0 (0, 0, uninitialised N).
Proof.
  pose proof (ok_w w N Hok) as Hw. pose proof (B_gt_1 w Hw) as HB.
  pose proof (ok_N w N Hok) as HN.
  unfold first_pass_inv, uninitialised.
  split; [lia|]. split; [lia|].
  split.
  { rewrite Z.mul_0_r, Z.add_0_r. pose proof C_pos.
    repeat apply Z.mul_nonneg_nonneg; lia. }
  split; [apply repeat_length|].
  split; [now apply all_limbs_repeat_0|].
  unfold folded. cbn [firstn eval sum_to]. rewrite !Z.mul_0_r. reflexivity.
Qed.

Lemma first_pass_step j st :
  (j + 1 < N)%nat -> first_pass_inv w N a b j st ->
  first_pass_inv w N a b (S j) (Multiply_step w N a b j st).
Proof.
  pose proof (ok_w w N Hok) as Hw. pose proof (B_gt_1 w Hw) as HB.
  intros Hj Hst. destruct st as [[c0 c1] tmp].
  destruct Hst as (H0 & H1 & Hc & Lt & At & E).
  destruct (Multiply_step_exact w N Hok a b j c0 c1 tmp La Lb Ha Hb Hj H0 H1 Hc)
    as (r0 & r1 & r2 & (R0 & R1 & R2) & V & Hr & Es).
  rewrite Es. unfold first_pass_inv.
  split; [exact R1|]. split; [exact R2|]. split; [exact Hr|].
  split; [now rewrite length_set_at|].
  split; [apply all_limbs_set_at; [assumption | apply is_limb_iff; lia]|].
  rewrite firstn_set_at_next by lia. rewrite eval_snoc by assumption.
  rewrite length_firstn_le by lia.
  unfold folded. change (sum_to (S j) ?f) with (sum_to j f + f j).
  cbv beta. fold (folded w N a b j). rewrite <- E.
  rewrite Nat2Z.inj_succ, Z.pow_succ_r by lia.
  replace (column a b j + C * column a b (N + j))
    with (r0 + B * (r1 + B * r2) - (c0 + B * c1)) by lia.
  ring.
Qed.

Lemma folded_last :
  folded w N a b (N - 1) + column a b (N - 1) * B ^ Z.of_nat (N - 1)
  = low_part w N a b + C * high_part w N a b.
Proof.
  pose proof (ok_N w N Hok) as HN.
  assert (EL : low_part w N a b
               = sum_to (N - 1) (fun k => column a b k * B ^ Z.of_nat k)
                 + column a b (N - 1) * B ^ Z.of_nat (N - 1)).
  { unfold low_part. replace N with (S (N - 1)) at 1 by lia. reflexivity. }
  rewrite EL. unfold folded, high_part.
  rewrite (sum_to_ext (N - 1) _
             (fun k => column a b k * B ^ Z.of_nat k
                       + C * (column a b (N + k) * B ^ Z.of_nat k))).
  2:{ intros i _. ring. }
  rewrite sum_to_add, sum_to_scale. ring.
Qed.

(** The first two blocks of [Multiply] leave in [tmp] and [c0,c1] the
    product with its high part folded once: nothing wrapped around. *)
Lemma Multiply_product_spec :
  exists c0 c1 tmp,
    Multiply_product w N a b = (c0, c1, tmp) /\
    0 <= c0 < B /\ 0 <= c1 < B /\
    length tmp = N /\ forallb (is_limb w) tmp = true /\
    eval w tmp + B ^ Z.of_nat N * (c0 + B * c1)
    = low_part w N a b + C * high_part w N a b.
Proof.
  pose proof (ok_w w N Hok) as Hw. pose proof (B_gt_1 w Hw) as HB.
  pose proof (ok_N w N Hok) as HN.
  unfold Multiply_product.
  pose proof (for_loop_inv (first_pass_inv w N a b) 0 (N - 1) (Multiply_step w N a b)
                (0, 0, uninitialised N) ltac:(lia) first_pass_init) as Hloop.
  specialize (Hloop ltac:(intros i t Hi; apply first_pass_step; lia)).
  destruct (for_loop 0 (N - 1) (Multiply_step w N a b) (0, 0, uninitialised N))
    as [[c0 c1] tmp].
  destruct Hloop as (H0 & H1 & Hc & Lt & At & E).
  destruct (Multiply_last_exact w N Hok a b c0 c1 tmp Ha Hb H0 H1 Hc)
    as (r0 & r1 & r2 & (R0 & R1 & R2) & V & Es).
  exists r1, r2, (set_at tmp (N - 1) r0).
  split; [exact Es|]. split; [exact R1|]. split; [exact R2|].
  split; [now rewrite length_set_at|].
  split; [apply all_limbs_set_at; [assumption | apply is_limb_iff; lia]|].
  rewrite <- folded_last, <- E.
  rewrite <- (firstn_all (set_at tmp (N - 1) r0)), length_set_at, Lt.
  replace N with (S (N - 1)) at 1 by lia.
  rewrite firstn_set_at_next by lia. rewrite eval_snoc by assumption.
  rewrite length_firstn_le by lia.
  replace (Z.of_nat N) with (Z.succ (Z.of_nat (N - 1))) by lia.
  rewrite Z.pow_succ_r by lia.
  replace (column a b (N - 1))
    with (r0 + B * (r1 + B * r2) - (c0 + B * c1)) by lia.
  ring.
Qed.

(** The product is its low columns plus [2^3072] times its high ones. *)
Lemma product_parts :
  low_part w N a b + B ^ Z.of_nat N * high_part w N a b = eval w a * eval w b.
Proof.
  pose proof (ok_N w N Hok) as HN.
  rewrite <- (product_columns w a b (N + (N - 1))) by lia.
  rewrite sum_to_app. unfold low_part, high_part. f_equal.
  rewrite <- sum_to_scale. apply sum_to_ext. intros i _.
  rewrite Nat2Z.inj_add, Z.pow_add_r by lia. ring.
Qed.

Lemma high_part_nonneg : 0 <= high_part w N a b.
Proof.
  pose proof (ok_w w N Hok) as Hw. pose proof (B_gt_1 w Hw) as HB.
  unfold high_part. apply sum_to_nonneg. intros i _.
  apply Z.mul_nonneg_nonneg; [now apply (column_nonneg w Hw)|].
  apply Z.pow_nonneg. lia.
Qed.

Lemma low_part_nonneg : 0 <= low_part w N a b.
Proof.
  pose proof (ok_w w N Hok) as Hw. pose proof (B_gt_1 w Hw) as HB.
  unfold low_part. apply sum_to_nonneg. intros i _.
  apply Z.mul_nonneg_nonneg; [now apply (column_nonneg w Hw)|].
  apply Z.pow_nonneg. lia.
Qed.

Lemma low_part_bound :
  low_part w N a b <= Z.of_nat N * (B - 1) * (B ^ Z.of_nat N - 1).
Proof.
  pose proof (ok_w w N Hok) as Hw. pose proof (B_gt_1 w Hw) as HB.
  unfold low_part.
  eapply Z.le_trans.
  - apply (sum_to_le N _ (fun k => Z.of_nat N * (B - 1) * ((B - 1) * B ^ Z.of_nat k))).
    intros i Hi.
    pose proof (column_low_bound w Hw a b i Ha Hb) as H1.
    assert (0 <= B ^ Z.of_nat i) by (apply Z.pow_nonneg; lia).
    assert (0 <= (B - 1) * (B - 1)) by (apply Z.mul_nonneg_nonneg; lia).
    replace (Z.of_nat N * (B - 1) * ((B - 1) * B ^ Z.of_nat i))
      with (Z.of_nat N * ((B - 1) * (B - 1)) * B ^ Z.of_nat i) by ring.
    apply Z.mul_le_mono_nonneg_r; [assumption|].
    eapply Z.le_trans; [apply H1|].
    apply Z.mul_le_mono_nonneg_r; [assumption | lia].
  - rewrite sum_to_scale, sum_to_scale, sum_to_geometric. lia.
Qed.

Lemma high_part_bound : high_part w N a b < B ^ Z.of_nat N.
Proof.
  pose proof (ok_w w N Hok) as Hw. pose proof (B_gt_1 w Hw) as HB.
  pose proof product_parts as E. pose proof low_part_nonneg as HL.
  pose proof high_part_nonneg as HH.
  pose proof (eval_range w Hw a Ha) as Ra. pose proof (eval_range w Hw b Hb) as Rb.
  rewrite La in Ra. rewrite Lb in Rb.
  set (p := B ^ Z.of_nat N) in *.
  assert (Hp : 0 < p) by (subst p; apply Z.pow_pos_nonneg; lia).
  assert (eval w a * eval w b < p * p).
  { apply Z.mul_lt_mono_nonneg; lia. }
  apply Z.mul_lt_mono_pos_l with (p := p); [assumption|]. lia.
Qed.

End FirstPassInvariant.

(** ** The second and third reductions *)

Lemma pow_ge_square B n : 1 < B -> (2 <= n)%nat -> B * B <= B ^ Z.of_nat n.
Proof.
  intros HB Hn. replace (Z.of_nat n) with (2 + Z.of_nat (n - 2)) by lia.
  rewrite Z.pow_add_r by lia. change (B ^ 2) with (Z.pow_pos B 2).
  replace (Z.pow_pos B 2) with (B * B) by (unfold Z.pow_pos; simpl; ring).
  assert (0 < B ^ Z.of_nat (n - 2)) by (apply Z.pow_pos_nonneg; lia).
  replace (B * B) with (B * B * 1) at 1 by ring.
  apply Z.mul_le_mono_nonneg_l; [|lia]. apply Z.mul_nonneg_nonneg; lia.
Qed.

Section Reductions.

Variable w : Z.
Variable N : nat.
Hypothesis Hw : 0 < w.
Hypothesis HN : (2 <= N)%nat.
Hypothesis HC : 0 <= MAX_PRIME_DIFF < 2 ^ w.

Local Abbreviation B := (2 ^ w).
Local Abbreviation C := MAX_PRIME_DIFF.

(** *** The second reduction *)

Section Second.

Variable tmp : Num3072.
Variable X : Z.
Hypothesis Lt : length tmp = N.
Hypothesis At : forallb (is_limb w) tmp = true.

Lemma second_step j st :
  (j < N)%nat -> second_inv w N tmp X j st -> second_inv w N tmp X (S j) (reduce2_step w tmp j st).
Proof.
  pose proof (B_gt_1 w Hw) as HB.
  intros Hj Hst. destruct st as [[e0 e1] out].
  destruct Hst as (H0 & H1 & Hb & _ & Lo & Ao & E).
  unfold reduce2_step.
  pose proof (at_limb w Hw tmp j At) as Hx.
  pose proof (add2_spec w Hw e0 e1 (at_ tmp j) H0 H1 Hx) as Hadd.
  destruct (add2 w (e0, e1) (at_ tmp j)) as [s0 s1].
  destruct Hadd as (S0 & S1 & V).
  assert (HBB : B + B <= B * B).
  { replace (B + B) with (B * 2) by ring. apply Z.mul_le_mono_nonneg_l; lia. }
  rewrite Z.mod_small in V by lia.
  cbn [extract2]. unfold second_inv.
  split; [exact S1|]. split; [lia|]. split; [lia|]. split; [reflexivity|].
  split; [now rewrite length_set_at|].
  split; [apply all_limbs_set_at; [assumption | apply is_limb_iff; lia]|].
  rewrite firstn_set_at_next by lia. rewrite eval_snoc by assumption.
  rewrite length_firstn_le by lia.
  rewrite (firstn_snoc_nth tmp j 0) by lia. rewrite eval_snoc by assumption.
  rewrite length_firstn_le by lia. fold (at_ tmp j).
  rewrite Nat2Z.inj_succ, Z.pow_succ_r by lia.
  replace (at_ tmp j) with (s0 + B * s1 - (e0 + B * e1)) by lia.
  rewrite Z.mul_0_r, Z.add_0_r.
  replace (eval w (firstn j tmp)) with
    (eval w (firstn j out) + B ^ Z.of_nat j * (e0 + B * e1) - X) by lia.
  ring.
Qed.

End Second.

(** After the second reduction the residual is a single bit: [c1 = 0],
    [c0] is 0 or 1, and [in_out] with that bit on top is [tmp] plus
    [MAX_PRIME_DIFF] times what the first pass left in [c0,c1]. *)
Lemma second_reduction_spec c0 c1 (tmp in_out : Num3072) :
  0 <= c0 < B -> 0 <= c1 < B -> C * (c0 + B * c1) <= B * B - B ->
  length tmp = N -> forallb (is_limb w) tmp = true ->
  length in_out = N -> forallb (is_limb w) in_out = true ->
  exists r0 out,
    second_reduction w N (c0, c1, tmp) in_out = (r0, 0, out) /\
    (r0 = 0 \/ r0 = 1) /\
    length out = N /\ forallb (is_limb w) out = true /\
    eval w out + B ^ Z.of_nat N * r0 = eval w tmp + C * (c0 + B * c1).
Proof.
  intros H0 H1 HX Lt At Li Ai. pose proof (B_gt_1 w Hw) as HB.
  unfold second_reduction. rewrite (limb_C w HC).
  pose proof (muln2_spec w Hw c0 c1 C H0 H1 HC) as Hm.
  destruct (muln2 w (c0, c1) C) as [m0 m1]. destruct Hm as (M0 & M1 & V).
  cbv beta iota.
  assert (Hc0 : 0 <= c0 + B * c1).
  { assert (0 <= B * c1) by (apply Z.mul_nonneg_nonneg; lia). lia. }
  assert (HX0 : 0 <= C * (c0 + B * c1)) by (apply Z.mul_nonneg_nonneg; lia).
  rewrite Z.mod_small in V by lia.
  pose proof (for_loop_inv (second_inv w N tmp (C * (c0 + B * c1))) 0 N
                (reduce2_step w tmp) (m0, m1, in_out) ltac:(lia)) as Hloop.
  assert (I0 : second_inv w N tmp (C * (c0 + B * c1)) 0 (m0, m1, in_out)).
  { unfold second_inv. split; [exact M0|]. split; [exact M1|]. split; [lia|].
    split; [lia|]. split; [exact Li|]. split; [exact Ai|].
    cbn [firstn eval]. change (Z.of_nat 0) with 0. rewrite Z.pow_0_r. lia. }
  specialize (Hloop I0 ltac:(intros i t Hi; apply second_step; [assumption|assumption|lia])).
  remember (for_loop 0 N (reduce2_step w tmp) (m0, m1, in_out)) as res eqn:Eres.
  clear Eres. destruct res as [[e0 e1] out].
  destruct Hloop as (E0 & E1 & Eb & Ez & Lo & Ao & E).
  assert (F1 : firstn N out = out) by (rewrite <- Lo; apply firstn_all).
  assert (F2 : firstn N tmp = tmp) by (rewrite <- Lt; apply firstn_all).
  rewrite F1, F2 in E.
  rewrite (Ez ltac:(lia)) in *. rewrite Z.mul_0_r, Z.add_0_r in E.
  exists e0, out. split; [reflexivity|].
  split; [|split; [exact Lo|split; [exact Ao|exact E]]].
  pose proof (eval_range w Hw out Ao) as Ro. pose proof (eval_range w Hw tmp At) as Rt.
  rewrite Lo in Ro. rewrite Lt in Rt.
  pose proof (pow_ge_square B N HB HN) as Hp.
  set (p := B ^ Z.of_nat N) in *.
  assert (p * e0 < p * 2); [lia|].
  assert (e0 < 2); [|lia].
  apply Z.mul_lt_mono_pos_l with (p := p); lia.
Qed.

(** *** FullReduce *)

Section Full.

Variable d : Num3072.
Hypothesis Ld : length d = N.
Hypothesis Ad : forallb (is_limb w) d = true.

Lemma full_step j st :
  (j < N)%nat -> full_inv w N d j st -> full_inv w N d (S j) (FullReduce_step w j st).
Proof.
  pose proof (B_gt_1 w Hw) as HB.
  intros Hj Hst. destruct st as [c0 d'].
  destruct Hst as (H0 & Ld' & Ad' & Sk & E).
  unfold FullReduce_step.
  rewrite (skipn_nth_cons d' j 0), (skipn_nth_cons d j 0) in Sk by lia.
  injection Sk as Ex Sk. fold (at_ d' j) in Ex. fold (at_ d j) in Ex.
  pose proof (at_limb w Hw d j Ad) as Hx. rewrite Ex.
  pose proof (add2_spec w Hw c0 0 (at_ d j) H0 ltac:(lia) Hx) as Hadd.
  destruct (add2 w (c0, 0) (at_ d j)) as [s0 s1].
  destruct Hadd as (S0 & S1 & V).
  assert (HBB : B + B <= B * B).
  { replace (B + B) with (B * 2) by ring. apply Z.mul_le_mono_nonneg_l; lia. }
  rewrite Z.mod_small in V by lia.
  cbn [extract2]. unfold full_inv.
  split; [exact S1|].
  split; [now rewrite length_set_at|].
  split; [apply all_limbs_set_at; [assumption | apply is_limb_iff; lia]|].
  split; [rewrite skipn_set_at_next; exact Sk|].
  rewrite firstn_set_at_next by lia. rewrite eval_snoc by assumption.
  rewrite length_firstn_le by lia.
  rewrite (firstn_snoc_nth d j 0) by lia. rewrite eval_snoc by assumption.
  rewrite length_firstn_le by lia. fold (at_ d j).
  rewrite Nat2Z.inj_succ, Z.pow_succ_r by lia.
  replace (at_ d j) with (s0 + B * s1 - c0) by lia.
  replace (eval w (firstn j d)) with
    (eval w (firstn j d') + B ^ Z.of_nat j * c0 - C) by lia.
  ring.
Qed.

(** [FullReduce] adds [MAX_PRIME_DIFF] modulo [2^3072]. *)
Lemma FullReduce_spec :
  length (FullReduce w N d) = N /\
  forallb (is_limb w) (FullReduce w N d) = true /\
  eval w (FullReduce w N d) = (eval w d + C) mod B ^ Z.of_nat N.
Proof.
  pose proof (B_gt_1 w Hw) as HB.
  unfold FullReduce. rewrite (limb_C w HC).
  pose proof (for_loop_inv (full_inv w N d) 0 N (FullReduce_step w) (C, d) ltac:(lia)) as Hloop.
  assert (I0 : full_inv w N d 0 (C, d)).
  { unfold full_inv. split; [exact HC|]. split; [exact Ld|]. split; [exact Ad|].
    split; [reflexivity|].
    cbn [firstn eval]. change (Z.of_nat 0) with 0. rewrite Z.pow_0_r. lia. }
  specialize (Hloop I0 ltac:(intros i t Hi; apply full_step; lia)).
  remember (for_loop 0 N (FullReduce_step w) (C, d)) as res eqn:Eres.
  clear Eres. destruct res as [c0 r].
  destruct Hloop as (H0 & Lr & Ar & _ & E). cbn [snd].
  split; [exact Lr|]. split; [exact Ar|].
  assert (F1 : firstn N r = r) by (rewrite <- Lr; apply firstn_all).
  assert (F2 : firstn N d = d) by (rewrite <- Ld; apply firstn_all).
  rewrite F1, F2 in E.
  pose proof (eval_range w Hw r Ar) as Rr. rewrite Lr in Rr.
  apply Z.mod_unique with (q := c0); [left; exact Rr | lia].
Qed.

End Full.

End Reductions.

(** ** [Multiply] *)

Lemma carry_times_C B C n p c L H t :
  1 < B -> 0 < C -> 0 < n -> 0 < p ->
  C * (n * B + C) <= B * B - B ->
  0 <= c -> 0 <= t -> 0 <= L <= n * (B - 1) * (p - 1) -> 0 <= H < p ->
  t + p * c = L + C * H ->
  C * c <= B * B - B.
Proof.
  intros HB HC Hn Hp HX Hc Ht HL HH E.
  assert (H1 : C * H <= C * (p - 1)) by (apply Z.mul_le_mono_nonneg_l; lia).
  assert (H2 : p * c <= (n * (B - 1) + C) * (p - 1)).
  { replace ((n * (B - 1) + C) * (p - 1)) with (n * (B - 1) * (p - 1) + C * (p - 1)) by ring.
    lia. }
  assert (H3 : 0 <= n * (B - 1) + C).
  { assert (0 <= n * (B - 1)) by (apply Z.mul_nonneg_nonneg; lia). lia. }
  assert (H4 : (n * (B - 1) + C) * (p - 1) <= (n * (B - 1) + C) * p).
  { apply Z.mul_le_mono_nonneg_l; lia. }
  assert (H5 : c <= n * (B - 1) + C).
  { apply Z.mul_le_mono_pos_l with (p := p); [assumption|].
    rewrite (Z.mul_comm p (n * (B - 1) + C)). lia. }
  assert (H6 : C * c <= C * (n * (B - 1) + C)) by (apply Z.mul_le_mono_nonneg_l; lia).
  assert (H7 : C * (n * (B - 1) + C) <= C * (n * B + C)).
  { apply Z.mul_le_mono_nonneg_l; [lia|].
    assert (n * (B - 1) <= n * B) by (apply Z.mul_le_mono_nonneg_l; lia). lia. }
  lia.
Qed.

Section MultiplyCorrect.

Variable w : Z.
Variable N : nat.
Hypothesis Hok : config_ok w N = true.

Local Abbreviation B := (2 ^ w).
Local Abbreviation C := MAX_PRIME_DIFF.
Local Abbreviation p := ((2 ^ w) ^ Z.of_nat N).
Local Abbreviation P := (modulus w N).

Lemma p_facts : B * B <= p /\ 0 < P /\ C < B.
Proof.
  pose proof (ok_w w N Hok) as Hw. pose proof (B_gt_1 w Hw) as HB.
  pose proof (ok_N w N Hok) as HN. pose proof (ok_C w N Hok) as HC.
  pose proof (pow_ge_square B N HB HN) as Hp.
  assert (B <= B * B).
  { replace B with (B * 1) at 1 by ring. apply Z.mul_le_mono_nonneg_l; lia. }
  unfold modulus. lia.
Qed.

Variables a b : Num3072.
Hypothesis La : length a = N.
Hypothesis Lb : length b = N.
Hypothesis Ha : forallb (is_limb w) a = true.
Hypothesis Hb : forallb (is_limb w) b = true.

(** The state at the [DEBUG] assertions of [Multiply], and what the
    third reduction makes of it. *)
Lemma Multiply_residual_spec :
  exists c0 c1 tmp r0 out,
    Multiply_product w N a b = (c0, c1, tmp) /\
    Multiply_residual w N a b = (r0, 0, out) /\
    (r0 = 0 \/ r0 = 1) /\
    length out = N /\ forallb (is_limb w) out = true /\
    0 <= c0 + B * c1 /\ 0 <= eval w tmp /\
    eval w out + p * r0 = eval w tmp + C * (c0 + B * c1) /\
    eval w tmp + p * (c0 + B * c1) = low_part w N a b + C * high_part w N a b /\
    length (Multiply w N a b) = N /\
    forallb (is_limb w) (Multiply w N a b) = true /\
    eval w (Multiply w N a b) = eval w out + r0 * C.
Proof.
  pose proof (ok_w w N Hok) as Hw. pose proof (B_gt_1 w Hw) as HB.
  pose proof (ok_N w N Hok) as HN. pose proof (ok_C w N Hok) as HC.
  destruct p_facts as (Hpp & HP & HCB).
  destruct (Multiply_product_spec w N Hok a b)
    as (c0 & c1 & tmp & Ep & H0 & H1 & Lt & At & E); try assumption.
  assert (Hc0 : 0 <= c0 + B * c1).
  { assert (0 <= B * c1) by (apply Z.mul_nonneg_nonneg; lia). lia. }
  pose proof (eval_range w Hw tmp At) as Rt. rewrite Lt in Rt.
  assert (HX : C * (c0 + B * c1) <= B * B - B).
  { apply (carry_times_C B C (Z.of_nat N) p (c0 + B * c1)
             (low_part w N a b) (high_part w N a b) (eval w tmp)); try lia.
    - apply C_pos.
    - apply (ok_X w N Hok).
    - split; [apply low_part_nonneg | apply low_part_bound]; assumption.
    - split; [apply high_part_nonneg | apply high_part_bound]; assumption. }
  destruct (second_reduction_spec w N Hw HN HC c0 c1 tmp a H0 H1 HX Lt At La Ha)
    as (r0 & out & Er & Hr & Lo & Ao & Eo).
  pose proof (eval_range w Hw out Ao) as Ro. rewrite Lo in Ro.
  exists c0, c1, tmp, r0, out.
  split; [exact Ep|].
  assert (Eres : Multiply_residual w N a b = (r0, 0, out))
    by (unfold Multiply_residual; rewrite Ep; exact Er).
  split; [exact Eres|].
  split; [exact Hr|]. split; [exact Lo|]. split; [exact Ao|].
  split; [exact Hc0|]. split; [lia|]. split; [exact Eo|]. split; [exact E|].
  unfold Multiply. rewrite Eres. unfold third_reduction.
  destruct Hr as [-> | ->]; cbn [Z.eqb negb].
  - split; [exact Lo|]. split; [exact Ao|]. ring.
  - destruct (FullReduce_spec w N Hw HN HC out Lo Ao) as (Lf & Af & Ef).
    split; [exact Lf|]. split; [exact Af|].
    rewrite Ef. rewrite Z.mod_small; [ring|]. lia.
Qed.

(** [Multiply]: the result is an array of limbs whose value is the
    product reduced by a multiple of the modulus. *)
Lemma Multiply_spec :
  length (Multiply w N a b) = N /\
  forallb (is_limb w) (Multiply w N a b) = true /\
  eval w (Multiply w N a b) mod P = (eval w a * eval w b) mod P /\
  (C <= eval w (Multiply w N a b) \/
   eval w (Multiply w N a b) = eval w a * eval w b).
Proof.
  pose proof (ok_w w N Hok) as Hw. pose proof (B_gt_1 w Hw) as HB.
  pose proof C_pos as HCp. destruct p_facts as (Hpp & HP & HCB).
  destruct Multiply_residual_spec
    as (c0 & c1 & tmp & r0 & out & _ & Er & Hr & Lo & Ao & Hc0 & Ht & Eo & E & Lr & Ar & Vr).
  assert (Eab : low_part w N a b + p * high_part w N a b = eval w a * eval w b)
    by (apply product_parts; assumption).
  assert (HH : 0 <= high_part w N a b) by (apply high_part_nonneg; assumption).
  assert (HL : 0 <= low_part w N a b) by (apply low_part_nonneg; assumption).
  pose proof (eval_range w Hw out Ao) as Ro. rewrite Lo in Ro.
  set (carry := c0 + B * c1) in *.
  set (L := low_part w N a b) in *. set (H := high_part w N a b) in *.
  split; [exact Lr|]. split; [exact Ar|]. split.
  - replace (eval w (Multiply w N a b))
      with (eval w a * eval w b + (- (H + carry + r0)) * P).
    + apply Z.mod_add. lia.
    + unfold modulus. lia.
  - rewrite Vr. destruct Hr as [-> | ->]; [|left; lia].
    rewrite Z.mul_0_l, Z.add_0_r. rewrite Z.mul_0_r, Z.add_0_r in Eo.
    destruct (Z.eq_dec carry 0) as [Z0 | NZ0].
    + rewrite Z0 in *. rewrite Z.mul_0_r, Z.add_0_r in *.
      destruct (Z.eq_dec H 0) as [ZH | NZH].
      * right. rewrite ZH in *. lia.
      * left. assert (C * 1 <= C * H) by (apply Z.mul_le_mono_nonneg_l; lia). lia.
    + left. assert (C * 1 <= C * carry) by (apply Z.mul_le_mono_nonneg_l; lia). lia.
Qed.

(** The residual with its surplus bit stands for the product. *)
Lemma Multiply_residual_congruent :
  exists r0 out,
    Multiply_residual w N a b = (r0, 0, out) /\
    (r0 = 0 \/ r0 = 1) /\
    length out = N /\ forallb (is_limb w) out = true /\
    (eval w out + p * r0) mod P = (eval w a * eval w b) mod P /\
    eval w (Multiply w N a b) = eval w out + r0 * C.
Proof.
  destruct p_facts as (Hpp & HP & HCB).
  destruct Multiply_residual_spec
    as (c0 & c1 & tmp & r0 & out & _ & Er & Hr & Lo & Ao & Hc0 & Ht & Eo & E & Lr & Ar & Vr).
  assert (Eab : low_part w N a b + p * high_part w N a b = eval w a * eval w b)
    by (apply product_parts; assumption).
  exists r0, out. split; [exact Er|]. split; [exact Hr|]. split; [exact Lo|].
  split; [exact Ao|]. split; [|exact Vr].
  replace (eval w out + p * r0)
    with (eval w a * eval w b + (- (high_part w N a b + (c0 + B * c1))) * P).
  - apply Z.mod_add. lia.
  - unfold modulus. lia.
Qed.

End MultiplyCorrect.

(** ** [IsOverflow] and the normal form *)

Section Overflow.

Variable w : Z.
Variable N : nat.
Hypothesis Hw : 0 < w.
Hypothesis HN : (2 <= N)%nat.
Hypothesis HC : 0 <= MAX_PRIME_DIFF < 2 ^ w.

Local Abbreviation B := (2 ^ w).
Local Abbreviation C := MAX_PRIME_DIFF.
Local Abbreviation p := ((2 ^ w) ^ Z.of_nat N).
Local Abbreviation P := (modulus w N).

(** [IsOverflow] in terms of the limbs. *)
Lemma IsOverflow_limbs (d : Num3072) :
  IsOverflow w N d = true <->
  (limb_max w - C < at_ d 0 /\
   forall i, (1 <= i < N)%nat -> at_ d i = limb_max w).
Proof.
  pose proof (B_gt_1 w Hw) as HB.
  unfold IsOverflow. rewrite (limb_small w (limb_max w - C)) by (unfold limb_max; lia).
  pose proof (for_loop_inv (scan_inv w d) 1 N (IsOverflow_scan w d) None ltac:(lia)) as Hloop.
  assert (I0 : scan_inv w d 1 None) by (left; split; [reflexivity | intros; lia]).
  assert (Hstep : forall i t, (1 <= i < N)%nat -> scan_inv w d i t ->
                  scan_inv w d (S i) (IsOverflow_scan w d i t)).
  { intros j ret Hj [[-> H] | [-> (i & Hi & Hne)]]; unfold IsOverflow_scan.
    - destruct (Z.eqb_spec (at_ d j) (limb_max w)) as [E | NE]; cbn [negb].
      + left. split; [reflexivity|]. intros i Hi.
        destruct (Nat.eq_dec i j) as [-> | Hij]; [exact E | apply H; lia].
      + right. split; [reflexivity|]. exists j. split; [lia | exact NE].
    - right. split; [reflexivity|]. exists i. split; [lia | exact Hne]. }
  specialize (Hloop I0 Hstep).
  destruct (Z.leb_spec (at_ d 0) (limb_max w - C)) as [Hle | Hgt].
  - split; [discriminate | lia].
  - destruct Hloop as [[-> H] | [-> (i & Hi & Hne)]].
    + split; [intros _; split; assumption | reflexivity].
    + split; [discriminate|]. intros [_ H]. elim Hne. now apply H.
Qed.

(** An array of limbs has the largest value of its length exactly when
    every limb is [limb_max]. *)
Lemma eval_all_max l :
  forallb (is_limb w) l = true ->
  ((forall i, (i < length l)%nat -> at_ l i = limb_max w) <->
   eval w l = B ^ Z.of_nat (length l) - 1).
Proof.
  pose proof (B_gt_1 w Hw) as HB. unfold limb_max.
  induction l as [|x t IH]; intros Hl.
  - simpl. split; [reflexivity | intros _ i Hi; lia].
  - apply all_limbs_cons in Hl. destruct Hl as [Hx Ht]. specialize (IH Ht).
    pose proof (eval_range w Hw t Ht) as Rt.
    cbn [eval length]. rewrite Nat2Z.inj_succ, Z.pow_succ_r by lia.
    set (q := B ^ Z.of_nat (length t)) in *.
    split.
    + intros H. pose proof (H O ltac:(simpl; lia)) as H0. unfold at_ in H0. simpl in H0.
      assert (Et : eval w t = q - 1).
      { apply IH. intros i Hi. apply (H (S i)). simpl. lia. }
      rewrite H0, Et. ring.
    + intros E.
      assert (Et : eval w t = q - 1).
      { destruct (Z.eq_dec (eval w t) (q - 1)) as [|NE]; [assumption|].
        assert (B * eval w t <= B * (q - 2)) by (apply Z.mul_le_mono_nonneg_l; lia).
        lia. }
      assert (x = B - 1) by (rewrite Et in E; lia).
      intros [|i] Hi; [assumption|].
      apply (proj2 IH Et i). simpl in Hi. lia.
Qed.

(** [IsOverflow] holds exactly for the values from the modulus on. *)
Lemma IsOverflow_value (d : Num3072) :
  length d = N -> forallb (is_limb w) d = true ->
  (IsOverflow w N d = true <-> P <= eval w d).
Proof.
  pose proof (B_gt_1 w Hw) as HB.
  intros Ld Ad. rewrite IsOverflow_limbs. unfold modulus.
  destruct d as [|x t]; [simpl in Ld; lia|].
  apply all_limbs_cons in Ad. destruct Ad as [Hx Ht].
  pose proof (eval_all_max t Ht) as Hmax. pose proof (eval_range w Hw t Ht) as Rt.
  simpl in Ld. assert (Lt : length t = (N - 1)%nat) by lia.
  replace (Z.of_nat N) with (Z.succ (Z.of_nat (length t))) by lia.
  rewrite Z.pow_succ_r by lia. cbn [eval].
  set (q := B ^ Z.of_nat (length t)) in *.
  change (at_ (x :: t) 0) with x. unfold limb_max in *.
  split.
  - intros [H0 H].
    assert (Et : eval w t = q - 1).
    { apply Hmax. intros i Hi. apply (H (S i)). lia. }
    rewrite Et. lia.
  - intros H.
    assert (Et : eval w t = q - 1).
    { destruct (Z.eq_dec (eval w t) (q - 1)) as [|NE]; [assumption|].
      assert (B * eval w t <= B * (q - 2)) by (apply Z.mul_le_mono_nonneg_l; lia).
      lia. }
    split; [rewrite Et in H; lia|].
    intros [|i] Hi; [lia|]. apply (proj2 Hmax Et i). lia.
Qed.

(** What [Finalize] does to the limbs before it writes them. *)
Lemma normalise_spec (d : Num3072) :
  length d = N -> forallb (is_limb w) d = true ->
  let d' := if IsOverflow w N d then FullReduce w N d else d in
  length d' = N /\ forallb (is_limb w) d' = true /\
  eval w d' = eval w d mod P /\ eval w d' < P.
Proof.
  pose proof (B_gt_1 w Hw) as HB. pose proof (pow_ge_square B N HB HN) as Hp.
  assert (HBB : B + B <= B * B).
  { replace (B + B) with (B * 2) by ring. apply Z.mul_le_mono_nonneg_l; lia. }
  intros Ld Ad. cbv zeta.
  pose proof (IsOverflow_value d Ld Ad) as Hov.
  pose proof (eval_range w Hw d Ad) as Rd. rewrite Ld in Rd.
  unfold modulus in *.
  destruct (IsOverflow w N d).
  - destruct (FullReduce_spec w N Hw HN HC d Ld Ad) as (Lf & Af & Ef).
    assert (HP : p - C <= eval w d) by now apply Hov.
    assert (E1 : (eval w d + C) mod p = eval w d + C - p).
    { symmetry. apply Z.mod_unique with (q := 1); lia. }
    split; [exact Lf|]. split; [exact Af|]. rewrite Ef, E1.
    split; [|lia]. apply Z.mod_unique with (q := 1); lia.
  - assert (HP : eval w d < p - C).
    { destruct (Z_lt_le_dec (eval w d) (p - C)) as [|Hge]; [assumption|].
      apply Hov in Hge. discriminate. }
    split; [exact Ld|]. split; [exact Ad|].
    split; [|lia]. symmetry. apply Z.mod_small. lia.
Qed.

End Overflow.

(** ** [Inverse] *)

Lemma inverse_exponent_value : inverse_exponent = PRIME - 2.
Proof. vm_compute. reflexivity. Qed.

Lemma repunit_nonneg i : 0 <= repunit i.
Proof.
  unfold repunit. assert (0 < 2 ^ Z.of_nat (2 ^ i)) by (apply Z.pow_pos_nonneg; lia). lia.
Qed.

Lemma repunit_succ i :
  repunit i * 2 ^ Z.of_nat (2 ^ i) + repunit i = repunit (S i).
Proof.
  unfold repunit. replace (2 ^ S i)%nat with (2 ^ i + 2 ^ i)%nat by (simpl; lia).
  rewrite Nat2Z.inj_add, Z.pow_add_r by lia. ring.
Qed.

Lemma chain_nonneg n i e : 0 <= e -> 0 <= chain n i e.
Proof.
  intros He. unfold chain. pose proof (repunit_nonneg i).
  assert (0 <= e * 2 ^ Z.of_nat n).
  { apply Z.mul_nonneg_nonneg; [assumption|]. apply Z.pow_nonneg. lia. }
  lia.
Qed.

Section InverseCorrect.

Variable w : Z.
Variable N : nat.
Hypothesis Hok : config_ok w N = true.

Local Abbreviation B := (2 ^ w).
Local Abbreviation C := MAX_PRIME_DIFF.
Local Abbreviation P := (modulus w N).

Variable a : Num3072.
Hypothesis La : length a = N.
Hypothesis Ha : forallb (is_limb w) a = true.

Local Abbreviation v := (eval w a).

Lemma is_power_self : is_power w N v a 1.
Proof.
  unfold is_power. split; [exact La|]. split; [exact Ha|]. split; [lia|].
  now rewrite Z.pow_1_r.
Qed.

Lemma is_power_Multiply x e y f :
  is_power w N v x e -> is_power w N v y f ->
  is_power w N v (Multiply w N x y) (e + f).
Proof.
  intros (Lx & Ax & He & Ex) (Ly & Ay & Hf & Ey).
  destruct (Multiply_spec w N Hok x y) as (Lr & Ar & Er & _); try assumption.
  unfold is_power. split; [exact Lr|]. split; [exact Ar|]. split; [lia|].
  rewrite Er. rewrite Z.mul_mod by (destruct (p_facts w N Hok); lia).
  rewrite Ex, Ey. rewrite <- Z.mul_mod by (destruct (p_facts w N Hok); lia).
  now rewrite Z.pow_add_r.
Qed.

Lemma is_power_Square x e :
  is_power w N v x e -> is_power w N v (Square w N x) (e * 2).
Proof.
  intros Hx. pose proof Hx as (Lx & Ax & _).
  rewrite (Square_Multiply w N) by
    first [ assumption | apply (ok_w w N Hok) | apply (ok_C w N Hok)
          | apply (ok_even w N Hok) | (pose proof (ok_N w N Hok); lia) ].
  replace (e * 2) with (e + e) by ring. now apply is_power_Multiply.
Qed.

Lemma is_power_Square_times n x e :
  is_power w N v x e -> is_power w N v (Square_times w N n x) (e * 2 ^ Z.of_nat n).
Proof.
  intros Hx. unfold Square_times.
  apply (for_loop_inv (fun j y => is_power w N v y (e * 2 ^ Z.of_nat j))); [lia| |].
  - change (Z.of_nat 0) with 0. now rewrite Z.pow_0_r, Z.mul_1_r.
  - intros i t _ Ht. rewrite Nat2Z.inj_succ, Z.pow_succ_r by lia.
    replace (e * (2 * 2 ^ Z.of_nat i)) with (e * 2 ^ Z.of_nat i * 2) by ring.
    now apply is_power_Square.
Qed.

Lemma is_power_chain n i x e y :
  is_power w N v x e -> is_power w N v y (repunit i) ->
  is_power w N v (Multiply w N (Square_times w N n x) y) (chain n i e).
Proof.
  intros Hx Hy. unfold chain. apply is_power_Multiply; [|assumption].
  now apply is_power_Square_times.
Qed.

(** The table of [Inverse]: [p[k]] is the power [2^(2^k) - 1]. *)
Lemma Inverse_table_spec : table_inv w N a 11 (Inverse_table w N a).
Proof.
  unfold Inverse_table.
  apply (for_loop_inv (table_inv w N a)); [lia| |].
  - unfold table_inv. split; [reflexivity|]. split; [reflexivity|].
    intros k Hk. replace k with O by lia. cbn [repeat set_at nth].
    change (repunit 0) with 1. apply is_power_self.
  - intros i p Hi (Lp & Hp0 & Hp). unfold Inverse_table_step, table_inv.
    split; [now rewrite length_set_at|].
    split; [rewrite nth_set_at_other by lia; exact Hp0|].
    intros k Hk. destruct (Nat.eq_dec k (i + 1)) as [-> | Hne].
    + rewrite nth_set_at_same by lia.
      replace (i + 1)%nat with (S i) by lia. rewrite <- repunit_succ.
      rewrite Nat.shiftl_1_l.
      apply (is_power_chain (2 ^ i) i); apply Hp; lia.
    + rewrite nth_set_at_other by lia. apply Hp. lia.
Qed.

(** [Inverse] ends with a multiplication by [a] itself. *)
Lemma Inverse_last_step :
  exists x,
    is_power w N v x inverse_exponent_before_last /\
    Inverse w N a = Multiply w N x a.
Proof.
  destruct Inverse_table_spec as (Lp & Hp0 & Hp).
  exists (Square_times w N 3
            (let p := Inverse_table w N a in
             let x := nth 11 p [] in
             let x := Square_times w N 512 x in
             let x := Multiply w N x (nth 9 p []) in
             let x := Square_times w N 256 x in
             let x := Multiply w N x (nth 8 p []) in
             let x := Square_times w N 128 x in
             let x := Multiply w N x (nth 7 p []) in
             let x := Square_times w N 64 x in
             let x := Multiply w N x (nth 6 p []) in
             let x := Square_times w N 32 x in
             let x := Multiply w N x (nth 5 p []) in
             let x := Square_times w N 8 x in
             let x := Multiply w N x (nth 3 p []) in
             let x := Square_times w N 2 x in
             let x := Multiply w N x (nth 1 p []) in
             let x := Square_times w N 1 x in
             let x := Multiply w N x (nth 0 p []) in
             let x := Square_times w N 5 x in
             let x := Multiply w N x (nth 2 p []) in
             let x := Square_times w N 3 x in
             let x := Multiply w N x (nth 0 p []) in
             let x := Square_times w N 2 x in
             let x := Multiply w N x (nth 0 p []) in
             let x := Square_times w N 4 x in
             let x := Multiply w N x (nth 0 p []) in
             let x := Square_times w N 4 x in
             let x := Multiply w N x (nth 1 p []) in
             x)).
  split.
  - unfold inverse_exponent_before_last. cbv zeta.
    apply is_power_Square_times.
    repeat (apply is_power_chain; [|apply Hp; lia]).
    apply Hp. lia.
  - unfold Inverse. cbv zeta. rewrite Hp0. reflexivity.
Qed.

(** [Inverse] raises to the power [inverse_exponent], modulo the modulus. *)
Lemma Inverse_spec : is_power w N v (Inverse w N a) inverse_exponent.
Proof.
  destruct Inverse_last_step as (x & Hx & ->).
  unfold inverse_exponent. change (repunit 0) with 1.
  apply is_power_Multiply; [assumption | apply is_power_self].
Qed.

End InverseCorrect.

(** ** The two builds *)

Lemma build_ok cfg : config_ok (LIMB_SIZE_of cfg) (LIMBS_of cfg) = true.
Proof. destruct cfg; vm_compute; reflexivity. Qed.

Lemma build_modulus cfg : modulus (LIMB_SIZE_of cfg) (LIMBS_of cfg) = PRIME.
Proof. destruct cfg; vm_compute; reflexivity. Qed.

Lemma build_power cfg : (2 ^ LIMB_SIZE_of cfg) ^ Z.of_nat (LIMBS_of cfg) = 2 ^ 3072.
Proof. destruct cfg; vm_compute; reflexivity. Qed.

Lemma build_width cfg : 0 < LIMB_SIZE_of cfg.
Proof. destruct cfg; reflexivity. Qed.

Lemma build_limbs cfg : (2 <= LIMBS_of cfg)%nat.
Proof. destruct cfg; simpl; lia. Qed.

Lemma build_C cfg : 0 <= MAX_PRIME_DIFF < 2 ^ LIMB_SIZE_of cfg.
Proof. destruct cfg; vm_compute; split; congruence. Qed.

Lemma wf_iff cfg d :
  wf cfg d = true <->
  length d = LIMBS_of cfg /\ forallb (is_limb (LIMB_SIZE_of cfg)) d = true.
Proof. apply well_formed_iff. Qed.

Lemma wf_intro cfg d :
  length d = LIMBS_of cfg -> forallb (is_limb (LIMB_SIZE_of cfg)) d = true ->
  wf cfg d = true.
Proof. intros. apply wf_iff. auto. Qed.

Lemma value_range cfg d : wf cfg d = true -> 0 <= value cfg d < 2 ^ 3072.
Proof.
  intros H. apply wf_iff in H. destruct H as [L A].
  pose proof (eval_range _ (build_width cfg) d A) as R.
  rewrite L, build_power in R. exact R.
Qed.

Lemma PRIME_facts : MAX_PRIME_DIFF < PRIME /\ PRIME + MAX_PRIME_DIFF = 2 ^ 3072 /\ 0 < MAX_PRIME_DIFF.
Proof. vm_compute. repeat split; congruence. Qed.

(** ** The claims about the arithmetic *)

Local Abbreviation W cfg := (LIMB_SIZE_of cfg).
Local Abbreviation L cfg := (LIMBS_of cfg).

Lemma canonical_iff cfg d :
  canonical cfg d = true <-> wf cfg d = true /\ value cfg d < PRIME.
Proof. unfold canonical. rewrite andb_true_iff, Z.ltb_lt. tauto. Qed.

(** A value below [2^3072] in the residue class of [m] is [m] or [m + PRIME]. *)
Lemma residue_cases r m :
  0 <= r < 2 ^ 3072 -> 0 <= m < PRIME -> r mod PRIME = m ->
  r = m \/ (r = m + PRIME /\ m < MAX_PRIME_DIFF).
Proof.
  intros Hr Hm E. destruct PRIME_facts as (H1 & H2 & H3).
  pose proof (Z.div_mod r PRIME ltac:(lia)) as D. rewrite E in D.
  assert (0 <= r / PRIME) by (apply Z.div_pos; lia).
  assert (r / PRIME < 2).
  { apply Z.div_lt_upper_bound; lia. }
  assert (r / PRIME = 0 \/ r / PRIME = 1) as [Q | Q] by lia; rewrite Q in D; lia.
Qed.

(** [Multiply] on arrays of limbs, in either build. *)
Lemma Multiply_build cfg x a :
  wf cfg x = true -> wf cfg a = true ->
  wf cfg (Multiply (W cfg) (L cfg) x a) = true /\
  value cfg (Multiply (W cfg) (L cfg) x a) mod PRIME
  = (value cfg x * value cfg a) mod PRIME /\
  (MAX_PRIME_DIFF <= value cfg (Multiply (W cfg) (L cfg) x a) \/
   value cfg (Multiply (W cfg) (L cfg) x a) = value cfg x * value cfg a).
Proof.
  intros Hx Ha. apply wf_iff in Hx. apply wf_iff in Ha.
  destruct Hx as [Lx Ax], Ha as [La Aa].
  destruct (Multiply_spec _ _ (build_ok cfg) x a Lx La Ax Aa) as (Lr & Ar & Er & Hr).
  rewrite build_modulus in Er.
  split; [now apply wf_intro|]. split; assumption.
Qed.

Lemma Square_build cfg x :
  wf cfg x = true ->
  Square (W cfg) (L cfg) x = Multiply (W cfg) (L cfg) x x.
Proof.
  intros Hx. apply wf_iff in Hx. destruct Hx as [Lx Ax].
  apply Square_Multiply; try assumption.
  - apply build_width.
  - apply build_C.
  - destruct cfg; reflexivity.
  - pose proof (build_limbs cfg). lia.
Qed.

(** C1 (as amended): for canonical operands, [Multiply] leaves in [in_out]
    an array of limbs whose value is congruent to the product modulo the
    prime; that value is the canonical residue, or the canonical residue
    plus the prime when the residue is below [MAX_PRIME_DIFF]. *)
Theorem C1_Multiply_congruent cfg (in_out a : Num3072) :
  canonical cfg in_out = true -> canonical cfg a = true ->
  let r := Multiply (W cfg) (L cfg) in_out a in
  let m := (value cfg in_out * value cfg a) mod PRIME in
  wf cfg r = true /\
  value cfg r mod PRIME = m /\
  (value cfg r = m \/ (value cfg r = m + PRIME /\ m < MAX_PRIME_DIFF)).
Proof.
  intros Hx Ha. apply canonical_iff in Hx. apply canonical_iff in Ha.
  destruct Hx as [Hx _], Ha as [Ha _]. cbv zeta.
  destruct (Multiply_build cfg in_out a Hx Ha) as (Wr & Er & _).
  split; [exact Wr|]. split; [exact Er|].
  apply residue_cases; [now apply value_range| |exact Er].
  apply Z.mod_pos_bound. destruct PRIME_facts as (H1 & H2 & H3). lia.
Qed.

Lemma C1_Multiply_congruent_witness :
  canonical Wide (Num3072_of_Z Wide 3) = true /\
  canonical Wide (Num3072_of_Z Wide 5) = true /\
  let r := Multiply 64 48 (Num3072_of_Z Wide 3) (Num3072_of_Z Wide 5) in
  let m := (value Wide (Num3072_of_Z Wide 3) * value Wide (Num3072_of_Z Wide 5)) mod PRIME in
  wf Wide r = true /\
  value Wide r mod PRIME = m /\
  (value Wide r = m \/ (value Wide r = m + PRIME /\ m < MAX_PRIME_DIFF)).
Proof.
  split; [vm_compute; reflexivity|]. split; [vm_compute; reflexivity|].
  apply (C1_Multiply_congruent Wide (Num3072_of_Z Wide 3) (Num3072_of_Z Wide 5));
    vm_compute; reflexivity.
Defined.

(** C1 as stated fails: 2 and (PRIME + 1) / 2 are canonical, their product
    is 1 modulo the prime, and [Multiply] leaves PRIME + 1, which is not
    canonical. *)
Lemma C1_counterexample :
  let x := Num3072_of_Z Wide 2 in
  let a := Num3072_of_Z Wide ((PRIME + 1) / 2) in
  canonical Wide x = true /\ canonical Wide a = true /\
  (value Wide x * value Wide a) mod PRIME = 1 /\
  value Wide (Multiply 64 48 x a) = PRIME + 1 /\
  canonical Wide (Multiply 64 48 x a) = false.
Proof. vm_compute. repeat split; reflexivity. Qed.

(** C4: on a canonical operand [Square] gives the very limbs that
    [Multiply] gives on two copies of it. *)
Theorem C4_Square_is_Multiply cfg (x : Num3072) :
  canonical cfg x = true ->
  Square (W cfg) (L cfg) x = Multiply (W cfg) (L cfg) x x.
Proof.
  intros Hx. apply canonical_iff in Hx. destruct Hx as [Hx _].
  now apply Square_build.
Qed.

Lemma C4_Square_is_Multiply_witness :
  canonical Narrow (Num3072_of_Z Narrow 7) = true /\
  Square 32 96 (Num3072_of_Z Narrow 7)
  = Multiply 32 96 (Num3072_of_Z Narrow 7) (Num3072_of_Z Narrow 7).
Proof.
  split; [vm_compute; reflexivity|].
  apply (C4_Square_is_Multiply Narrow). vm_compute. reflexivity.
Defined.

(** C5: on an array of limbs, [IsOverflow] answers whether the value is at
    least the prime, which is to say whether limb 0 exceeds
    [limb_max - MAX_PRIME_DIFF] and every other limb is [limb_max]. *)
Theorem C5_IsOverflow cfg (d : Num3072) :
  wf cfg d = true ->
  (IsOverflow (W cfg) (L cfg) d = true <-> PRIME <= value cfg d) /\
  (IsOverflow (W cfg) (L cfg) d = true <->
   (limb_max (W cfg) - MAX_PRIME_DIFF < at_ d 0 /\
    forall i, (1 <= i < L cfg)%nat -> at_ d i = limb_max (W cfg))).
Proof.
  intros Hd. apply wf_iff in Hd. destruct Hd as [Ld Ad]. split.
  - rewrite <- build_modulus with (cfg := cfg).
    apply IsOverflow_value; try assumption;
      [apply build_width | apply build_limbs | apply build_C].
  - apply IsOverflow_limbs; [apply build_width | apply build_limbs | apply build_C].
Qed.

Lemma C5_IsOverflow_witness :
  wf Wide (Num3072_of_Z Wide PRIME) = true /\
  (IsOverflow 64 48 (Num3072_of_Z Wide PRIME) = true
   <-> PRIME <= value Wide (Num3072_of_Z Wide PRIME)) /\
  (IsOverflow 64 48 (Num3072_of_Z Wide PRIME) = true <->
   (limb_max 64 - MAX_PRIME_DIFF < at_ (Num3072_of_Z Wide PRIME) 0 /\
    forall i, (1 <= i < 48)%nat -> at_ (Num3072_of_Z Wide PRIME) i = limb_max 64)).
Proof.
  split; [vm_compute; reflexivity|].
  apply (C5_IsOverflow Wide). vm_compute. reflexivity.
Defined.

(** C6: [FullReduce] adds [MAX_PRIME_DIFF] modulo [2^3072]; on a value in
    the window from the prime to [2^3072] that is the subtraction of the
    prime, with a canonical result, and only there is the result the
    canonical representative of the input. *)
Theorem C6_FullReduce cfg (d : Num3072) :
  wf cfg d = true ->
  wf cfg (FullReduce (W cfg) (L cfg) d) = true /\
  value cfg (FullReduce (W cfg) (L cfg) d) = (value cfg d + MAX_PRIME_DIFF) mod 2 ^ 3072 /\
  (PRIME <= value cfg d ->
   value cfg (FullReduce (W cfg) (L cfg) d) = value cfg d - PRIME /\
   canonical cfg (FullReduce (W cfg) (L cfg) d) = true) /\
  (value cfg (FullReduce (W cfg) (L cfg) d) = value cfg d mod PRIME
   <-> PRIME <= value cfg d).
Proof.
  intros Hd. pose proof (value_range cfg d Hd) as Rd.
  apply wf_iff in Hd. destruct Hd as [Ld Ad].
  destruct (FullReduce_spec _ _ (build_width cfg) (build_limbs cfg) (build_C cfg) d Ld Ad)
    as (Lf & Af & Ef).
  rewrite build_power in Ef. fold (value cfg d) in Ef.
  fold (value cfg (FullReduce (W cfg) (L cfg) d)) in Ef.
  destruct PRIME_facts as (H1 & H2 & H3).
  assert (Wf : wf cfg (FullReduce (W cfg) (L cfg) d) = true) by now apply wf_intro.
  split; [exact Wf|]. split; [exact Ef|].
  assert (Hwin : PRIME <= value cfg d ->
                 (value cfg d + MAX_PRIME_DIFF) mod 2 ^ 3072 = value cfg d - PRIME).
  { intros HP. symmetry. apply Z.mod_unique with (q := 1); lia. }
  assert (Hlow : value cfg d < PRIME ->
                 (value cfg d + MAX_PRIME_DIFF) mod 2 ^ 3072 = value cfg d + MAX_PRIME_DIFF).
  { intros HP. apply Z.mod_small. lia. }
  split.
  - intros HP. rewrite Ef, (Hwin HP). split; [reflexivity|].
    apply canonical_iff. split; [exact Wf|]. rewrite Ef, (Hwin HP). lia.
  - rewrite Ef. split.
    + intros E. destruct (Z_lt_le_dec (value cfg d) PRIME) as [Hlt | Hge]; [|exact Hge].
      rewrite (Hlow Hlt), Z.mod_small in E by lia. lia.
    + intros HP. rewrite (Hwin HP). apply Z.mod_unique with (q := 1); lia.
Qed.

Lemma C6_FullReduce_witness :
  wf Wide (Num3072_of_Z Wide (PRIME + 5)) = true /\
  let d := Num3072_of_Z Wide (PRIME + 5) in
  wf Wide (FullReduce 64 48 d) = true /\
  value Wide (FullReduce 64 48 d) = (value Wide d + MAX_PRIME_DIFF) mod 2 ^ 3072 /\
  (PRIME <= value Wide d ->
   value Wide (FullReduce 64 48 d) = value Wide d - PRIME /\
   canonical Wide (FullReduce 64 48 d) = true) /\
  (value Wide (FullReduce 64 48 d) = value Wide d mod PRIME <-> PRIME <= value Wide d).
Proof.
  split; [vm_compute; reflexivity|].
  apply (C6_FullReduce Wide). vm_compute. reflexivity.
Defined.

Lemma Multiply_residual_build cfg a b :
  wf cfg a = true -> wf cfg b = true ->
  exists c0 out,
    Multiply_residual (W cfg) (L cfg) a b = (c0, 0, out) /\
    (c0 = 0 \/ c0 = 1) /\
    wf cfg out = true /\
    (value cfg out + 2 ^ 3072 * c0) mod PRIME = (value cfg a * value cfg b) mod PRIME /\
    value cfg (Multiply (W cfg) (L cfg) a b) = value cfg out + c0 * MAX_PRIME_DIFF.
Proof.
  intros Ha Hb. apply wf_iff in Ha. apply wf_iff in Hb.
  destruct Ha as [La Aa], Hb as [Lb Ab].
  destruct (Multiply_residual_congruent _ _ (build_ok cfg) a b La Lb Aa Ab)
    as (r0 & out & Er & Hr & Lo & Ao & Eo & Vr).
  rewrite build_modulus, build_power in Eo.
  exists r0, out. split; [exact Er|]. split; [exact Hr|].
  split; [now apply wf_intro|]. split; assumption.
Qed.

(** C7: for operands that are arrays of limbs, the second reduction of
    [Multiply], and that of [Square], ends with [c1 = 0] and [c0] equal to
    0 or 1; the limbs written to [in_out] together with that bit still
    stand for the product modulo the prime, so no carry was dropped; and
    the one conditional [FullReduce] turns them into the result by adding
    [MAX_PRIME_DIFF] once for the bit, without wrap-around. *)
Theorem C7_residual_carry cfg (a b : Num3072) :
  wf cfg a = true -> wf cfg b = true ->
  (exists c0 out,
     Multiply_residual (W cfg) (L cfg) a b = (c0, 0, out) /\
     (c0 = 0 \/ c0 = 1) /\
     wf cfg out = true /\
     (value cfg out + 2 ^ 3072 * c0) mod PRIME = (value cfg a * value cfg b) mod PRIME /\
     value cfg (Multiply (W cfg) (L cfg) a b) = value cfg out + c0 * MAX_PRIME_DIFF) /\
  (exists c0 out,
     Square_residual (W cfg) (L cfg) a = (c0, 0, out) /\
     (c0 = 0 \/ c0 = 1) /\
     wf cfg out = true /\
     (value cfg out + 2 ^ 3072 * c0) mod PRIME = (value cfg a * value cfg a) mod PRIME /\
     value cfg (Square (W cfg) (L cfg) a) = value cfg out + c0 * MAX_PRIME_DIFF).
Proof.
  intros Ha Hb. split; [now apply Multiply_residual_build|].
  destruct (Multiply_residual_build cfg a a Ha Ha) as (c0 & out & Er & H).
  exists c0, out. rewrite Square_build by assumption.
  split; [|exact H].
  unfold Square_residual. pose proof Ha as Ha'. apply wf_iff in Ha'.
  destruct Ha' as [La Aa].
  rewrite Square_product_Multiply_product
    by first [ assumption | apply build_width | apply build_C
             | (destruct cfg; reflexivity) | (pose proof (build_limbs cfg); lia) ].
  exact Er.
Qed.

Lemma C7_residual_carry_witness :
  let a := Num3072_of_Z Narrow (2 ^ 3072 - 1) in
  let b := Num3072_of_Z Narrow (2 ^ 3072 - 1) in
  wf Narrow a = true /\ wf Narrow b = true /\
  (exists c0 out,
     Multiply_residual 32 96 a b = (c0, 0, out) /\
     (c0 = 0 \/ c0 = 1) /\
     wf Narrow out = true /\
     (value Narrow out + 2 ^ 3072 * c0) mod PRIME = (value Narrow a * value Narrow b) mod PRIME /\
     value Narrow (Multiply 32 96 a b) = value Narrow out + c0 * MAX_PRIME_DIFF) /\
  (exists c0 out,
     Square_residual 32 96 a = (c0, 0, out) /\
     (c0 = 0 \/ c0 = 1) /\
     wf Narrow out = true /\
     (value Narrow out + 2 ^ 3072 * c0) mod PRIME = (value Narrow a * value Narrow a) mod PRIME /\
     value Narrow (Square 32 96 a) = value Narrow out + c0 * MAX_PRIME_DIFF).
Proof.
  cbv zeta. split; [vm_compute; reflexivity|]. split; [vm_compute; reflexivity|].
  apply (C7_residual_carry Narrow); vm_compute; reflexivity.
Defined.

(** C9 (as amended): for limbs [c0], [c1], [d0], [d1], [d2] and [n],
    [mulnadd3] leaves in [c0,c1,c2] the sum of the old [c0,c1] and the
    product of [d0,d1,d2] and [n], modulo [2^(3*LIMB_SIZE)]: the old [c2]
    does not enter, so the sum is that of the whole old accumulator when
    [c2] was 0. *)
Theorem C9_mulnadd3 cfg (c0 c1 c2 d0 d1 d2 n : Z) :
  is_limb (W cfg) c0 = true -> is_limb (W cfg) c1 = true ->
  is_limb3 (W cfg) (d0, d1, d2) = true -> is_limb (W cfg) n = true ->
  val3 (W cfg) (mulnadd3 (W cfg) (c0, c1, c2) (d0, d1, d2) n)
  = (val3 (W cfg) (c0, c1, 0) + val3 (W cfg) (d0, d1, d2) * n) mod 2 ^ (3 * W cfg).
Proof.
  intros H0 H1 Hd Hn. apply is_limb_iff in H0, H1, Hn.
  destruct (mulnadd3_spec _ (build_width cfg) c0 c1 c2 (d0, d1, d2) n H0 H1 Hd Hn)
    as [_ E].
  rewrite E. pose proof (build_width cfg).
  replace (3 * W cfg) with (W cfg + W cfg + W cfg) by ring.
  rewrite !Z.pow_add_r by lia. f_equal. unfold val3. ring.
Qed.

Lemma C9_mulnadd3_witness :
  is_limb 64 5 = true /\ is_limb 64 7 = true /\
  is_limb3 64 (2 ^ 64 - 1, 2 ^ 64 - 1, 3) = true /\ is_limb 64 MAX_PRIME_DIFF = true /\
  val3 64 (mulnadd3 64 (5, 7, 0) (2 ^ 64 - 1, 2 ^ 64 - 1, 3) MAX_PRIME_DIFF)
  = (val3 64 (5, 7, 0) + val3 64 (2 ^ 64 - 1, 2 ^ 64 - 1, 3) * MAX_PRIME_DIFF)
      mod 2 ^ (3 * 64).
Proof.
  split; [reflexivity|]. split; [reflexivity|]. split; [reflexivity|].
  split; [reflexivity|].
  apply (C9_mulnadd3 Wide); reflexivity.
Defined.

(** C9 as stated fails when [c2] is not 0: the product of [0,0,0] and 0
    added to [0,0,1] should leave [0,0,1], and [mulnadd3] leaves [0,0,0]. *)
Lemma C9_counterexample :
  mulnadd3 64 (0, 0, 1) (0, 0, 0) 0 = (0, 0, 0) /\
  val3 64 (mulnadd3 64 (0, 0, 1) (0, 0, 0) 0)
  <> (val3 64 (0, 0, 1) + val3 64 (0, 0, 0) * 0) mod 2 ^ (3 * 64).
Proof. split; [reflexivity|]. vm_compute. discriminate. Qed.

(** ** Fermat's little theorem *)



Section Fermat.

Variable p : Z.
Hypothesis Hp : Z.prime p.
Variable a : Z.
Hypothesis Ha : ~ (p | a).

Local Abbreviation residues := (map Z.of_nat (seq 1 (Z.to_nat (p - 1)))).
Local Abbreviation times_a := (fun x => (a * x) mod p).










End Fermat.

Lemma PRIME_pos : 2 < PRIME.
Proof. vm_compute. reflexivity. Qed.

(** [Inverse] on an array of limbs, in either build. *)
Lemma Inverse_build cfg a :
  wf cfg a = true ->
  wf cfg (Inverse (W cfg) (L cfg) a) = true /\
  value cfg (Inverse (W cfg) (L cfg) a) mod PRIME = value cfg a ^ (PRIME - 2) mod PRIME.
Proof.
  intros Ha. apply wf_iff in Ha. destruct Ha as [La Aa].
  destruct (Inverse_spec _ _ (build_ok cfg) a La Aa) as (Lr & Ar & _ & Er).
  rewrite build_modulus, inverse_exponent_value in Er.
  split; [now apply wf_intro | exact Er].
Qed.








(** ** The class MuHash3072 *)

(** Two runs of one loop, side by side. *)
Lemma for_loop_inv2 {S : Type} (Inv : nat -> S -> S -> Prop) lo hi
      (body : nat -> S -> S) s1 s2 :
  (lo <= hi)%nat ->
  Inv lo s1 s2 ->
  (forall i t1 t2, (lo <= i < hi)%nat -> Inv i t1 t2 ->
                   Inv (Datatypes.S i) (body i t1) (body i t2)) ->
  Inv hi (for_loop lo hi body s1) (for_loop lo hi body s2).
Proof.
  intros Hle H0 Hstep. induction hi as [|hi IH].
  - replace lo with O in * by lia. exact H0.
  - destruct (Nat.eq_dec lo (Datatypes.S hi)) as [->|Hne].
    + rewrite !for_loop_done by lia. exact H0.
    + rewrite !for_loop_snoc by lia. apply Hstep; [lia|].
      apply IH; [lia|]. intros i t1 t2 Hi. apply Hstep. lia.
Qed.

Lemma for_loop_ext {S : Type} lo hi (f g : nat -> S -> S) s :
  (forall i t, f i t = g i t) -> for_loop lo hi f s = for_loop lo hi g s.
Proof.
  intros H. apply (for_loop_agree (fun _ => True)); [exact I|].
  intros i t _ _. split; [apply H | exact I].
Qed.

(** *** Writing the digest *)

Lemma WriteLE_prefix nb off x (b1 b2 : list Byte.byte) M :
  length b1 = M -> length b2 = M -> (off + nb <= M)%nat ->
  firstn off b1 = firstn off b2 ->
  length (WriteLE nb b1 off x) = M /\ length (WriteLE nb b2 off x) = M /\
  firstn (off + nb) (WriteLE nb b1 off x) = firstn (off + nb) (WriteLE nb b2 off x).
Proof.
  intros L1 L2 Hoff E. unfold WriteLE.
  apply (for_loop_inv2
           (fun k t1 t2 => length t1 = M /\ length t2 = M /\
                           firstn (off + k) t1 = firstn (off + k) t2)); [lia| |].
  - rewrite Nat.add_0_r. auto.
  - intros k t1 t2 Hk (M1 & M2 & Ek).
    rewrite !length_set_at. split; [exact M1|]. split; [exact M2|].
    replace (off + Datatypes.S k)%nat with (Datatypes.S (off + k)) by lia.
    rewrite !firstn_set_at_next by lia. now rewrite Ek.
Qed.

(** The digest does not depend on what the buffer held before. *)
Lemma write_limbs_ext nb n d (b1 b2 : list Byte.byte) :
  length b1 = (n * nb)%nat -> length b2 = (n * nb)%nat ->
  write_limbs nb n d b1 = write_limbs nb n d b2.
Proof.
  intros L1 L2. unfold write_limbs.
  pose proof (for_loop_inv2
                (fun i t1 t2 => length t1 = (n * nb)%nat /\ length t2 = (n * nb)%nat /\
                                firstn (i * nb) t1 = firstn (i * nb) t2)
                0 n (fun i buf => WriteLE nb buf (i * nb) (at_ d i)) b1 b2 ltac:(lia))
    as H.
  destruct H as (M1 & M2 & E).
  - simpl. auto.
  - intros i t1 t2 Hi (M1 & M2 & Ei).
    replace (Datatypes.S i * nb)%nat with (i * nb + nb)%nat by lia.
    apply WriteLE_prefix; try assumption. nia.
  - rewrite <- M1 in E at 1. rewrite <- M2 in E. now rewrite !firstn_all in E.
Qed.

Lemma Finalize_eq cfg (m : MuHash3072) (buf : list Byte.byte) :
  Finalize (W cfg) (L cfg) m buf =
  ({| data := normalise (W cfg) (L cfg) (data m) |},
   write_limbs (limb_bytes cfg) (L cfg) (normalise (W cfg) (L cfg) (data m)) buf).
Proof.
  unfold Finalize, normalise, write_limbs. f_equal.
  apply for_loop_ext. intros i t. destruct cfg; reflexivity.
Qed.

Lemma output_size cfg : (L cfg * limb_bytes cfg)%nat = OUTPUT_SIZE.
Proof. destruct cfg; reflexivity. Qed.

Lemma normalise_build cfg d :
  wf cfg d = true ->
  wf cfg (normalise (W cfg) (L cfg) d) = true /\
  value cfg (normalise (W cfg) (L cfg) d) = value cfg d mod PRIME /\
  value cfg (normalise (W cfg) (L cfg) d) < PRIME.
Proof.
  intros Hd. apply wf_iff in Hd. destruct Hd as [Ld Ad].
  destruct (normalise_spec _ _ (build_width cfg) (build_limbs cfg) (build_C cfg) d Ld Ad)
    as (Ln & An & En & Bn).
  rewrite build_modulus in En, Bn.
  split; [now apply wf_intro|]. split; assumption.
Qed.

Lemma value_inj cfg d1 d2 :
  wf cfg d1 = true -> wf cfg d2 = true -> value cfg d1 = value cfg d2 -> d1 = d2.
Proof.
  intros H1 H2 E. apply wf_iff in H1, H2. destruct H1 as [L1 A1], H2 as [L2 A2].
  apply (eval_inj _ (build_width cfg)); try assumption. congruence.
Qed.

Lemma normalise_canonical cfg d :
  wf cfg d = true -> value cfg d < PRIME -> normalise (W cfg) (L cfg) d = d.
Proof.
  intros Hd Hlt. destruct (normalise_build cfg d Hd) as (Wn & En & _).
  apply (value_inj cfg); try assumption. rewrite En.
  apply Z.mod_small. pose proof (value_range cfg d Hd). lia.
Qed.

(** Two accumulators that stand for the same residue have the same digest. *)
Lemma Finalize_digest_eq cfg (m m' : MuHash3072) (b b' : list Byte.byte) :
  wf cfg (data m) = true -> wf cfg (data m') = true ->
  value cfg (data m) mod PRIME = value cfg (data m') mod PRIME ->
  length b = OUTPUT_SIZE -> length b' = OUTPUT_SIZE ->
  snd (Finalize (W cfg) (L cfg) m b) = snd (Finalize (W cfg) (L cfg) m' b').
Proof.
  intros Hm Hm' E Lb Lb'. rewrite !Finalize_eq. cbn [snd].
  destruct (normalise_build cfg _ Hm) as (W1 & E1 & _).
  destruct (normalise_build cfg _ Hm') as (W2 & E2 & _).
  assert (En : normalise (W cfg) (L cfg) (data m) = normalise (W cfg) (L cfg) (data m')).
  { apply (value_inj cfg); try assumption. congruence. }
  rewrite En. apply write_limbs_ext; rewrite output_size; assumption.
Qed.

(** *** The constructors *)

Lemma ReadLE_range n buf off : 0 <= ReadLE n buf off < 2 ^ (8 * Z.of_nat n).
Proof.
  unfold ReadLE.
  apply (for_loop_inv (fun k acc => 0 <= acc < 2 ^ (8 * Z.of_nat k))); [lia| |].
  - simpl. lia.
  - intros k acc _ Hacc.
    pose proof (Byte.to_N_bounded (nth (off + k) buf Byte.x00)) as Hb.
    set (v := Z.of_N (Byte.to_N (nth (off + k) buf Byte.x00))) in *.
    assert (Hv : 0 <= v <= 255) by (subst v; lia).
    replace (8 * Z.of_nat (Datatypes.S k)) with (8 * Z.of_nat k + 8) by lia.
    rewrite Z.pow_add_r by lia. change (2 ^ 8) with 256.
    assert (0 < 2 ^ (8 * Z.of_nat k)) by (apply Z.pow_pos_nonneg; lia).
    nia.
Qed.

Lemma of_key_wf cfg ks key :
  wf cfg (data (MuHash3072_of_key (W cfg) (L cfg) ks key)) = true.
Proof.
  unfold MuHash3072_of_key. cbn [data].
  set (tmp := ks key OUTPUT_SIZE).
  assert (H : length (for_loop 0 (L cfg)
                        (fun i limbs => set_at limbs i
                           (ReadLE (limb_bytes cfg) tmp (limb_bytes cfg * i)))
                        (uninitialised (L cfg))) = L cfg /\
              forallb (is_limb (W cfg))
                (for_loop 0 (L cfg)
                   (fun i limbs => set_at limbs i
                      (ReadLE (limb_bytes cfg) tmp (limb_bytes cfg * i)))
                   (uninitialised (L cfg))) = true).
  { apply (for_loop_inv (fun _ l => length l = L cfg /\
                                    forallb (is_limb (W cfg)) l = true)); [lia| |].
    - split; [apply repeat_length | apply all_limbs_repeat_0, build_width].
    - intros i l _ [Ll Al]. split; [now rewrite length_set_at|].
      apply all_limbs_set_at; [assumption|]. apply is_limb_iff.
      pose proof (ReadLE_range (limb_bytes cfg) tmp (limb_bytes cfg * i)) as R.
      destruct cfg; exact R. }
  destruct H as [Hl Ha].
  rewrite (for_loop_ext 0 (L cfg) _
             (fun i limbs => set_at limbs i
                (ReadLE (limb_bytes cfg) tmp (limb_bytes cfg * i)))).
  - now apply wf_intro.
  - intros i t. destruct cfg; reflexivity.
Qed.

Lemma new_data cfg : data (MuHash3072_new (L cfg)) = Num3072_of_Z cfg 1.
Proof. destruct cfg; vm_compute; reflexivity. Qed.

Lemma new_wf cfg :
  wf cfg (data (MuHash3072_new (L cfg))) = true /\
  value cfg (data (MuHash3072_new (L cfg))) = 1.
Proof. rewrite new_data. destruct cfg; vm_compute; split; reflexivity. Qed.

(** ** The claims about the class *)

(** Dividing: the accumulator times the power [PRIME - 2] of the operand,
    modulo the prime. *)
Lemma div_assign_build cfg (this x : MuHash3072) :
  wf cfg (data this) = true -> wf cfg (data x) = true ->
  wf cfg (data (div_assign (W cfg) (L cfg) this x)) = true /\
  value cfg (data (div_assign (W cfg) (L cfg) this x)) mod PRIME
  = (value cfg (data this) * value cfg (data x) ^ (PRIME - 2)) mod PRIME.
Proof.
  intros Ht Hx. unfold div_assign. cbn [data].
  destruct (Inverse_build cfg (data x) Hx) as [Wi Ei].
  destruct (Multiply_build cfg (data this) _ Ht Wi) as (Wr & Er & _).
  pose proof PRIME_pos.
  split; [exact Wr|]. rewrite Er.
  rewrite <- Z.mul_mod_idemp_r, Ei, Z.mul_mod_idemp_r by lia. reflexivity.
Qed.

Lemma minus_one_power_of P k :
  2 < P -> 0 <= k -> P - 1 = 2 * k -> (P - 1) ^ (P - 1) mod P = 1.
Proof.
  intros HP Hk E. rewrite E at 2. rewrite Z.pow_mul_r by lia.
  rewrite <- Z.mod_pow_l.
  replace ((P - 1) ^ 2) with (1 + (P - 2) * P) by ring.
  rewrite Z.mod_add by lia. rewrite (Z.mod_small 1) by lia.
  rewrite Z.pow_1_l by assumption. apply Z.mod_small. lia.
Qed.

Lemma minus_one_power : (PRIME - 1) ^ (PRIME - 1) mod PRIME = 1.
Proof.
  apply (minus_one_power_of PRIME ((PRIME - 1) / 2)).
  - exact PRIME_pos.
  - vm_compute. discriminate.
  - vm_compute. reflexivity.
Qed.

(** C8: [Finalize] does not change the value of the object, the element
    of the group that its limbs stand for: on an accumulator whose limbs
    form a [Num3072] it leaves a canonical value that is congruent to the
    old one modulo the prime, and the very same limbs when the old value
    was canonical; a second call changes nothing more and writes the same
    384 bytes as the first. *)
Theorem C8_Finalize_twice cfg (this : MuHash3072) (hash384 hash384' : list Byte.byte) :
  wf cfg (data this) = true ->
  length hash384 = OUTPUT_SIZE -> length hash384' = OUTPUT_SIZE ->
  let first := Finalize (W cfg) (L cfg) this hash384 in
  let second := Finalize (W cfg) (L cfg) (fst first) hash384' in
  snd second = snd first /\
  fst second = fst first /\
  canonical cfg (data (fst first)) = true /\
  value cfg (data (fst first)) = value cfg (data this) mod PRIME /\
  (canonical cfg (data this) = true -> fst first = this).
Proof.
  intros Hm Lb Lb'. cbv zeta. rewrite !Finalize_eq. cbn [fst snd data].
  destruct (normalise_build cfg _ Hm) as (Wn & En & Bn).
  rewrite (normalise_canonical cfg _ Wn Bn).
  split; [apply write_limbs_ext; rewrite output_size; assumption|].
  split; [reflexivity|].
  split; [apply canonical_iff; split; assumption|].
  split; [exact En|].
  intros Hc. apply canonical_iff in Hc. destruct Hc as [_ Hc].
  rewrite (normalise_canonical cfg _ Hm Hc). destruct this; reflexivity.
Qed.

Lemma C8_Finalize_twice_witness :
  wf Wide (data all_ones_accumulator) = true /\
  length zero_buffer = OUTPUT_SIZE /\ length zero_buffer = OUTPUT_SIZE /\
  let first := Finalize (W Wide) (L Wide) all_ones_accumulator zero_buffer in
  let second := Finalize (W Wide) (L Wide) (fst first) zero_buffer in
  snd second = snd first /\
  fst second = fst first /\
  canonical Wide (data (fst first)) = true /\
  value Wide (data (fst first)) = value Wide (data all_ones_accumulator) mod PRIME /\
  (canonical Wide (data all_ones_accumulator) = true -> fst first = all_ones_accumulator).
Proof.
  split; [vm_compute; reflexivity|]. split; [reflexivity|]. split; [reflexivity|].
  apply (C8_Finalize_twice Wide all_ones_accumulator zero_buffer zero_buffer);
    [vm_compute; reflexivity | reflexivity | reflexivity].
Defined.

(** In the overflow window [Finalize] writes other limbs for the same
    element of the group: the accumulator of value [2^3072 - 1] holds
    [MAX_PRIME_DIFF - 1] afterwards. *)
Lemma Finalize_rewrites_limbs :
  wf Wide (data all_ones_accumulator) = true /\
  value Wide (data all_ones_accumulator) = 2 ^ 3072 - 1 /\
  value Wide (data (fst (Finalize 64 48 all_ones_accumulator zero_buffer)))
  = MAX_PRIME_DIFF - 1 /\
  fst (Finalize 64 48 all_ones_accumulator zero_buffer) <> all_ones_accumulator.
Proof.
  split; [vm_compute; reflexivity|]. split; [vm_compute; reflexivity|].
  split; [vm_compute; reflexivity|].
  vm_compute. discriminate.
Qed.

(** * Further properties *)

(** ** The limb primitives on their own *)

Lemma pow_three cfg : 2 ^ (3 * W cfg) = 2 ^ W cfg * 2 ^ W cfg * 2 ^ W cfg.
Proof.
  pose proof (build_width cfg).
  replace (3 * W cfg) with (W cfg + W cfg + W cfg) by ring.
  rewrite !Z.pow_add_r by lia. reflexivity.
Qed.

Lemma pow_two cfg : 2 ^ (2 * W cfg) = 2 ^ W cfg * 2 ^ W cfg.
Proof. apply dlimb_base. apply build_width. Qed.

(** X1: [mul] on two limbs leaves two limbs [c0], [c1] that hold the whole
    product: [c0 + 2^LIMB_SIZE * c1 = a * b], nothing is cut off. *)
Theorem X1_mul_exact cfg (a b : Z) :
  is_limb (W cfg) a = true -> is_limb (W cfg) b = true ->
  is_limb (W cfg) (fst (mul (W cfg) a b)) = true /\
  is_limb (W cfg) (snd (mul (W cfg) a b)) = true /\
  val2 (W cfg) (mul (W cfg) a b) = a * b.
Proof.
  intros Ha Hb. pose proof (build_width cfg) as Hw.
  apply is_limb_iff in Ha, Hb.
  rewrite (mul_spec _ Hw a b Ha Hb). cbn [fst snd val2].
  destruct (prod_split _ Hw a b Ha Hb) as (R0 & R1 & E).
  split; [apply is_limb_iff; exact R0|].
  split; [apply is_limb_iff; lia|].
  symmetry. exact E.
Qed.

Lemma X1_mul_exact_witness :
  is_limb 64 (2 ^ 64 - 1) = true /\ is_limb 64 (2 ^ 64 - 1) = true /\
  is_limb 64 (fst (mul 64 (2 ^ 64 - 1) (2 ^ 64 - 1))) = true /\
  is_limb 64 (snd (mul 64 (2 ^ 64 - 1) (2 ^ 64 - 1))) = true /\
  val2 64 (mul 64 (2 ^ 64 - 1) (2 ^ 64 - 1)) = (2 ^ 64 - 1) * (2 ^ 64 - 1).
Proof.
  split; [reflexivity|]. split; [reflexivity|].
  apply (X1_mul_exact Wide); reflexivity.
Defined.

(** X2: [muladd3] on a three-limb accumulator and two limbs leaves three
    limbs whose value is the old value plus [a * b], modulo
    [2^(3*LIMB_SIZE)]; the sum is exact when it fits in three limbs. *)
Theorem X2_muladd3 cfg (c : Z * Z * Z) (a b : Z) :
  is_limb3 (W cfg) c = true ->
  is_limb (W cfg) a = true -> is_limb (W cfg) b = true ->
  is_limb3 (W cfg) (muladd3 (W cfg) c a b) = true /\
  val3 (W cfg) (muladd3 (W cfg) c a b)
  = (val3 (W cfg) c + a * b) mod 2 ^ (3 * W cfg) /\
  (val3 (W cfg) c + a * b < 2 ^ (3 * W cfg) ->
   val3 (W cfg) (muladd3 (W cfg) c a b) = val3 (W cfg) c + a * b).
Proof.
  intros Hc Ha Hb. pose proof (build_width cfg) as Hw.
  apply is_limb_iff in Ha, Hb.
  destruct (muladd3_spec _ Hw c a b Hc Ha Hb) as [A E].
  rewrite pow_three. split; [exact A|]. split; [exact E|].
  intros F. rewrite E. apply Z.mod_small.
  pose proof (val3_range _ Hw c Hc). pose proof (prod_bound _ Hw a b Ha Hb). lia.
Qed.

Lemma X2_muladd3_witness :
  is_limb3 32 (2 ^ 32 - 1, 2 ^ 32 - 1, 7) = true /\
  is_limb 32 (2 ^ 32 - 1) = true /\ is_limb 32 (2 ^ 32 - 1) = true /\
  is_limb3 32 (muladd3 32 (2 ^ 32 - 1, 2 ^ 32 - 1, 7) (2 ^ 32 - 1) (2 ^ 32 - 1)) = true /\
  val3 32 (muladd3 32 (2 ^ 32 - 1, 2 ^ 32 - 1, 7) (2 ^ 32 - 1) (2 ^ 32 - 1))
  = (val3 32 (2 ^ 32 - 1, 2 ^ 32 - 1, 7) + (2 ^ 32 - 1) * (2 ^ 32 - 1)) mod 2 ^ (3 * 32) /\
  (val3 32 (2 ^ 32 - 1, 2 ^ 32 - 1, 7) + (2 ^ 32 - 1) * (2 ^ 32 - 1) < 2 ^ (3 * 32) ->
   val3 32 (muladd3 32 (2 ^ 32 - 1, 2 ^ 32 - 1, 7) (2 ^ 32 - 1) (2 ^ 32 - 1))
   = val3 32 (2 ^ 32 - 1, 2 ^ 32 - 1, 7) + (2 ^ 32 - 1) * (2 ^ 32 - 1)).
Proof.
  split; [reflexivity|]. split; [reflexivity|]. split; [reflexivity|].
  apply (X2_muladd3 Narrow); reflexivity.
Defined.

(** X3: [muldbladd3] adds twice the product [a * b] to the three-limb
    accumulator, modulo [2^(3*LIMB_SIZE)]; it is [muladd3] done twice. *)
Theorem X3_muldbladd3 cfg (c : Z * Z * Z) (a b : Z) :
  is_limb3 (W cfg) c = true ->
  is_limb (W cfg) a = true -> is_limb (W cfg) b = true ->
  is_limb3 (W cfg) (muldbladd3 (W cfg) c a b) = true /\
  val3 (W cfg) (muldbladd3 (W cfg) c a b)
  = (val3 (W cfg) c + 2 * a * b) mod 2 ^ (3 * W cfg) /\
  muldbladd3 (W cfg) c a b = muladd3 (W cfg) (muladd3 (W cfg) c a b) a b.
Proof.
  intros Hc Ha Hb. pose proof (build_width cfg) as Hw.
  apply is_limb_iff in Ha, Hb.
  destruct (muldbladd3_spec _ Hw c a b Hc Ha Hb) as [A E].
  rewrite pow_three. split; [exact A|]. split.
  - rewrite E. f_equal. ring.
  - apply muldbladd3_twice; assumption.
Qed.

Lemma X3_muldbladd3_witness :
  is_limb3 64 (2 ^ 64 - 1, 2 ^ 64 - 1, 0) = true /\
  is_limb 64 (2 ^ 64 - 1) = true /\ is_limb 64 (2 ^ 64 - 1) = true /\
  is_limb3 64 (muldbladd3 64 (2 ^ 64 - 1, 2 ^ 64 - 1, 0) (2 ^ 64 - 1) (2 ^ 64 - 1)) = true /\
  val3 64 (muldbladd3 64 (2 ^ 64 - 1, 2 ^ 64 - 1, 0) (2 ^ 64 - 1) (2 ^ 64 - 1))
  = (val3 64 (2 ^ 64 - 1, 2 ^ 64 - 1, 0) + 2 * (2 ^ 64 - 1) * (2 ^ 64 - 1)) mod 2 ^ (3 * 64) /\
  muldbladd3 64 (2 ^ 64 - 1, 2 ^ 64 - 1, 0) (2 ^ 64 - 1) (2 ^ 64 - 1)
  = muladd3 64 (muladd3 64 (2 ^ 64 - 1, 2 ^ 64 - 1, 0) (2 ^ 64 - 1) (2 ^ 64 - 1))
      (2 ^ 64 - 1) (2 ^ 64 - 1).
Proof.
  split; [reflexivity|]. split; [reflexivity|]. split; [reflexivity|].
  apply (X3_muldbladd3 Wide); reflexivity.
Defined.

(** X4: [muln2] multiplies the two-limb value [c0,c1] by the limb [n]
    modulo [2^(2*LIMB_SIZE)]: the third limb of the product is dropped, so
    the result is the product only when that fits in two limbs. *)
Theorem X4_muln2 cfg (c0 c1 n : Z) :
  is_limb (W cfg) c0 = true -> is_limb (W cfg) c1 = true ->
  is_limb (W cfg) n = true ->
  is_limb (W cfg) (fst (muln2 (W cfg) (c0, c1) n)) = true /\
  is_limb (W cfg) (snd (muln2 (W cfg) (c0, c1) n)) = true /\
  val2 (W cfg) (muln2 (W cfg) (c0, c1) n)
  = (val2 (W cfg) (c0, c1) * n) mod 2 ^ (2 * W cfg) /\
  (val2 (W cfg) (muln2 (W cfg) (c0, c1) n) = val2 (W cfg) (c0, c1) * n
   <-> val2 (W cfg) (c0, c1) * n < 2 ^ (2 * W cfg)).
Proof.
  intros H0 H1 Hn. pose proof (build_width cfg) as Hw.
  apply is_limb_iff in H0, H1, Hn.
  pose proof (muln2_spec _ Hw c0 c1 n H0 H1 Hn) as S.
  destruct (muln2 (W cfg) (c0, c1) n) as [r0 r1]. destruct S as (R0 & R1 & E).
  cbn [fst snd val2]. rewrite pow_two.
  split; [apply is_limb_iff; exact R0|].
  split; [apply is_limb_iff; exact R1|].
  split; [exact E|].
  rewrite E. pose proof (B_gt_1 _ Hw).
  assert (0 <= (c0 + 2 ^ W cfg * c1) * n) by nia.
  split.
  - intros Q. rewrite <- Q. apply Z.mod_pos_bound. nia.
  - intros Q. apply Z.mod_small. lia.
Qed.

Lemma X4_muln2_witness :
  is_limb 64 (2 ^ 64 - 1) = true /\ is_limb 64 5 = true /\
  is_limb 64 MAX_PRIME_DIFF = true /\
  is_limb 64 (fst (muln2 64 (2 ^ 64 - 1, 5) MAX_PRIME_DIFF)) = true /\
  is_limb 64 (snd (muln2 64 (2 ^ 64 - 1, 5) MAX_PRIME_DIFF)) = true /\
  val2 64 (muln2 64 (2 ^ 64 - 1, 5) MAX_PRIME_DIFF)
  = (val2 64 (2 ^ 64 - 1, 5) * MAX_PRIME_DIFF) mod 2 ^ (2 * 64) /\
  (val2 64 (muln2 64 (2 ^ 64 - 1, 5) MAX_PRIME_DIFF)
   = val2 64 (2 ^ 64 - 1, 5) * MAX_PRIME_DIFF
   <-> val2 64 (2 ^ 64 - 1, 5) * MAX_PRIME_DIFF < 2 ^ (2 * 64)).
Proof.
  split; [reflexivity|]. split; [reflexivity|]. split; [reflexivity|].
  apply (X4_muln2 Wide); reflexivity.
Defined.

(** X5: [add2] adds the limb [a] to the two-limb value [c0,c1] modulo
    [2^(2*LIMB_SIZE)], carrying from [c0] into [c1]. *)
Theorem X5_add2 cfg (c0 c1 a : Z) :
  is_limb (W cfg) c0 = true -> is_limb (W cfg) c1 = true ->
  is_limb (W cfg) a = true ->
  is_limb (W cfg) (fst (add2 (W cfg) (c0, c1) a)) = true /\
  is_limb (W cfg) (snd (add2 (W cfg) (c0, c1) a)) = true /\
  val2 (W cfg) (add2 (W cfg) (c0, c1) a)
  = (val2 (W cfg) (c0, c1) + a) mod 2 ^ (2 * W cfg).
Proof.
  intros H0 H1 Ha. pose proof (build_width cfg) as Hw.
  apply is_limb_iff in H0, H1, Ha.
  pose proof (add2_spec _ Hw c0 c1 a H0 H1 Ha) as S.
  destruct (add2 (W cfg) (c0, c1) a) as [r0 r1]. destruct S as (R0 & R1 & E).
  cbn [fst snd val2]. rewrite pow_two.
  split; [apply is_limb_iff; exact R0|].
  split; [apply is_limb_iff; exact R1|].
  exact E.
Qed.

Lemma X5_add2_witness :
  is_limb 32 (2 ^ 32 - 1) = true /\ is_limb 32 (2 ^ 32 - 1) = true /\
  is_limb 32 (2 ^ 32 - 1) = true /\
  is_limb 32 (fst (add2 32 (2 ^ 32 - 1, 2 ^ 32 - 1) (2 ^ 32 - 1))) = true /\
  is_limb 32 (snd (add2 32 (2 ^ 32 - 1, 2 ^ 32 - 1) (2 ^ 32 - 1))) = true /\
  val2 32 (add2 32 (2 ^ 32 - 1, 2 ^ 32 - 1) (2 ^ 32 - 1))
  = (val2 32 (2 ^ 32 - 1, 2 ^ 32 - 1) + (2 ^ 32 - 1)) mod 2 ^ (2 * 32).
Proof.
  split; [reflexivity|]. split; [reflexivity|]. split; [reflexivity|].
  apply (X5_add2 Narrow); reflexivity.
Defined.

(** ** [Multiply] as a function of the product *)

Lemma sum_to_rev n : forall f, sum_to n f = sum_to n (fun i => f (n - 1 - i)%nat).
Proof.
  induction n as [|n IH]; intros f; [reflexivity|].
  rewrite sum_to_shift. cbn [sum_to].
  replace (S n - 1 - n)%nat with 0%nat by lia.
  rewrite (IH (fun i => f (S i))).
  rewrite Z.add_comm. f_equal. apply sum_to_ext. intros i Hi.
  f_equal. lia.
Qed.

Lemma column_comm a b k : column a b k = column b a k.
Proof.
  unfold column. rewrite sum_to_rev. apply sum_to_ext. intros i Hi.
  replace (k - (S k - 1 - i))%nat with i by lia.
  replace (S k - 1 - i)%nat with (k - i)%nat by lia. ring.
Qed.

Lemma low_part_comm w N a b : low_part w N a b = low_part w N b a.
Proof.
  unfold low_part. apply sum_to_ext. intros k _. now rewrite column_comm.
Qed.

Lemma high_part_comm w N a b : high_part w N a b = high_part w N b a.
Proof.
  unfold high_part. apply sum_to_ext. intros k _. now rewrite column_comm.
Qed.

(** Quotient and remainder from a decomposition. *)
Lemma div_mod_of p q r x : 0 <= r < p -> r + p * q = x -> q = x / p /\ r = x mod p.
Proof.
  intros Hr E. subst x. rewrite Z.add_comm, Z.mul_comm. split.
  - rewrite Z.div_add_l by lia. rewrite Z.div_small by lia. lia.
  - rewrite Z.add_comm, Z.mod_add by lia. now rewrite Z.mod_small.
Qed.

Section MultiplyValue.

Variable w : Z.
Variable N : nat.
Hypothesis Hok : config_ok w N = true.

Local Abbreviation C := MAX_PRIME_DIFF.
Local Abbreviation p := ((2 ^ w) ^ Z.of_nat N).

Variables a b : Num3072.
Hypothesis La : length a = N.
Hypothesis Lb : length b = N.
Hypothesis Ha : forallb (is_limb w) a = true.
Hypothesis Hb : forallb (is_limb w) b = true.

(** The value that [Multiply] leaves, from the two parts of the
    product: fold the high part once, fold the carry of that once, and
    add [MAX_PRIME_DIFF] for the last carry bit. *)
Lemma Multiply_value :
  let F := low_part w N a b + C * high_part w N a b in
  let G := F mod p + C * (F / p) in
  eval w (Multiply w N a b) = G mod p + G / p * C.
Proof.
  cbv zeta.
  assert (Hw : 0 < w).
  { unfold config_ok in Hok. rewrite !andb_true_iff in Hok.
    destruct Hok as [[[[H _] _] _] _]. now apply Z.ltb_lt in H. }
  destruct (Multiply_residual_spec w N Hok a b La Lb Ha Hb)
    as (c0 & c1 & tmp & r0 & out & E1 & _ & _ & Lo & Ao & _ & _ & E2 & E3 & _ & _ & E4).
  destruct (Multiply_product_spec w N Hok a b La Lb Ha Hb)
    as (c0' & c1' & tmp' & E1' & _ & _ & Lt & At & _).
  rewrite E1 in E1'. injection E1' as <- <- <-.
  pose proof (eval_range w Hw tmp At) as Rt. rewrite Lt in Rt.
  pose proof (eval_range w Hw out Ao) as Ro. rewrite Lo in Ro.
  destruct (div_mod_of p _ _ _ Rt E3) as [Q1 Q2].
  rewrite <- Q1, <- Q2.
  destruct (div_mod_of p _ _ _ Ro E2) as [Q3 Q4].
  rewrite <- Q3, <- Q4. exact E4.
Qed.

End MultiplyValue.

Lemma Multiply_comm_build cfg a b :
  wf cfg a = true -> wf cfg b = true ->
  Multiply (W cfg) (L cfg) a b = Multiply (W cfg) (L cfg) b a.
Proof.
  intros Ha Hb.
  destruct (Multiply_build cfg a b Ha Hb) as (W1 & _).
  destruct (Multiply_build cfg b a Hb Ha) as (W2 & _).
  apply (value_inj cfg); try assumption.
  apply wf_iff in Ha, Hb. destruct Ha as [La Aa], Hb as [Lb Ab].
  unfold value.
  rewrite (Multiply_value _ _ (build_ok cfg) a b La Lb Aa Ab).
  rewrite (Multiply_value _ _ (build_ok cfg) b a Lb La Ab Aa).
  cbv zeta. now rewrite (low_part_comm _ _ a b), (high_part_comm _ _ a b).
Qed.

Lemma Multiply_exact_build cfg a b :
  wf cfg a = true -> wf cfg b = true ->
  value cfg a * value cfg b < 2 ^ 3072 ->
  value cfg (Multiply (W cfg) (L cfg) a b) = value cfg a * value cfg b.
Proof.
  intros Ha Hb Hp.
  apply wf_iff in Ha, Hb. destruct Ha as [La Aa], Hb as [Lb Ab].
  unfold value in *.
  rewrite (Multiply_value _ _ (build_ok cfg) a b La Lb Aa Ab). cbv zeta.
  pose proof (product_parts _ _ (build_ok cfg) a b La Lb) as E.
  pose proof (high_part_nonneg _ _ (build_ok cfg) a b La Lb Aa Ab) as Hh.
  pose proof (low_part_nonneg _ _ (build_ok cfg) a b La Lb Aa Ab) as Hl.
  rewrite build_power in *.
  assert (high_part (W cfg) (L cfg) a b = 0) as Z0.
  { assert (0 < 2 ^ 3072) by (apply Z.pow_pos_nonneg; lia). nia. }
  rewrite Z0 in *. rewrite Z.mul_0_r, Z.add_0_r in *.
  rewrite (Z.mod_small (low_part _ _ a b)) by lia.
  rewrite (Z.div_small (low_part _ _ a b)) by lia.
  rewrite Z.mul_0_r, Z.add_0_r.
  rewrite Z.mod_small, Z.div_small by lia. lia.
Qed.

Lemma Multiply_one_r cfg d :
  wf cfg d = true ->
  Multiply (W cfg) (L cfg) d (data (MuHash3072_new (L cfg))) = d.
Proof.
  intros Hx. destruct (new_wf cfg) as [Hn Vn].
  destruct (Multiply_build cfg d _ Hx Hn) as (Wr & _).
  apply (value_inj cfg); try assumption.
  rewrite Multiply_exact_build; try assumption.
  - rewrite Vn. ring.
  - rewrite Vn. pose proof (value_range cfg d Hx). lia.
Qed.

Lemma mul_assign_new_r cfg (x : MuHash3072) :
  wf cfg (data x) = true ->
  mul_assign (W cfg) (L cfg) x (MuHash3072_new (L cfg)) = x.
Proof.
  intros Hx. destruct x as [d]. unfold mul_assign. cbn [data] in *.
  now rewrite Multiply_one_r.
Qed.

Lemma mul_assign_new_l cfg (x : MuHash3072) :
  wf cfg (data x) = true ->
  mul_assign (W cfg) (L cfg) (MuHash3072_new (L cfg)) x = x.
Proof.
  intros Hx. destruct (new_wf cfg) as [Hn Vn].
  destruct x as [d]. unfold mul_assign. cbn [data] in *.
  rewrite Multiply_comm_build by assumption. now rewrite Multiply_one_r.
Qed.

(** ** Commutativity, exact products and the neutral element *)

(** X6: [Multiply] is commutative limb for limb on arrays of limbs, and
    so is [operator*=] on the accumulators. *)
Theorem X6_Multiply_commutative cfg (a b : Num3072) :
  wf cfg a = true -> wf cfg b = true ->
  Multiply (W cfg) (L cfg) a b = Multiply (W cfg) (L cfg) b a /\
  mul_assign (W cfg) (L cfg) {| data := a |} {| data := b |}
  = mul_assign (W cfg) (L cfg) {| data := b |} {| data := a |}.
Proof.
  intros Ha Hb. pose proof (Multiply_comm_build cfg a b Ha Hb) as E.
  split; [exact E|]. unfold mul_assign. cbn [data]. now rewrite E.
Qed.

Lemma X6_Multiply_commutative_witness :
  wf Wide (Num3072_of_Z Wide (2 ^ 3072 - 1)) = true /\
  wf Wide (Num3072_of_Z Wide (PRIME - 1)) = true /\
  Multiply 64 48 (Num3072_of_Z Wide (2 ^ 3072 - 1)) (Num3072_of_Z Wide (PRIME - 1))
  = Multiply 64 48 (Num3072_of_Z Wide (PRIME - 1)) (Num3072_of_Z Wide (2 ^ 3072 - 1)) /\
  mul_assign 64 48 {| data := Num3072_of_Z Wide (2 ^ 3072 - 1) |}
    {| data := Num3072_of_Z Wide (PRIME - 1) |}
  = mul_assign 64 48 {| data := Num3072_of_Z Wide (PRIME - 1) |}
      {| data := Num3072_of_Z Wide (2 ^ 3072 - 1) |}.
Proof.
  split; [vm_compute; reflexivity|]. split; [vm_compute; reflexivity|].
  apply (X6_Multiply_commutative Wide); vm_compute; reflexivity.
Defined.

(** X7: [Multiply] leaves the plain integer product, without any
    reduction, exactly when that product is below [2^3072]; this holds
    also for a product between the prime and [2^3072]. *)
Theorem X7_Multiply_exact cfg (a b : Num3072) :
  wf cfg a = true -> wf cfg b = true ->
  (value cfg (Multiply (W cfg) (L cfg) a b) = value cfg a * value cfg b
   <-> value cfg a * value cfg b < 2 ^ 3072).
Proof.
  intros Ha Hb. split.
  - intros E. rewrite <- E.
    destruct (Multiply_build cfg a b Ha Hb) as (Wr & _).
    apply (value_range cfg _ Wr).
  - now apply Multiply_exact_build.
Qed.

Lemma X7_Multiply_exact_witness :
  wf Narrow (Num3072_of_Z Narrow (2 ^ 1536)) = true /\
  wf Narrow (Num3072_of_Z Narrow (2 ^ 1536 - 1)) = true /\
  (value Narrow (Multiply 32 96 (Num3072_of_Z Narrow (2 ^ 1536))
                   (Num3072_of_Z Narrow (2 ^ 1536 - 1)))
   = value Narrow (Num3072_of_Z Narrow (2 ^ 1536))
     * value Narrow (Num3072_of_Z Narrow (2 ^ 1536 - 1))
   <-> value Narrow (Num3072_of_Z Narrow (2 ^ 1536))
       * value Narrow (Num3072_of_Z Narrow (2 ^ 1536 - 1)) < 2 ^ 3072).
Proof.
  split; [vm_compute; reflexivity|]. split; [vm_compute; reflexivity|].
  apply (X7_Multiply_exact Narrow); vm_compute; reflexivity.
Defined.

(** X8: the accumulator of the empty set is neutral for [operator*=]:
    multiplying any accumulator by it, or it by any accumulator, gives the
    limbs of that accumulator unchanged, canonical or not. *)
Theorem X8_empty_set_neutral cfg (x : MuHash3072) :
  wf cfg (data x) = true ->
  mul_assign (W cfg) (L cfg) x (MuHash3072_new (L cfg)) = x /\
  mul_assign (W cfg) (L cfg) (MuHash3072_new (L cfg)) x = x.
Proof.
  intros Hx. split.
  - now apply mul_assign_new_r.
  - now apply mul_assign_new_l.
Qed.

Lemma X8_empty_set_neutral_witness :
  wf Wide (data all_ones_accumulator) = true /\
  mul_assign 64 48 all_ones_accumulator (MuHash3072_new 48) = all_ones_accumulator /\
  mul_assign 64 48 (MuHash3072_new 48) all_ones_accumulator = all_ones_accumulator.
Proof.
  split; [vm_compute; reflexivity|].
  apply (X8_empty_set_neutral Wide); vm_compute; reflexivity.
Defined.

(** ** What [Inverse] preserves *)

Section InverseClosed.

Variable w : Z.
Variable N : nat.
Variable Q : Num3072 -> Prop.
Hypothesis QS : forall x, Q x -> Q (Square w N x).
Hypothesis QM : forall x y, Q x -> Q y -> Q (Multiply w N x y).

Lemma Square_times_closed n x : Q x -> Q (Square_times w N n x).
Proof.
  intros Hx. unfold Square_times.
  apply (for_loop_inv (fun _ y => Q y)); [lia | exact Hx |].
  intros i t _ Ht. now apply QS.
Qed.

Lemma Inverse_table_closed a :
  Q a ->
  forall k, (k <= 11)%nat -> Q (nth k (Inverse_table w N a) []).
Proof.
  intros Ha.
  assert (length (Inverse_table w N a) = 12%nat /\
          forall k, (k <= 11)%nat -> Q (nth k (Inverse_table w N a) [])) as [_ H];
    [|exact H].
  unfold Inverse_table.
  apply (for_loop_inv
           (fun i p => length p = 12%nat /\
                       forall k, (k <= i)%nat -> Q (nth k p []))); [lia| |].
  - split; [reflexivity|]. intros k Hk. replace k with O by lia. exact Ha.
  - intros i p Hi (Lp & Hp). unfold Inverse_table_step.
    split; [now rewrite length_set_at|].
    intros k Hk. destruct (Nat.eq_dec k (i + 1)) as [-> | Hne].
    + rewrite nth_set_at_same by lia.
      apply QM; [apply Square_times_closed|]; apply Hp; lia.
    + rewrite nth_set_at_other by lia. apply Hp. lia.
Qed.

(** Whatever [Square] and [Multiply] preserve, [Inverse] preserves. *)
Lemma Inverse_closed a : Q a -> Q (Inverse w N a).
Proof.
  intros Ha. pose proof (Inverse_table_closed a Ha) as Hp.
  unfold Inverse. cbv zeta.
  repeat (apply QM; [apply Square_times_closed | apply Hp; lia]).
  apply Hp. lia.
Qed.

End InverseClosed.

(** A power of a multiple of [P] is a multiple of [P]. *)
Lemma pow_multiple P k x : 0 < P -> 1 <= k -> x mod P = 0 -> x ^ k mod P = 0.
Proof.
  intros HP Hk Hx. replace k with (Z.succ (k - 1)) by lia.
  rewrite Z.pow_succ_r by lia.
  rewrite Z.mul_mod by lia. rewrite Hx, Z.mul_0_l. apply Z.mod_0_l. lia.
Qed.

Lemma mul_assign_build cfg (this x : MuHash3072) :
  wf cfg (data this) = true -> wf cfg (data x) = true ->
  wf cfg (data (mul_assign (W cfg) (L cfg) this x)) = true /\
  value cfg (data (mul_assign (W cfg) (L cfg) this x)) mod PRIME
  = (value cfg (data this) * value cfg (data x)) mod PRIME.
Proof.
  intros Ht Hx. unfold mul_assign. cbn [data].
  destruct (Multiply_build cfg _ _ Ht Hx) as (A & B & _). now split.
Qed.

Lemma Inverse_one cfg :
  Inverse (W cfg) (L cfg) (Num3072_of_Z cfg 1) = Num3072_of_Z cfg 1.
Proof.
  destruct (new_wf cfg) as [Hn Vn]. rewrite new_data in Hn, Vn.
  assert (M : Multiply (W cfg) (L cfg) (Num3072_of_Z cfg 1) (Num3072_of_Z cfg 1)
              = Num3072_of_Z cfg 1).
  { destruct (Multiply_build cfg _ _ Hn Hn) as (Wr & _).
    apply (value_inj cfg); try assumption.
    rewrite Multiply_exact_build; try assumption; rewrite Vn; [reflexivity|].
    pose proof (value_range cfg _ Hn). lia. }
  apply (Inverse_closed _ _ (fun x => x = Num3072_of_Z cfg 1)).
  - intros x ->. rewrite Square_build by assumption. exact M.
  - intros x y -> ->. exact M.
  - reflexivity.
Qed.

(** ** Dividing by the empty set, and by an operand without inverse *)

(** X9: dividing by the accumulator of the empty set changes nothing:
    [Inverse] of it is the same array of limbs, and [operator/=] leaves
    the limbs of any accumulator as they were. *)
Theorem X9_divide_by_empty_set cfg (x : MuHash3072) :
  wf cfg (data x) = true ->
  Inverse (W cfg) (L cfg) (data (MuHash3072_new (L cfg))) = data (MuHash3072_new (L cfg)) /\
  div_assign (W cfg) (L cfg) x (MuHash3072_new (L cfg)) = x.
Proof.
  intros Hx. rewrite new_data. split; [apply Inverse_one|].
  pose proof (mul_assign_new_r cfg x Hx) as E.
  unfold div_assign, mul_assign in *. rewrite new_data in *.
  now rewrite Inverse_one.
Qed.

Lemma X9_divide_by_empty_set_witness :
  wf Narrow (data {| data := Num3072_of_Z Narrow (2 ^ 3072 - 1) |}) = true /\
  Inverse 32 96 (data (MuHash3072_new 96)) = data (MuHash3072_new 96) /\
  div_assign 32 96 {| data := Num3072_of_Z Narrow (2 ^ 3072 - 1) |} (MuHash3072_new 96)
  = {| data := Num3072_of_Z Narrow (2 ^ 3072 - 1) |}.
Proof.
  split; [vm_compute; reflexivity|].
  apply (X9_divide_by_empty_set Narrow); vm_compute; reflexivity.
Defined.

(** X10: an operand whose value is a multiple of the prime (0, or the
    prime itself) has no inverse, and [operator/=] does not notice: the
    quotient is again an array of limbs, with a value that is a multiple
    of the prime.  Such a value absorbs: multiplying it, or dividing it,
    by any accumulator leaves a multiple of the prime, and so does
    multiplying any accumulator by it. *)
Theorem X10_no_inverse_absorbs cfg (this x : MuHash3072) :
  wf cfg (data this) = true -> wf cfg (data x) = true ->
  value cfg (data x) mod PRIME = 0 ->
  (wf cfg (data (div_assign (W cfg) (L cfg) this x)) = true /\
   value cfg (data (div_assign (W cfg) (L cfg) this x)) mod PRIME = 0) /\
  value cfg (data (mul_assign (W cfg) (L cfg) this x)) mod PRIME = 0 /\
  value cfg (data (mul_assign (W cfg) (L cfg) x this)) mod PRIME = 0 /\
  value cfg (data (div_assign (W cfg) (L cfg) x this)) mod PRIME = 0.
Proof.
  intros Ht Hx Z0. pose proof PRIME_pos as HP.
  destruct (div_assign_build cfg this x Ht Hx) as [A1 E1].
  destruct (div_assign_build cfg x this Hx Ht) as [A2 E2].
  destruct (mul_assign_build cfg this x Ht Hx) as [A3 E3].
  destruct (mul_assign_build cfg x this Hx Ht) as [A4 E4].
  assert (forall y, (value cfg (data x) * y) mod PRIME = 0) as Zl.
  { intros y. rewrite Z.mul_mod by lia. rewrite Z0, Z.mul_0_l. apply Z.mod_0_l. lia. }
  assert (forall y, (y * value cfg (data x)) mod PRIME = 0) as Zr.
  { intros y. rewrite Z.mul_comm. apply Zl. }
  split; [split; [exact A1|]|].
  - rewrite E1. rewrite Z.mul_mod by lia.
    rewrite (pow_multiple PRIME (PRIME - 2)) by (assumption || lia).
    rewrite Z.mul_0_r. apply Z.mod_0_l. lia.
  - rewrite E3, E4, E2. auto.
Qed.

Lemma X10_no_inverse_absorbs_witness :
  wf Wide (data (MuHash3072_new 48)) = true /\
  wf Wide (data prime_accumulator) = true /\
  value Wide (data prime_accumulator) mod PRIME = 0 /\
  (wf Wide (data (div_assign 64 48 (MuHash3072_new 48) prime_accumulator)) = true /\
   value Wide (data (div_assign 64 48 (MuHash3072_new 48) prime_accumulator)) mod PRIME = 0) /\
  value Wide (data (mul_assign 64 48 (MuHash3072_new 48) prime_accumulator)) mod PRIME = 0 /\
  value Wide (data (mul_assign 64 48 prime_accumulator (MuHash3072_new 48))) mod PRIME = 0 /\
  value Wide (data (div_assign 64 48 prime_accumulator (MuHash3072_new 48))) mod PRIME = 0.
Proof.
  split; [vm_compute; reflexivity|]. split; [vm_compute; reflexivity|].
  split; [vm_compute; reflexivity|].
  apply (X10_no_inverse_absorbs Wide); vm_compute; reflexivity.
Defined.

(** ** Sequences of updates *)

(** Accumulators with congruent values have the same digest. *)
Lemma digest_congr cfg (m m' : MuHash3072) :
  wf cfg (data m) = true -> wf cfg (data m') = true ->
  value cfg (data m) mod PRIME = value cfg (data m') mod PRIME ->
  digest cfg m = digest cfg m'.
Proof.
  intros Hm Hm' E. unfold digest.
  apply Finalize_digest_eq; try assumption; reflexivity.
Qed.

Lemma apply_update_build cfg acc u :
  wf cfg (data acc) = true -> wf cfg (data (operand u)) = true ->
  wf cfg (data (apply_update cfg acc u)) = true /\
  value cfg (data (apply_update cfg acc u)) mod PRIME
  = (value cfg (data acc) * factor cfg u) mod PRIME.
Proof.
  intros Ha Hu. destruct u as [x | x]; cbn [apply_update factor operand] in *.
  - now apply mul_assign_build.
  - now apply div_assign_build.
Qed.

Lemma apply_updates_build cfg us :
  forall acc,
    wf cfg (data acc) = true ->
    forallb (fun u => wf cfg (data (operand u))) us = true ->
    wf cfg (data (apply_updates cfg acc us)) = true /\
    value cfg (data (apply_updates cfg acc us)) mod PRIME
    = (value cfg (data acc) * factors cfg us) mod PRIME.
Proof.
  pose proof PRIME_pos as HP.
  induction us as [|u us IH]; intros acc Ha Hus.
  - cbn. split; [assumption|]. now rewrite Z.mul_1_r.
  - cbn [forallb] in Hus. apply andb_true_iff in Hus. destruct Hus as [Hu Hus].
    destruct (apply_update_build cfg acc u Ha Hu) as [A E].
    destruct (IH _ A Hus) as [A' E'].
    unfold apply_updates in *. cbn [fold_left factors fold_right].
    split; [exact A'|]. rewrite E'.
    rewrite Z.mul_mod, E, <- Z.mul_mod by lia. f_equal.
    fold (factors cfg us). ring.
Qed.

Lemma factors_app cfg us1 us2 :
  factors cfg (us1 ++ us2) = factors cfg us1 * factors cfg us2.
Proof.
  induction us1 as [|u us IH]; cbn [app factors fold_right].
  - fold (factors cfg us2). ring.
  - fold (factors cfg (us ++ us2)) (factors cfg us). rewrite IH. ring.
Qed.

Lemma factors_perm cfg us us' :
  Permutation us us' -> factors cfg us = factors cfg us'.
Proof.
  induction 1; cbn [factors fold_right]; try congruence.
  - fold (factors cfg l) (factors cfg l'). now rewrite IHPermutation.
  - ring.
Qed.

Lemma forallb_perm {A : Type} (f : A -> bool) l l' :
  Permutation l l' -> forallb f l = true -> forallb f l' = true.
Proof.
  intros Hp H. rewrite forallb_forall in *. intros x Hx. apply H.
  apply Permutation_sym in Hp. now apply (Permutation_in x Hp).
Qed.

(** X11: the digest after a sequence of [*=] and [/=] updates does not
    depend on the order of the updates. *)
Theorem X11_order_of_updates cfg (acc : MuHash3072) (us us' : list update) :
  wf cfg (data acc) = true ->
  forallb (fun u => wf cfg (data (operand u))) us = true ->
  Permutation us us' ->
  digest cfg (apply_updates cfg acc us) = digest cfg (apply_updates cfg acc us').
Proof.
  intros Ha Hus Hp. pose proof (forallb_perm _ _ _ Hp Hus) as Hus'.
  destruct (apply_updates_build cfg us acc Ha Hus) as [A E].
  destruct (apply_updates_build cfg us' acc Ha Hus') as [A' E'].
  apply digest_congr; try assumption.
  rewrite E, E'. now rewrite (factors_perm cfg us us' Hp).
Qed.

Lemma X11_order_of_updates_witness :
  wf Wide (data (MuHash3072_new 48)) = true /\
  forallb (fun u => wf Wide (data (operand u)))
    [Times all_ones_accumulator; Over prime_accumulator; Times (MuHash3072_new 48)] = true /\
  Permutation
    [Times all_ones_accumulator; Over prime_accumulator; Times (MuHash3072_new 48)]
    [Over prime_accumulator; Times (MuHash3072_new 48); Times all_ones_accumulator] /\
  digest Wide (apply_updates Wide (MuHash3072_new 48)
                 [Times all_ones_accumulator; Over prime_accumulator; Times (MuHash3072_new 48)])
  = digest Wide (apply_updates Wide (MuHash3072_new 48)
                   [Over prime_accumulator; Times (MuHash3072_new 48); Times all_ones_accumulator]).
Proof.
  assert (P : Permutation
    [Times all_ones_accumulator; Over prime_accumulator; Times (MuHash3072_new 48)]
    [Over prime_accumulator; Times (MuHash3072_new 48); Times all_ones_accumulator]).
  { exact (Permutation_cons_append
             [Over prime_accumulator; Times (MuHash3072_new 48)]
             (Times all_ones_accumulator)). }
  split; [vm_compute; reflexivity|]. split; [vm_compute; reflexivity|].
  split; [exact P|].
  apply (X11_order_of_updates Wide); [vm_compute; reflexivity | vm_compute; reflexivity | exact P].
Defined.

(** X12: updates can be split between two accumulators and combined
    later: applying [us1 ++ us2] to [acc] gives the digest of [acc] after
    [us1], multiplied by a fresh accumulator after [us2]. *)
Theorem X12_updates_in_parallel cfg (acc : MuHash3072) (us1 us2 : list update) :
  wf cfg (data acc) = true ->
  forallb (fun u => wf cfg (data (operand u))) us1 = true ->
  forallb (fun u => wf cfg (data (operand u))) us2 = true ->
  digest cfg (apply_updates cfg acc (us1 ++ us2))
  = digest cfg (mul_assign (W cfg) (L cfg)
                  (apply_updates cfg acc us1)
                  (apply_updates cfg (MuHash3072_new (L cfg)) us2)).
Proof.
  intros Ha H1 H2. pose proof PRIME_pos as HP.
  destruct (new_wf cfg) as [Hn Vn].
  assert (H12 : forallb (fun u => wf cfg (data (operand u))) (us1 ++ us2) = true).
  { rewrite forallb_app. now rewrite H1, H2. }
  destruct (apply_updates_build cfg _ acc Ha H12) as [A E].
  destruct (apply_updates_build cfg _ acc Ha H1) as [A1 E1].
  destruct (apply_updates_build cfg _ _ Hn H2) as [A2 E2].
  destruct (mul_assign_build cfg _ _ A1 A2) as [A3 E3].
  apply digest_congr; try assumption.
  rewrite E, E3. rewrite (Z.mul_mod (value cfg (data (apply_updates cfg acc us1)))) by lia.
  rewrite E1, E2, <- Z.mul_mod by lia. rewrite Vn, factors_app. f_equal. ring.
Qed.

Lemma X12_updates_in_parallel_witness :
  wf Narrow (data (MuHash3072_new 96)) = true /\
  forallb (fun u => wf Narrow (data (operand u)))
    [Times {| data := Num3072_of_Z Narrow 5 |}] = true /\
  forallb (fun u => wf Narrow (data (operand u)))
    [Over {| data := Num3072_of_Z Narrow 7 |}] = true /\
  digest Narrow (apply_updates Narrow (MuHash3072_new 96)
                   ([Times {| data := Num3072_of_Z Narrow 5 |}]
                      ++ [Over {| data := Num3072_of_Z Narrow 7 |}]))
  = digest Narrow (mul_assign 32 96
                     (apply_updates Narrow (MuHash3072_new 96)
                        [Times {| data := Num3072_of_Z Narrow 5 |}])
                     (apply_updates Narrow (MuHash3072_new 96)
                        [Over {| data := Num3072_of_Z Narrow 7 |}])).
Proof.
  split; [vm_compute; reflexivity|]. split; [vm_compute; reflexivity|].
  split; [vm_compute; reflexivity|].
  apply (X12_updates_in_parallel Narrow); vm_compute; reflexivity.
Defined.

(** X13: removing an element that was added, or adding one that was
    removed, restores the digest, for every element whose value [v]
    satisfies Fermat's congruence [v^(PRIME - 1) = 1] modulo the prime. *)
Theorem X13_add_then_remove cfg (acc x : MuHash3072) :
  wf cfg (data acc) = true -> wf cfg (data x) = true ->
  value cfg (data x) ^ (PRIME - 1) mod PRIME = 1 ->
  digest cfg (div_assign (W cfg) (L cfg) (mul_assign (W cfg) (L cfg) acc x) x)
  = digest cfg acc /\
  digest cfg (mul_assign (W cfg) (L cfg) (div_assign (W cfg) (L cfg) acc x) x)
  = digest cfg acc.
Proof.
  intros Ha Hx F. pose proof PRIME_pos as HP.
  destruct (mul_assign_build cfg acc x Ha Hx) as [A1 E1].
  destruct (div_assign_build cfg _ x A1 Hx) as [A2 E2].
  destruct (div_assign_build cfg acc x Ha Hx) as [A3 E3].
  destruct (mul_assign_build cfg _ x A3 Hx) as [A4 E4].
  assert (K : forall a v, v ^ (PRIME - 1) mod PRIME = 1 ->
                          (a * (v * v ^ (PRIME - 2))) mod PRIME = a mod PRIME).
  { intros a v Fv. rewrite <- Z.pow_succ_r by lia.
    replace (Z.succ (PRIME - 2)) with (PRIME - 1) by lia.
    rewrite Z.mul_mod, Fv, Z.mul_1_r, Z.mod_mod by lia. reflexivity. }
  split; apply digest_congr; try assumption.
  - rewrite E2. rewrite Z.mul_mod, E1, <- Z.mul_mod by lia.
    rewrite <- Z.mul_assoc. now apply K.
  - rewrite E4. rewrite Z.mul_mod, E3, <- Z.mul_mod by lia.
    rewrite <- Z.mul_assoc, (Z.mul_comm (_ ^ _)). now apply K.
Qed.

Lemma X13_add_then_remove_witness :
  wf Wide (data all_ones_accumulator) = true /\
  wf Wide (data (MuHash3072_of_key 64 48 minus_one_keystream zero_key)) = true /\
  value Wide (data (MuHash3072_of_key 64 48 minus_one_keystream zero_key))
    ^ (PRIME - 1) mod PRIME = 1 /\
  digest Wide (div_assign 64 48
                 (mul_assign 64 48 all_ones_accumulator
                    (MuHash3072_of_key 64 48 minus_one_keystream zero_key))
                 (MuHash3072_of_key 64 48 minus_one_keystream zero_key))
  = digest Wide all_ones_accumulator /\
  digest Wide (mul_assign 64 48
                 (div_assign 64 48 all_ones_accumulator
                    (MuHash3072_of_key 64 48 minus_one_keystream zero_key))
                 (MuHash3072_of_key 64 48 minus_one_keystream zero_key))
  = digest Wide all_ones_accumulator.
Proof.
  assert (V : value Wide (data (MuHash3072_of_key 64 48 minus_one_keystream zero_key))
              = PRIME - 1) by (vm_compute; reflexivity).
  assert (F : value Wide (data (MuHash3072_of_key 64 48 minus_one_keystream zero_key))
                ^ (PRIME - 1) mod PRIME = 1).
  { rewrite V. exact minus_one_power. }
  split; [vm_compute; reflexivity|]. split; [vm_compute; reflexivity|].
  split; [exact F|].
  apply (X13_add_then_remove Wide); [vm_compute; reflexivity | vm_compute; reflexivity | exact F].
Defined.

(** ** Bytes and limbs *)

Local Abbreviation bv b := (Z.of_N (Byte.to_N b)).

Lemma bv_range b : 0 <= bv b < 256.
Proof. pose proof (Byte.to_N_bounded b). lia. Qed.

Lemma bv_inj b b' : bv b = bv b' -> b = b'.
Proof.
  intros E. apply N2Z.inj in E.
  pose proof (Byte.of_to_N b) as H. rewrite E, Byte.of_to_N in H. congruence.
Qed.

Lemma byte_of_Z_value x : bv (byte_of_Z x) = x mod 256.
Proof.
  pose proof (Z.mod_pos_bound x 256 ltac:(lia)) as R.
  unfold byte_of_Z. destruct (Byte.of_N (Z.to_N (x mod 256))) eqn:E.
  - apply Byte.to_of_N in E. rewrite E. lia.
  - apply Byte.of_N_None_iff in E. lia.
Qed.

Lemma ReadLE_sum n buf off :
  ReadLE n buf off
  = sum_to n (fun k => bv (nth (off + k) buf Byte.x00) * 2 ^ (8 * Z.of_nat k)).
Proof.
  unfold ReadLE. induction n as [|n IH]; [reflexivity|].
  rewrite for_loop_snoc by lia. rewrite IH. reflexivity.
Qed.

(** The bytes of a number, put together again. *)
Lemma bytes_sum n x :
  0 <= x ->
  sum_to n (fun k => (Z.shiftr x (8 * Z.of_nat k) mod 256) * 2 ^ (8 * Z.of_nat k))
  = x mod 2 ^ (8 * Z.of_nat n).
Proof.
  intros Hx. induction n as [|n IH].
  - cbn [sum_to]. change (8 * Z.of_nat 0) with 0. now rewrite Z.pow_0_r, Z.mod_1_r.
  - cbn [sum_to]. rewrite IH.
    replace (8 * Z.of_nat (S n)) with (8 * Z.of_nat n + 8) by lia.
    rewrite Z.pow_add_r by lia. change (2 ^ 8) with 256.
    assert (0 < 2 ^ (8 * Z.of_nat n)) by (apply Z.pow_pos_nonneg; lia).
    rewrite Z.rem_mul_r by lia. rewrite Z.shiftr_div_pow2 by lia. ring.
Qed.

Lemma WriteLE_nth nb (buf : list Byte.byte) off x :
  (off + nb <= length buf)%nat ->
  length (WriteLE nb buf off x) = length buf /\
  (forall k, (k < nb)%nat ->
             nth (off + k) (WriteLE nb buf off x) Byte.x00
             = byte_of_Z (Z.shiftr x (8 * Z.of_nat k))) /\
  (forall j, ~ (off <= j < off + nb)%nat ->
             nth j (WriteLE nb buf off x) Byte.x00 = nth j buf Byte.x00).
Proof.
  intros Hl. unfold WriteLE.
  apply (for_loop_inv
           (fun n (t : list Byte.byte) =>
              (n <= nb)%nat ->
              length t = length buf /\
              (forall k, (k < n)%nat ->
                         nth (off + k) t Byte.x00
                         = byte_of_Z (Z.shiftr x (8 * Z.of_nat k))) /\
              (forall j, ~ (off <= j < off + n)%nat ->
                         nth j t Byte.x00 = nth j buf Byte.x00))); [lia| | |lia].
  - intros _. split; [reflexivity|]. split; [intros k Hk; lia|]. reflexivity.
  - intros i t Hi IH Hn. destruct (IH ltac:(lia)) as (Lt & Hin & Hout).
    split; [now rewrite length_set_at|]. split.
    + intros k Hk. destruct (Nat.eq_dec k i) as [-> | Hne].
      * rewrite nth_set_at_same by lia. reflexivity.
      * rewrite nth_set_at_other by lia. apply Hin. lia.
    + intros j Hj. rewrite nth_set_at_other by lia. apply Hout. lia.
Qed.

Lemma write_limbs_nth nb n d (buf : list Byte.byte) :
  length buf = (n * nb)%nat ->
  length (write_limbs nb n d buf) = (n * nb)%nat /\
  forall i k, (i < n)%nat -> (k < nb)%nat ->
              nth (i * nb + k) (write_limbs nb n d buf) Byte.x00
              = byte_of_Z (Z.shiftr (at_ d i) (8 * Z.of_nat k)).
Proof.
  intros Hl. unfold write_limbs.
  apply (for_loop_inv
           (fun m (t : list Byte.byte) =>
              (m <= n)%nat ->
              length t = (n * nb)%nat /\
              forall i k, (i < m)%nat -> (k < nb)%nat ->
                          nth (i * nb + k) t Byte.x00
                          = byte_of_Z (Z.shiftr (at_ d i) (8 * Z.of_nat k))));
    [lia| | |lia].
  - intros _. split; [assumption|]. intros i k Hi. lia.
  - intros m t Hm IH Hn. destruct (IH ltac:(lia)) as (Lt & Hin).
    destruct (WriteLE_nth nb t (m * nb) (at_ d m)) as (Lw & Win & Wout); [nia|].
    split; [lia|].
    intros i k Hi Hk. destruct (Nat.eq_dec i m) as [-> | Hne].
    + now apply Win.
    + rewrite Wout by nia. apply Hin; lia.
Qed.

Lemma ReadLE_write_limbs nb n d (buf : list Byte.byte) i :
  length buf = (n * nb)%nat -> (i < n)%nat -> 0 <= at_ d i ->
  ReadLE nb (write_limbs nb n d buf) (i * nb) = at_ d i mod 2 ^ (8 * Z.of_nat nb).
Proof.
  intros Hl Hi Hd. destruct (write_limbs_nth nb n d buf Hl) as [_ Hn].
  rewrite ReadLE_sum. rewrite <- (bytes_sum nb (at_ d i) Hd).
  apply sum_to_ext. intros k Hk. rewrite Hn by assumption.
  now rewrite byte_of_Z_value.
Qed.

(** A number of [n * nb] bytes is the number of its [n] groups of [nb]
    bytes. *)
Lemma ReadLE_split nb buf n :
  ReadLE (n * nb) buf 0
  = sum_to n (fun i => ReadLE nb buf (i * nb) * (2 ^ (8 * Z.of_nat nb)) ^ Z.of_nat i).
Proof.
  induction n as [|n IH]; [reflexivity|].
  cbn [sum_to]. rewrite <- IH.
  replace (S n * nb)%nat with (n * nb + nb)%nat by lia.
  rewrite !ReadLE_sum, sum_to_app. f_equal.
  rewrite Z.mul_comm, <- sum_to_scale. apply sum_to_ext. intros k Hk.
  cbn [Nat.add]. rewrite <- Z.pow_mul_r by lia.
  replace (8 * Z.of_nat (n * nb + k)) with (8 * Z.of_nat nb * Z.of_nat n + 8 * Z.of_nat k)
    by lia.
  rewrite Z.pow_add_r by lia. ring.
Qed.

Lemma ReadLE_eval n (b : list Byte.byte) :
  length b = n ->
  ReadLE n b 0 = eval 8 (map (fun x => bv x) b).
Proof.
  intros Hl. rewrite ReadLE_sum.
  rewrite (eval_sum 8 _ n) by (rewrite length_map; lia).
  apply sum_to_ext. intros k Hk. cbn [Nat.add]. unfold at_.
  change (nth k (map (fun x => bv x) b) 0)
    with (nth k (map (fun x => bv x) b) ((fun x => bv x) Byte.x00)).
  rewrite map_nth.
  rewrite <- Z.pow_mul_r by lia. reflexivity.
Qed.

(** Two buffers of [n] bytes that hold the same number are equal. *)
Lemma ReadLE_inj n (b b' : list Byte.byte) :
  length b = n -> length b' = n -> ReadLE n b 0 = ReadLE n b' 0 -> b = b'.
Proof.
  intros Hl Hl' E. rewrite (ReadLE_eval n b Hl), (ReadLE_eval n b' Hl') in E.
  assert (A : forall l : list Byte.byte, forallb (is_limb 8) (map (fun x => bv x) l) = true).
  { intros l. apply forallb_forall. intros z Hz. apply in_map_iff in Hz.
    destruct Hz as (y & <- & _). apply is_limb_iff. apply bv_range. }
  apply (eval_inj 8 ltac:(lia)) in E; try apply A; [|rewrite !length_map; lia].
  clear -E. revert b' E. induction b as [|x b IH]; intros [|y b'] E; try discriminate.
  - reflexivity.
  - cbn [map] in E. injection E as E1 E2. f_equal; [now apply bv_inj | now apply IH].
Qed.

(** The limbs that the constructor reads. *)
Lemma of_key_limbs cfg ks key :
  let d := data (MuHash3072_of_key (W cfg) (L cfg) ks key) in
  length d = L cfg /\
  forall i, (i < L cfg)%nat ->
            at_ d i = ReadLE (limb_bytes cfg) (ks key OUTPUT_SIZE) (i * limb_bytes cfg).
Proof.
  cbv zeta. unfold MuHash3072_of_key. cbn [data].
  set (tmp := ks key OUTPUT_SIZE).
  rewrite (for_loop_ext 0 (L cfg) _
             (fun i limbs => set_at limbs i
                (ReadLE (limb_bytes cfg) tmp (i * limb_bytes cfg)))).
  2:{ intros i t. destruct cfg; cbn; rewrite (Nat.mul_comm i); reflexivity. }
  apply (for_loop_inv
           (fun m (l : Num3072) =>
              (m <= L cfg)%nat ->
              length l = L cfg /\
              forall i, (i < m)%nat ->
                        at_ l i = ReadLE (limb_bytes cfg) tmp (i * limb_bytes cfg)));
    [lia| | |lia].
  - intros _. split; [apply repeat_length|]. intros i Hi. lia.
  - intros m l Hm IH Hn. destruct (IH ltac:(lia)) as [Ll Hin].
    split; [now rewrite length_set_at|].
    intros i Hi. unfold at_. destruct (Nat.eq_dec i m) as [-> | Hne].
    + rewrite nth_set_at_same by lia. reflexivity.
    + rewrite nth_set_at_other by lia. apply Hin. lia.
Qed.

Lemma build_bytes cfg : W cfg = 8 * Z.of_nat (limb_bytes cfg).
Proof. destruct cfg; reflexivity. Qed.

Lemma of_key_value cfg ks key :
  value cfg (data (MuHash3072_of_key (W cfg) (L cfg) ks key))
  = ReadLE OUTPUT_SIZE (ks key OUTPUT_SIZE) 0.
Proof.
  destruct (of_key_limbs cfg ks key) as [Ld Hd].
  unfold value. rewrite (eval_sum _ _ (L cfg)) by lia.
  rewrite <- (output_size cfg), ReadLE_split.
  apply sum_to_ext. intros i Hi. rewrite Hd by assumption.
  rewrite (output_size cfg), build_bytes. reflexivity.
Qed.

Lemma digest_length cfg m : length (digest cfg m) = OUTPUT_SIZE.
Proof.
  unfold digest. rewrite Finalize_eq. cbn [snd].
  destruct (write_limbs_nth (limb_bytes cfg) (L cfg)
              (normalise (W cfg) (L cfg) (data m)) zero_buffer) as [Hl _].
  - rewrite output_size. reflexivity.
  - rewrite Hl. apply output_size.
Qed.

Lemma digest_value cfg m :
  wf cfg (data m) = true ->
  ReadLE OUTPUT_SIZE (digest cfg m) 0 = value cfg (data m) mod PRIME.
Proof.
  intros Hm. destruct (normalise_build cfg _ Hm) as (Wn & Vn & _).
  rewrite <- Vn. unfold digest. rewrite Finalize_eq. cbn [snd].
  set (d := normalise (W cfg) (L cfg) (data m)) in *.
  apply wf_iff in Wn. destruct Wn as [Ld Ad].
  unfold value. rewrite (eval_sum _ _ (L cfg)) by lia.
  rewrite <- (output_size cfg), ReadLE_split.
  apply sum_to_ext. intros i Hi.
  pose proof (at_limb _ (build_width cfg) d i Ad) as R.
  rewrite ReadLE_write_limbs; try assumption; try lia.
  - rewrite <- build_bytes. rewrite Z.mod_small by assumption. reflexivity.
  - rewrite output_size. reflexivity.
Qed.

Lemma digest_eq_iff cfg cfg' m m' :
  wf cfg (data m) = true -> wf cfg' (data m') = true ->
  (digest cfg m = digest cfg' m'
   <-> value cfg (data m) mod PRIME = value cfg' (data m') mod PRIME).
Proof.
  intros Hm Hm'. rewrite <- (digest_value cfg m Hm), <- (digest_value cfg' m' Hm').
  split; [now intros ->|].
  apply ReadLE_inj; apply digest_length.
Qed.

(** ** The bytes read and written *)

(** X14: for a key of 32 bytes, the constructor loads the 3072-bit number
    whose little-endian bytes are the 384 bytes of key stream, whatever
    the limb width, and does not reduce it modulo the prime. *)
Theorem X14_constructor_value cfg (ChaCha20_Keystream : list Byte.byte -> nat -> list Byte.byte)
        (key32 : list Byte.byte) :
  length key32 = INPUT_SIZE ->
  wf cfg (data (MuHash3072_of_key (W cfg) (L cfg) ChaCha20_Keystream key32)) = true /\
  value cfg (data (MuHash3072_of_key (W cfg) (L cfg) ChaCha20_Keystream key32))
  = ReadLE OUTPUT_SIZE (ChaCha20_Keystream key32 OUTPUT_SIZE) 0.
Proof. intros _. split; [apply of_key_wf | apply of_key_value]. Qed.

Lemma X14_constructor_value_witness :
  length zero_key = INPUT_SIZE /\
  wf Narrow (data (MuHash3072_of_key (W Narrow) (L Narrow) minus_one_keystream zero_key))
  = true /\
  value Narrow (data (MuHash3072_of_key (W Narrow) (L Narrow) minus_one_keystream zero_key))
  = ReadLE OUTPUT_SIZE (minus_one_keystream zero_key OUTPUT_SIZE) 0.
Proof.
  split; [reflexivity|].
  apply (X14_constructor_value Narrow minus_one_keystream zero_key). reflexivity.
Defined.

(** X15: the 384 bytes that [Finalize] writes are the little-endian bytes
    of the value of the accumulator reduced modulo the prime. *)
Theorem X15_digest_value cfg (m : MuHash3072) (hash384 : list Byte.byte) :
  wf cfg (data m) = true -> length hash384 = OUTPUT_SIZE ->
  length (snd (Finalize (W cfg) (L cfg) m hash384)) = OUTPUT_SIZE /\
  ReadLE OUTPUT_SIZE (snd (Finalize (W cfg) (L cfg) m hash384)) 0
  = value cfg (data m) mod PRIME.
Proof.
  intros Hm Hl.
  assert (E : snd (Finalize (W cfg) (L cfg) m hash384) = digest cfg m).
  { unfold digest. apply Finalize_digest_eq; try assumption; reflexivity. }
  rewrite E. split; [apply digest_length | now apply digest_value].
Qed.

Lemma X15_digest_value_witness :
  wf Wide (data all_ones_accumulator) = true /\ length zero_buffer = OUTPUT_SIZE /\
  length (snd (Finalize 64 48 all_ones_accumulator zero_buffer)) = OUTPUT_SIZE /\
  ReadLE OUTPUT_SIZE (snd (Finalize 64 48 all_ones_accumulator zero_buffer)) 0
  = value Wide (data all_ones_accumulator) mod PRIME.
Proof.
  split; [vm_compute; reflexivity|]. split; [reflexivity|].
  apply (X15_digest_value Wide); [vm_compute; reflexivity | reflexivity].
Defined.

(** X16: two accumulators, of the same build or one of each, have the
    same digest exactly when their values are congruent modulo the
    prime. *)
Theorem X16_digest_equality cfg cfg' (m m' : MuHash3072) :
  wf cfg (data m) = true -> wf cfg' (data m') = true ->
  (digest cfg m = digest cfg' m'
   <-> value cfg (data m) mod PRIME = value cfg' (data m') mod PRIME).
Proof. apply digest_eq_iff. Qed.

Lemma X16_digest_equality_witness :
  wf Wide (data {| data := Num3072_of_Z Wide (PRIME + 5) |}) = true /\
  wf Narrow (data {| data := Num3072_of_Z Narrow 5 |}) = true /\
  (digest Wide {| data := Num3072_of_Z Wide (PRIME + 5) |}
   = digest Narrow {| data := Num3072_of_Z Narrow 5 |}
   <-> value Wide (data {| data := Num3072_of_Z Wide (PRIME + 5) |}) mod PRIME
       = value Narrow (data {| data := Num3072_of_Z Narrow 5 |}) mod PRIME).
Proof.
  split; [vm_compute; reflexivity|]. split; [vm_compute; reflexivity|].
  apply (X16_digest_equality Wide Narrow); vm_compute; reflexivity.
Defined.

(** ** The two builds side by side *)

Lemma keyed_wf cfg ks k : wf cfg (data (operand (keyed cfg ks k))) = true.
Proof. destruct k; apply of_key_wf. Qed.

Lemma keyed_all_wf cfg ks l :
  forallb (fun u => wf cfg (data (operand u))) (map (keyed cfg ks) l) = true.
Proof.
  apply forallb_forall. intros u Hu. apply in_map_iff in Hu.
  destruct Hu as (k & <- & _). apply keyed_wf.
Qed.

Lemma keyed_factor cfg cfg' ks k :
  factor cfg (keyed cfg ks k) = factor cfg' (keyed cfg' ks k).
Proof.
  destruct k; cbn [keyed factor]; now rewrite !of_key_value.
Qed.

Lemma keyed_factors cfg cfg' ks l :
  factors cfg (map (keyed cfg ks) l) = factors cfg' (map (keyed cfg' ks) l).
Proof.
  induction l as [|k l IH]; [reflexivity|].
  cbn [map factors fold_right].
  fold (factors cfg (map (keyed cfg ks) l)) (factors cfg' (map (keyed cfg' ks) l)).
  now rewrite IH, (keyed_factor cfg cfg').
Qed.

Lemma run_value cfg ks l :
  wf cfg (data (run cfg ks l)) = true /\
  value cfg (data (run cfg ks l)) mod PRIME
  = factors cfg (map (keyed cfg ks) l) mod PRIME.
Proof.
  unfold run. destruct (new_wf cfg) as [Hn Vn].
  destruct (apply_updates_build cfg _ _ Hn (keyed_all_wf cfg ks l)) as [A E].
  split; [exact A|]. rewrite E, Vn. f_equal. ring.
Qed.

Lemma runs_agree cfg cfg' ks l :
  digest cfg (run cfg ks l) = digest cfg' (run cfg' ks l).
Proof.
  destruct (run_value cfg ks l) as [A E]. destruct (run_value cfg' ks l) as [A' E'].
  apply digest_eq_iff; try assumption.
  rewrite E, E'. rewrite (keyed_factors cfg cfg' ks l). reflexivity.
Qed.

(** X17: the limb width does not show in the digest: after the same
    sequence of insertions and removals by keys of 32 bytes, the build
    with 64-bit limbs and the build with 32-bit limbs write the same 384
    bytes. *)
Theorem X17_builds_agree (ChaCha20_Keystream : list Byte.byte -> nat -> list Byte.byte)
        (ks : list keyed_update) :
  keys_ok ks = true ->
  digest Wide (run Wide ChaCha20_Keystream ks)
  = digest Narrow (run Narrow ChaCha20_Keystream ks).
Proof. intros _. apply runs_agree. Qed.

Lemma X17_builds_agree_witness :
  keys_ok [Insert zero_key; Remove (repeat Byte.xff INPUT_SIZE); Insert zero_key] = true /\
  digest Wide (run Wide minus_one_keystream
                 [Insert zero_key; Remove (repeat Byte.xff INPUT_SIZE); Insert zero_key])
  = digest Narrow (run Narrow minus_one_keystream
                     [Insert zero_key; Remove (repeat Byte.xff INPUT_SIZE); Insert zero_key]).
Proof.
  split; [reflexivity|].
  apply (X17_builds_agree minus_one_keystream). reflexivity.
Defined.

(** ** What [Finalize] and [Multiply] do not depend on *)

(** X18: [Finalize] writes every byte of the buffer: the object and the
    384 bytes after the call do not depend on what the buffer held. *)
Theorem X18_Finalize_overwrites cfg (m : MuHash3072) (hash384 hash384' : list Byte.byte) :
  length hash384 = OUTPUT_SIZE -> length hash384' = OUTPUT_SIZE ->
  Finalize (W cfg) (L cfg) m hash384 = Finalize (W cfg) (L cfg) m hash384'.
Proof.
  intros H1 H2. rewrite !Finalize_eq. f_equal.
  apply write_limbs_ext; rewrite output_size; assumption.
Qed.

Lemma X18_Finalize_overwrites_witness :
  length zero_buffer = OUTPUT_SIZE /\ length ones_buffer = OUTPUT_SIZE /\
  Finalize 32 96 (MuHash3072_new 96) zero_buffer
  = Finalize 32 96 (MuHash3072_new 96) ones_buffer.
Proof.
  split; [reflexivity|]. split; [reflexivity|].
  apply (X18_Finalize_overwrites Narrow); reflexivity.
Defined.

Section GarbageProof.

Variable w : Z.
Variable N : nat.
Hypothesis HN : (1 <= N)%nat.

Lemma Multiply_step_tmp x a j c0 c1 :
  exists e0 e1 n, forall tmp : Num3072,
      Multiply_step w N x a j (c0, c1, tmp) = (e0, e1, set_at tmp j n).
Proof.
  unfold Multiply_step.
  destruct (mul w (at_ x (1 + j)) (at_ a (N + j - (1 + j)))) as [d0 d1].
  destruct (extract3 _) as [[[e0 e1] e2] n].
  exists e0, e1, n. reflexivity.
Qed.

Lemma Multiply_last_tmp x a c0 c1 :
  exists e0 e1 n, forall tmp : Num3072,
      Multiply_last w N x a (c0, c1, tmp) = (e0, e1, set_at tmp (N - 1) n).
Proof.
  unfold Multiply_last.
  destruct (extract3 _) as [[[e0 e1] e2] n].
  exists e0, e1, n. reflexivity.
Qed.

Lemma Square_step_tmp x j c0 c1 :
  exists e0 e1 n, forall tmp : Num3072,
      Square_step w N x j (c0, c1, tmp) = (e0, e1, set_at tmp j n).
Proof.
  unfold Square_step.
  destruct (extract3 _) as [[[e0 e1] e2] n].
  exists e0, e1, n. reflexivity.
Qed.

Lemma Square_last_tmp x c0 c1 :
  exists e0 e1 n, forall tmp : Num3072,
      Square_last w N x (c0, c1, tmp) = (e0, e1, set_at tmp (N - 1) n).
Proof.
  unfold Square_last.
  destruct (extract3 _) as [[[e0 e1] e2] n].
  exists e0, e1, n. reflexivity.
Qed.

Lemma fill_step (step : nat -> Z * Z * Num3072 -> Z * Z * Num3072) j s1 s2 :
  (forall c0 c1, exists e0 e1 n, forall tmp : Num3072,
        step j (c0, c1, tmp) = (e0, e1, set_at tmp j n)) ->
  (j < N)%nat ->
  same_so_far N j s1 s2 -> same_so_far N (S j) (step j s1) (step j s2).
Proof.
  intros Hs Hj. destruct s1 as [[c0 c1] t1], s2 as [[d0 d1] t2].
  unfold same_so_far. cbn [fst snd]. intros (-> & -> & L1 & L2 & E).
  destruct (Hs d0 d1) as (e0 & e1 & n & Hst). rewrite !Hst. cbn [fst snd].
  rewrite !length_set_at. repeat (split; [assumption || reflexivity|]).
  rewrite !firstn_set_at_next by lia. now rewrite E.
Qed.

Lemma fill_all (step : nat -> Z * Z * Num3072 -> Z * Z * Num3072)
      (last : Z * Z * Num3072 -> Z * Z * Num3072) (t1 t2 : Num3072) :
  (forall j c0 c1, exists e0 e1 n, forall tmp : Num3072,
        step j (c0, c1, tmp) = (e0, e1, set_at tmp j n)) ->
  (forall c0 c1, exists e0 e1 n, forall tmp : Num3072,
        last (c0, c1, tmp) = (e0, e1, set_at tmp (N - 1) n)) ->
  length t1 = N -> length t2 = N ->
  last (for_loop 0 (N - 1) step (0, 0, t1)) = last (for_loop 0 (N - 1) step (0, 0, t2)).
Proof.
  intros Hs Hl L1 L2.
  pose proof (for_loop_inv2 (same_so_far N) 0 (N - 1) step (0, 0, t1) (0, 0, t2)
                ltac:(lia)) as H.
  assert (S0 : same_so_far N (N - 1) (for_loop 0 (N - 1) step (0, 0, t1))
                 (for_loop 0 (N - 1) step (0, 0, t2))).
  { apply H.
    - unfold same_so_far. cbn [fst snd firstn]. auto.
    - intros i s1 s2 Hi. apply fill_step; [apply Hs | lia]. }
  pose proof (fill_step (fun _ => last) (N - 1) _ _ (fun c0 c1 => Hl c0 c1)
                ltac:(lia) S0) as S1.
  cbv beta in S1.
  destruct (last (for_loop 0 (N - 1) step (0, 0, t1))) as [[c0 c1] r1].
  destruct (last (for_loop 0 (N - 1) step (0, 0, t2))) as [[d0 d1] r2].
  unfold same_so_far in S1. cbn [fst snd] in S1.
  destruct S1 as (-> & -> & R1 & R2 & E).
  replace (S (N - 1)) with N in E by lia.
  rewrite <- R1 in E at 1. rewrite <- R2 in E. rewrite !firstn_all in E.
  now rewrite E.
Qed.

Lemma Multiply_over_eq garbage x a :
  length garbage = N -> Multiply_over w N garbage x a = Multiply w N x a.
Proof.
  intros Hg. unfold Multiply_over, Multiply, Multiply_residual.
  unfold Multiply_product_over, Multiply_product. cbv zeta.
  rewrite (fill_all (Multiply_step w N x a) (Multiply_last w N x a)
             garbage (uninitialised N)); try reflexivity; try assumption.
  - intros j c0 c1. apply Multiply_step_tmp.
  - intros c0 c1. apply Multiply_last_tmp.
  - apply repeat_length.
Qed.

Lemma Square_over_eq garbage x :
  length garbage = N -> Square_over w N garbage x = Square w N x.
Proof.
  intros Hg. unfold Square_over, Square, Square_residual.
  unfold Square_product_over, Square_product. cbv zeta.
  rewrite (fill_all (Square_step w N x) (Square_last w N x)
             garbage (uninitialised N)); try reflexivity; try assumption.
  - intros j c0 c1. apply Square_step_tmp.
  - intros c0 c1. apply Square_last_tmp.
  - apply repeat_length.
Qed.

End GarbageProof.

(** X19: [Multiply] and [Square] never read a limb of their local array
    [tmp] before they have written it: whatever the array holds at entry,
    the result is the same. *)
Theorem X19_tmp_never_read_before_written cfg (garbage in_out a : Num3072) :
  length garbage = L cfg ->
  Multiply_over (W cfg) (L cfg) garbage in_out a = Multiply (W cfg) (L cfg) in_out a /\
  Square_over (W cfg) (L cfg) garbage in_out = Square (W cfg) (L cfg) in_out.
Proof.
  intros Hg. pose proof (build_limbs cfg). split.
  - apply Multiply_over_eq; [lia | assumption].
  - apply Square_over_eq; [lia | assumption].
Qed.

Lemma X19_tmp_never_read_before_written_witness :
  length (repeat (2 ^ 64 - 1) 48) = 48%nat /\
  Multiply_over 64 48 (repeat (2 ^ 64 - 1) 48) (Num3072_of_Z Wide 3) (Num3072_of_Z Wide 5)
  = Multiply 64 48 (Num3072_of_Z Wide 3) (Num3072_of_Z Wide 5) /\
  Square_over 64 48 (repeat (2 ^ 64 - 1) 48) (Num3072_of_Z Wide 3)
  = Square 64 48 (Num3072_of_Z Wide 3).
Proof.
  split; [reflexivity|].
  apply (X19_tmp_never_read_before_written Wide); reflexivity.
Defined.

(** ** The operators on accumulators that are not canonical *)

(** X20: the operators take any arrays of limbs, also values between the
    prime and [2^3072] as the constructor and [Multiply] itself can leave
    them: [*=] leaves an array of limbs congruent to the product, [/=] one
    congruent to the accumulator times the power [PRIME - 2] of the
    operand, and [Square] is [Multiply] by itself on every array of limbs. *)
Theorem X20_operators_on_any_limbs cfg (this x : MuHash3072) :
  wf cfg (data this) = true -> wf cfg (data x) = true ->
  (wf cfg (data (mul_assign (W cfg) (L cfg) this x)) = true /\
   value cfg (data (mul_assign (W cfg) (L cfg) this x)) mod PRIME
   = (value cfg (data this) * value cfg (data x)) mod PRIME) /\
  (wf cfg (data (div_assign (W cfg) (L cfg) this x)) = true /\
   value cfg (data (div_assign (W cfg) (L cfg) this x)) mod PRIME
   = (value cfg (data this) * value cfg (data x) ^ (PRIME - 2)) mod PRIME) /\
  Square (W cfg) (L cfg) (data x) = Multiply (W cfg) (L cfg) (data x) (data x).
Proof.
  intros Ht Hx.
  split; [now apply mul_assign_build|].
  split; [now apply div_assign_build|].
  now apply Square_build.
Qed.

Lemma X20_operators_on_any_limbs_witness :
  wf Wide (data all_ones_accumulator) = true /\
  wf Wide (data prime_accumulator) = true /\
  (wf Wide (data (mul_assign 64 48 all_ones_accumulator prime_accumulator)) = true /\
   value Wide (data (mul_assign 64 48 all_ones_accumulator prime_accumulator)) mod PRIME
   = (value Wide (data all_ones_accumulator) * value Wide (data prime_accumulator)) mod PRIME) /\
  (wf Wide (data (div_assign 64 48 all_ones_accumulator prime_accumulator)) = true /\
   value Wide (data (div_assign 64 48 all_ones_accumulator prime_accumulator)) mod PRIME
   = (value Wide (data all_ones_accumulator)
      * value Wide (data prime_accumulator) ^ (PRIME - 2)) mod PRIME) /\
  Square 64 48 (data prime_accumulator)
  = Multiply 64 48 (data prime_accumulator) (data prime_accumulator).
Proof.
  split; [vm_compute; reflexivity|]. split; [vm_compute; reflexivity|].
  apply (X20_operators_on_any_limbs Wide); vm_compute; reflexivity.
Defined.

(** ** The running value as a fraction *)

Lemma added_wf cfg us :
  forallb (fun u => wf cfg (data (operand u))) us = true ->
  forallb (fun u => wf cfg (data (operand u))) (added us) = true.
Proof.
  induction us as [|[x|x] us IH]; [reflexivity| |];
    cbn [forallb added flat_map app operand]; rewrite ?andb_true_iff;
    intros [H1 H2]; auto.
Qed.

Lemma removed_wf cfg us :
  forallb (fun u => wf cfg (data (operand u))) us = true ->
  forallb (fun u => wf cfg (data (operand u))) (removed us) = true.
Proof.
  induction us as [|[x|x] us IH]; [reflexivity| |];
    cbn [forallb removed flat_map app operand]; rewrite ?andb_true_iff;
    intros [H1 H2]; auto.
Qed.

Lemma factors_fraction cfg us :
  factors cfg us = factors cfg (added us) * factors cfg (removed us) ^ (PRIME - 2).
Proof.
  pose proof PRIME_pos as HP.
  induction us as [|[x|x] us IH].
  - cbn [added removed flat_map factors fold_right].
    rewrite Z.pow_1_l by lia. reflexivity.
  - cbn [added removed flat_map factors fold_right app factor].
    fold (factors cfg us) (added us) (removed us) (factors cfg (added us))
         (factors cfg (removed us)).
    rewrite IH. generalize (PRIME - 2). intros k. ring.
  - cbn [added removed flat_map factors fold_right app factor].
    fold (factors cfg us) (added us) (removed us) (factors cfg (added us))
         (factors cfg (removed us)).
    rewrite IH, Z.pow_mul_l. generalize (PRIME - 2). intros k. ring.
Qed.

Lemma fraction_arith P a n d fa fr k :
  0 < P -> n mod P = (a * fa) mod P -> d mod P = fr mod P ->
  (n * d ^ k) mod P = (a * (fa * fr ^ k)) mod P.
Proof.
  intros HP En Ed.
  rewrite (Z.mul_mod n) by lia. rewrite <- (Z.mod_pow_l d), En, Ed.
  rewrite (Z.mod_pow_l fr), <- Z.mul_mod by lia. f_equal. ring.
Qed.

Lemma updates_as_fraction cfg acc us :
  wf cfg (data acc) = true ->
  forallb (fun u => wf cfg (data (operand u))) us = true ->
  digest cfg (apply_updates cfg acc us)
  = digest cfg (div_assign (W cfg) (L cfg)
                  (apply_updates cfg acc (added us))
                  (apply_updates cfg (MuHash3072_new (L cfg)) (removed us))).
Proof.
  intros Ha Hus. pose proof PRIME_pos as HP.
  destruct (new_wf cfg) as [Hn Vn].
  destruct (apply_updates_build cfg us acc Ha Hus) as [A E].
  destruct (apply_updates_build cfg _ acc Ha (added_wf cfg us Hus)) as [A1 E1].
  destruct (apply_updates_build cfg _ _ Hn (removed_wf cfg us Hus)) as [A2 E2].
  destruct (div_assign_build cfg _ _ A1 A2) as [A3 E3].
  apply digest_congr; try assumption.
  rewrite E, E3. rewrite Vn, Z.mul_1_l in E2.
  rewrite (factors_fraction cfg us). symmetry.
  exact (fraction_arith PRIME (value cfg (data acc)) _ _ _ _ (PRIME - 2)
           ltac:(lia) E1 E2).
Qed.

(** X21: the running value can be kept as a fraction, as the header
    describes: multiplying the added elements into one accumulator and the
    removed elements into another, and dividing once at the end, gives
    the digest of the updates applied one by one. *)
Theorem X21_numerator_and_denominator cfg (acc : MuHash3072) (us : list update) :
  wf cfg (data acc) = true ->
  forallb (fun u => wf cfg (data (operand u))) us = true ->
  digest cfg (apply_updates cfg acc us)
  = digest cfg (div_assign (W cfg) (L cfg)
                  (apply_updates cfg acc (added us))
                  (apply_updates cfg (MuHash3072_new (L cfg)) (removed us))).
Proof. apply updates_as_fraction. Qed.

Lemma X21_numerator_and_denominator_witness :
  wf Wide (data (MuHash3072_new 48)) = true /\
  forallb (fun u => wf Wide (data (operand u)))
    [Over {| data := Num3072_of_Z Wide 3 |}; Times all_ones_accumulator;
     Over {| data := Num3072_of_Z Wide 5 |}] = true /\
  digest Wide (apply_updates Wide (MuHash3072_new 48)
                 [Over {| data := Num3072_of_Z Wide 3 |}; Times all_ones_accumulator;
                  Over {| data := Num3072_of_Z Wide 5 |}])
  = digest Wide (div_assign 64 48
                   (apply_updates Wide (MuHash3072_new 48)
                      (added [Over {| data := Num3072_of_Z Wide 3 |};
                              Times all_ones_accumulator;
                              Over {| data := Num3072_of_Z Wide 5 |}]))
                   (apply_updates Wide (MuHash3072_new 48)
                      (removed [Over {| data := Num3072_of_Z Wide 3 |};
                                Times all_ones_accumulator;
                                Over {| data := Num3072_of_Z Wide 5 |}]))).
Proof.
  split; [vm_compute; reflexivity|]. split; [vm_compute; reflexivity|].
  apply (X21_numerator_and_denominator Wide); vm_compute; reflexivity.
Defined.

(** ** [Finalize] between updates *)

Lemma Finalize_then_updates cfg acc buf us :
  wf cfg (data acc) = true ->
  forallb (fun u => wf cfg (data (operand u))) us = true ->
  digest cfg (apply_updates cfg (fst (Finalize (W cfg) (L cfg) acc buf)) us)
  = digest cfg (apply_updates cfg acc us).
Proof.
  intros Ha Hus. pose proof PRIME_pos as HP.
  rewrite Finalize_eq. cbn [fst].
  destruct (normalise_build cfg _ Ha) as (Wn & Vn & _).
  set (acc' := {| data := normalise (W cfg) (L cfg) (data acc) |}).
  assert (Wa : wf cfg (data acc') = true) by exact Wn.
  assert (Va : value cfg (data acc') = value cfg (data acc) mod PRIME) by exact Vn.
  destruct (apply_updates_build cfg us acc Ha Hus) as [A E].
  destruct (apply_updates_build cfg us acc' Wa Hus) as [A' E'].
  apply digest_congr; try assumption.
  rewrite E, E', Va. now rewrite Z.mul_mod_idemp_l by lia.
Qed.

(** X22: [Finalize] may rewrite the limbs of the accumulator, but a call
    between updates, with a buffer of 384 bytes, does not show later: the
    updates that follow give the digest that they give without the call. *)
Theorem X22_Finalize_between_updates cfg (acc : MuHash3072) (hash384 : list Byte.byte)
        (us : list update) :
  wf cfg (data acc) = true ->
  length hash384 = OUTPUT_SIZE ->
  forallb (fun u => wf cfg (data (operand u))) us = true ->
  digest cfg (apply_updates cfg (fst (Finalize (W cfg) (L cfg) acc hash384)) us)
  = digest cfg (apply_updates cfg acc us).
Proof. intros Ha _ Hus. now apply Finalize_then_updates. Qed.

Lemma X22_Finalize_between_updates_witness :
  wf Wide (data all_ones_accumulator) = true /\
  length zero_buffer = OUTPUT_SIZE /\
  forallb (fun u => wf Wide (data (operand u)))
    [Times prime_accumulator; Over all_ones_accumulator] = true /\
  digest Wide (apply_updates Wide (fst (Finalize 64 48 all_ones_accumulator zero_buffer))
                 [Times prime_accumulator; Over all_ones_accumulator])
  = digest Wide (apply_updates Wide all_ones_accumulator
                   [Times prime_accumulator; Over all_ones_accumulator]).
Proof.
  split; [vm_compute; reflexivity|]. split; [reflexivity|].
  split; [vm_compute; reflexivity|].
  apply (X22_Finalize_between_updates Wide); [vm_compute; reflexivity | reflexivity |vm_compute; reflexivity].
Defined.

(** ** An accumulator divided by itself *)




(** ** Reads and writes through pointers *)

Lemma address_eqb_eq p q : address_eqb p q = true <-> p = q.
Proof.
  destruct p, q; cbn [address_eqb]; rewrite ?Nat.eqb_eq;
    split; intros H; try congruence; try discriminate; try reflexivity.
Qed.

Lemma address_eqb_refl p : address_eqb p p = true.
Proof. now apply address_eqb_eq. Qed.

Lemma address_eqb_neq p q : p <> q -> address_eqb p q = false.
Proof.
  intros H. destruct (address_eqb p q) eqn:E; [|reflexivity].
  apply address_eqb_eq in E. contradiction.
Qed.

Lemma store_object_same m p v : store_object m p v p = v.
Proof. unfold store_object. now rewrite address_eqb_refl. Qed.

Lemma store_object_other m p v q : q <> p -> store_object m p v q = m q.
Proof. intros H. unfold store_object. now rewrite address_eqb_neq. Qed.

Lemma store_limb_same m p i v : store_limb m p i v p = set_at (m p) i v.
Proof. apply store_object_same. Qed.

Lemma store_limb_other m p i v q : q <> p -> store_limb m p i v q = m q.
Proof. apply store_object_other. Qed.

(** Two loops over the same range that keep a relation between their
    states. *)
Lemma for_loop_rel {S T : Type} (R : nat -> S -> T -> Prop) lo hi
      (f : nat -> S -> S) (g : nat -> T -> T) s t :
  (lo <= hi)%nat ->
  R lo s t ->
  (forall i s' t', (lo <= i < hi)%nat -> R i s' t' ->
                   R (Datatypes.S i) (f i s') (g i t')) ->
  R hi (for_loop lo hi f s) (for_loop lo hi g t).
Proof.
  intros Hle H0. induction hi as [|hi IH]; intros Hstep.
  - assert (lo = 0%nat) by lia. subst lo. rewrite !for_loop_done by lia. exact H0.
  - destruct (Nat.eq_dec lo (Datatypes.S hi)) as [-> | Hne].
    + rewrite !for_loop_done by lia. exact H0.
    + rewrite !for_loop_snoc by lia. apply Hstep; [lia|].
      apply IH; [lia|]. intros i s' t' Hi. apply Hstep. lia.
Qed.

Section InMemoryProofs.

Variable w : Z.
Variable N : nat.

(** [FullReduce] through a pointer writes the object pointed to, as the
    function on arrays does, and nothing else. *)
Lemma FullReduce_at_spec m d :
  FullReduce_at w N m d d = FullReduce w N (m d) /\
  forall q, q <> d -> FullReduce_at w N m d q = m q.
Proof.
  unfold FullReduce_at, FullReduce.
  pose proof (for_loop_rel
                (fun _ (s : Z * memory) (t : Z * Num3072) =>
                   fst s = fst t /\ snd s d = snd t /\
                   forall q, q <> d -> snd s q = m q)
                0 N (FullReduce_step_at w d) (FullReduce_step w)
                (limb w MAX_PRIME_DIFF, m) (limb w MAX_PRIME_DIFF, m d)
                ltac:(lia)) as H.
  destruct H as (_ & H1 & H2).
  - cbn [fst snd]. auto.
  - intros i [c0 m'] [e0 d'] _. cbn [fst snd]. intros (-> & E & F).
    unfold FullReduce_step_at, FullReduce_step, load_limb. rewrite E.
    destruct (add2 w (e0, 0) (at_ d' i)) as [c0' c1'].
    destruct (extract2 (c0', c1')) as [[c0'' c1''] n]. cbn [fst snd].
    split; [reflexivity|]. split.
    + rewrite store_limb_same. now rewrite E.
    + intros q Hq. rewrite store_limb_other by assumption. now apply F.
  - split; assumption.
Qed.

(** The second and third reductions through a pointer. *)
Lemma reduce_at_spec st m p :
  reduce_at w N st m p p = third_reduction w N (second_reduction w N st (m p)) /\
  forall q, q <> p -> reduce_at w N st m p q = m q.
Proof.
  destruct st as [[c0 c1] tmp]. unfold reduce_at, second_reduction.
  destruct (muln2 w (c0, c1) (limb w MAX_PRIME_DIFF)) as [e0 e1].
  pose proof (for_loop_rel
                (fun _ (s : Z * Z * memory) (t : Z * Z * Num3072) =>
                   fst s = fst t /\ snd s p = snd t /\
                   forall q, q <> p -> snd s q = m q)
                0 N (reduce2_step_at w tmp p) (reduce2_step w tmp)
                (e0, e1, m) (e0, e1, m p) ltac:(lia)) as H.
  destruct H as (H0 & H1 & H2).
  - cbn [fst snd]. auto.
  - intros i [[a0 a1] m'] [[b0 b1] d'] _. cbn [fst snd]. intros (E0 & E & F).
    injection E0 as -> ->.
    unfold reduce2_step_at, reduce2_step.
    destruct (add2 w (b0, b1) (at_ tmp i)) as [c0' c1'].
    destruct (extract2 (c0', c1')) as [[c0'' c1''] n]. cbn [fst snd].
    split; [reflexivity|]. split.
    + rewrite store_limb_same. now rewrite E.
    + intros q Hq. rewrite store_limb_other by assumption. now apply F.
  - destruct (for_loop 0 N (reduce2_step_at w tmp p) (e0, e1, m)) as [[a0 a1] m'].
    destruct (for_loop 0 N (reduce2_step w tmp) (e0, e1, m p)) as [[b0 b1] d'].
    cbn [fst snd] in *. injection H0 as -> ->. unfold third_reduction.
    destruct (negb (b0 =? 0)).
    + destruct (FullReduce_at_spec m' p) as [A B]. split.
      * now rewrite A, H1.
      * intros q Hq. rewrite B by assumption. now apply H2.
    + split; assumption.
Qed.

(** [Multiply(in_out, a)] writes [*in_out] only, and what it writes is
    the function [Multiply] of the two arrays read at entry; this holds
    also when [in_out] and [a] point to the same object. *)
Lemma Multiply_at_spec m p a :
  Multiply_at w N m p a p = Multiply w N (m p) (m a) /\
  forall q, q <> p -> Multiply_at w N m p a q = m q.
Proof. apply reduce_at_spec. Qed.

Lemma Square_at_spec m p :
  Square_at w N m p p = Square w N (m p) /\
  forall q, q <> p -> Square_at w N m p q = m q.
Proof. apply reduce_at_spec. Qed.

Lemma Square_times_at_spec n m p :
  Square_times_at w N n m p p = Square_times w N n (m p) /\
  forall q, q <> p -> Square_times_at w N n m p q = m q.
Proof.
  unfold Square_times_at, Square_times.
  apply (for_loop_rel
           (fun _ (s : memory) (t : Num3072) =>
              s p = t /\ forall q, q <> p -> s q = m q)); [lia | auto |].
  intros i m' d' _ (E & F). destruct (Square_at_spec m' p) as [A B]. split.
  - now rewrite A, E.
  - intros q Hq. rewrite B by assumption. now apply F.
Qed.

(** The steps of the schedule of [Inverse], [n] squarings of [x] and a
    multiplication by [p[i]] each, in memory and on arrays. *)
Lemma chain_at (tbl : list Num3072) steps :
  Forall (fun s => (snd s <= 11)%nat) steps ->
  forall (m : memory) xv,
    m Inverse_x = xv ->
    (forall k, (k <= 11)%nat -> m (Inverse_p k) = nth k tbl []) ->
    let m' := fold_left
                (fun m s => Multiply_at w N (Square_times_at w N (fst s) m Inverse_x)
                              Inverse_x (Inverse_p (snd s)))
                steps m in
    m' Inverse_x
    = fold_left (fun x s => Multiply w N (Square_times w N (fst s) x) (nth (snd s) tbl []))
        steps xv /\
    (forall k, (k <= 11)%nat -> m' (Inverse_p k) = nth k tbl []) /\
    (forall q, q <> Inverse_x -> m' q = m q).
Proof.
  induction 1 as [|[n i] steps Hi _ IH]; intros m xv HX HT; cbv zeta.
  - cbn [fold_left]. auto.
  - cbn [fold_left fst snd] in *.
    destruct (Square_times_at_spec n m Inverse_x) as [A B].
    destruct (Multiply_at_spec (Square_times_at w N n m Inverse_x) Inverse_x (Inverse_p i))
      as [A' B'].
    set (m1 := Multiply_at w N (Square_times_at w N n m Inverse_x) Inverse_x
                 (Inverse_p i)) in *.
    assert (HX1 : m1 Inverse_x = Multiply w N (Square_times w N n xv) (nth i tbl [])).
    { rewrite A', A, B by discriminate. now rewrite HX, HT. }
    assert (HT1 : forall k, (k <= 11)%nat -> m1 (Inverse_p k) = nth k tbl []).
    { intros k Hk. rewrite B', B by discriminate. now apply HT. }
    destruct (IH m1 _ HX1 HT1) as (R1 & R2 & R3). cbv zeta in R1, R2, R3.
    split; [exact R1|]. split; [exact R2|].
    intros q Hq. rewrite R3 by assumption. rewrite B', B by assumption. reflexivity.
Qed.

(** The table of [Inverse] in memory holds the table of the function
    [Inverse_table], and filling it writes no accumulator. *)
Lemma Inverse_table_at m v :
  m (Inverse_p 0) = v ->
  let m' := for_loop 0 11 (Inverse_table_step_at w N) m in
  (forall k, (k <= 11)%nat -> m' (Inverse_p k) = nth k (Inverse_table w N v) []) /\
  (forall q, (forall k, q <> Inverse_p k) -> m' q = m q).
Proof.
  intros H0. cbv zeta. unfold Inverse_table.
  pose proof (for_loop_rel
                (fun i (s : memory) (t : list Num3072) =>
                   length t = 12%nat /\
                   (forall k, (k <= i)%nat -> s (Inverse_p k) = nth k t []) /\
                   (forall q, (forall k, q <> Inverse_p k) -> s q = m q))
                0 11 (Inverse_table_step_at w N) (Inverse_table_step w N)
                m (set_at (repeat [] 12) 0 v) ltac:(lia)) as H.
  destruct H as (_ & H1 & H2).
  - split; [reflexivity|]. split; [|auto].
    intros k Hk. replace k with 0%nat by lia. exact H0.
  - intros i s t Hi (Lt & HT & HF).
    unfold Inverse_table_step_at, Inverse_table_step. cbv zeta.
    set (m1 := store_object s (Inverse_p (i + 1)) (s (Inverse_p i))).
    destruct (Square_times_at_spec (Nat.shiftl 1 i) m1 (Inverse_p (i + 1))) as [A B].
    destruct (Multiply_at_spec
                (Square_times_at w N (Nat.shiftl 1 i) m1 (Inverse_p (i + 1)))
                (Inverse_p (i + 1)) (Inverse_p i)) as [A' B'].
    assert (Hne : Inverse_p i <> Inverse_p (i + 1)) by (intros E; injection E; lia).
    split; [now rewrite length_set_at|]. split.
    + intros k Hk. destruct (Nat.eq_dec k (i + 1)) as [-> | Hk'].
      * rewrite nth_set_at_same by lia.
        rewrite A', A, B by assumption. subst m1.
        rewrite store_object_same, store_object_other by assumption.
        now rewrite HT by lia.
      * assert (Inverse_p k <> Inverse_p (i + 1)) by (intros E; injection E; lia).
        rewrite nth_set_at_other by lia.
        rewrite B', B by assumption. subst m1.
        rewrite store_object_other by assumption. apply HT. lia.
    + intros q Hq. rewrite B', B by apply Hq. subst m1.
      rewrite store_object_other by apply Hq. now apply HF.
  - split; assumption.
Qed.

Lemma Inverse_at_schedule m out a :
  Inverse_at w N m out a
  = let m := store_object m (Inverse_p 0) (m a) in
    let m := for_loop 0 11 (Inverse_table_step_at w N) m in
    let m := store_object m Inverse_x (m (Inverse_p 11)) in
    let m := fold_left
               (fun m s => Multiply_at w N (Square_times_at w N (fst s) m Inverse_x)
                             Inverse_x (Inverse_p (snd s)))
               Inverse_schedule m in
    store_object m out (m Inverse_x).
Proof. reflexivity. Qed.

Lemma Inverse_schedule_eq a :
  Inverse w N a
  = fold_left (fun x s => Multiply w N (Square_times w N (fst s) x)
                            (nth (snd s) (Inverse_table w N a) []))
      Inverse_schedule (nth 11 (Inverse_table w N a) []).
Proof. reflexivity. Qed.

(** [Inverse(out, a)] writes [*out] and its own local variables only,
    and what it writes to [*out] is the function [Inverse] of the array
    read at entry. *)
Lemma Inverse_at_spec m out a :
  Inverse_at w N m out a out = Inverse w N (m a) /\
  forall q, q <> out -> q <> Inverse_x -> (forall k, q <> Inverse_p k) ->
            Inverse_at w N m out a q = m q.
Proof.
  rewrite Inverse_at_schedule, Inverse_schedule_eq. cbv zeta.
  set (m1 := store_object m (Inverse_p 0) (m a)).
  destruct (Inverse_table_at m1 (m a)) as [HT HF0];
    [subst m1; apply store_object_same|].
  cbv zeta in HT, HF0.
  set (mt := for_loop 0 11 (Inverse_table_step_at w N) m1) in *.
  set (mx := store_object mt Inverse_x (mt (Inverse_p 11))).
  assert (HX : mx Inverse_x = nth 11 (Inverse_table w N (m a)) []).
  { subst mx. rewrite store_object_same. apply HT. lia. }
  assert (HT' : forall k, (k <= 11)%nat ->
                          mx (Inverse_p k) = nth k (Inverse_table w N (m a)) []).
  { intros k Hk. subst mx. rewrite store_object_other by discriminate. now apply HT. }
  assert (Hs : Forall (fun s : nat * nat => (snd s <= 11)%nat) Inverse_schedule).
  { unfold Inverse_schedule. repeat constructor; cbn [snd]; lia. }
  destruct (chain_at (Inverse_table w N (m a)) Inverse_schedule Hs mx _ HX HT')
    as (R1 & _ & R3).
  cbv zeta in R1, R3.
  set (mf := fold_left _ Inverse_schedule mx) in *.
  split.
  - rewrite store_object_same. exact R1.
  - intros q Hq Hx Hp. rewrite store_object_other by assumption.
    rewrite R3 by assumption. subst mx.
    rewrite store_object_other by assumption. subst mt.
    rewrite HF0 by assumption. subst m1.
    apply store_object_other. apply Hp.
Qed.

End InMemoryProofs.

(** ** The operators on objects in memory *)

Lemma mul_assign_at_spec w N (m : memory) (this x : nat) :
  mul_assign_at w N m this x (data_of this)
  = Multiply w N (m (data_of this)) (m (data_of x)) /\
  forall y, y <> this -> mul_assign_at w N m this x (data_of y) = m (data_of y).
Proof.
  unfold mul_assign_at.
  destruct (Multiply_at_spec w N m (data_of this) (data_of x)) as [A B].
  split; [exact A|]. intros y Hy. apply B. congruence.
Qed.

Lemma Inverse_at_tmp w N (m : memory) (x : nat) :
  Inverse_at w N m div_tmp (data_of x) div_tmp = Inverse w N (m (data_of x)) /\
  forall y, Inverse_at w N m div_tmp (data_of x) (data_of y) = m (data_of y).
Proof.
  destruct (Inverse_at_spec w N m div_tmp (data_of x)) as [A B].
  split; [exact A|]. intros y. apply B; discriminate.
Qed.

Lemma div_assign_at_spec w N (m : memory) (this x : nat) :
  div_assign_at w N m this x (data_of this)
  = Multiply w N (m (data_of this)) (Inverse w N (m (data_of x))) /\
  forall y, y <> this -> div_assign_at w N m this x (data_of y) = m (data_of y).
Proof.
  unfold div_assign_at. cbv zeta.
  destruct (Inverse_at_tmp w N m x) as [A B].
  destruct (Multiply_at_spec w N (Inverse_at w N m div_tmp (data_of x))
              (data_of this) div_tmp) as [A' B'].
  split.
  - now rewrite A', A, B.
  - intros y Hy. rewrite B' by congruence. apply B.
Qed.

(** C10 (as amended): on two distinct accumulator objects, [*this *= *x]
    and [*this /= *x] leave the limbs of [*x], and of every accumulator
    other than [*this], as they were; the call of [Inverse] in
    [operator/=] writes its result to the local [tmp] and writes no
    accumulator, and [*this] receives the product of its old limbs and
    the inverse of [*x]. *)
Theorem C10_operand_unchanged cfg (m : memory) (this x : nat) :
  this <> x ->
  mul_assign_at (W cfg) (L cfg) m this x (data_of x) = m (data_of x) /\
  div_assign_at (W cfg) (L cfg) m this x (data_of x) = m (data_of x) /\
  (forall y, y <> this ->
             mul_assign_at (W cfg) (L cfg) m this x (data_of y) = m (data_of y) /\
             div_assign_at (W cfg) (L cfg) m this x (data_of y) = m (data_of y)) /\
  (forall y, Inverse_at (W cfg) (L cfg) m div_tmp (data_of x) (data_of y) = m (data_of y)) /\
  Inverse_at (W cfg) (L cfg) m div_tmp (data_of x) div_tmp
  = Inverse (W cfg) (L cfg) (m (data_of x)) /\
  mul_assign_at (W cfg) (L cfg) m this x (data_of this)
  = Multiply (W cfg) (L cfg) (m (data_of this)) (m (data_of x)) /\
  div_assign_at (W cfg) (L cfg) m this x (data_of this)
  = Multiply (W cfg) (L cfg) (m (data_of this)) (Inverse (W cfg) (L cfg) (m (data_of x))).
Proof.
  intros Hne.
  destruct (mul_assign_at_spec (W cfg) (L cfg) m this x) as [M1 M2].
  destruct (div_assign_at_spec (W cfg) (L cfg) m this x) as [D1 D2].
  destruct (Inverse_at_tmp (W cfg) (L cfg) m x) as [I1 I2].
  split; [apply M2; congruence|]. split; [apply D2; congruence|].
  split; [intros y Hy; split; [now apply M2 | now apply D2]|].
  split; [exact I2|]. split; [exact I1|]. split; assumption.
Qed.

Lemma C10_operand_unchanged_witness :
  0%nat <> 1%nat /\
  (mul_assign_at (W Wide) (L Wide) memory_of_odds 0 1 (data_of 1) = memory_of_odds (data_of 1) /\
   div_assign_at (W Wide) (L Wide) memory_of_odds 0 1 (data_of 1) = memory_of_odds (data_of 1) /\
   (forall y, y <> 0%nat ->
              mul_assign_at (W Wide) (L Wide) memory_of_odds 0 1 (data_of y)
              = memory_of_odds (data_of y) /\
              div_assign_at (W Wide) (L Wide) memory_of_odds 0 1 (data_of y)
              = memory_of_odds (data_of y)) /\
   (forall y, Inverse_at (W Wide) (L Wide) memory_of_odds div_tmp (data_of 1) (data_of y)
              = memory_of_odds (data_of y)) /\
   Inverse_at (W Wide) (L Wide) memory_of_odds div_tmp (data_of 1) div_tmp
   = Inverse (W Wide) (L Wide) (memory_of_odds (data_of 1)) /\
   mul_assign_at (W Wide) (L Wide) memory_of_odds 0 1 (data_of 0)
   = Multiply (W Wide) (L Wide) (memory_of_odds (data_of 0)) (memory_of_odds (data_of 1)) /\
   div_assign_at (W Wide) (L Wide) memory_of_odds 0 1 (data_of 0)
   = Multiply (W Wide) (L Wide) (memory_of_odds (data_of 0))
       (Inverse (W Wide) (L Wide) (memory_of_odds (data_of 1)))).
Proof.
  split; [discriminate|].
  apply (C10_operand_unchanged Wide memory_of_odds 0 1). discriminate.
Defined.

(** C10 as stated fails for the pair of an accumulator and itself: after
    [x *= x] the limbs of the operand, which is the object [x], are those
    of 4 where they were those of 2. *)
Lemma C10_counterexample :
  memory_of_twos (data_of 0) = Num3072_of_Z Wide 2 /\
  mul_assign_at 64 48 memory_of_twos 0 0 (data_of 0) = Num3072_of_Z Wide 4 /\
  mul_assign_at 64 48 memory_of_twos 0 0 (data_of 0) <> memory_of_twos (data_of 0).
Proof.
  assert (E : mul_assign_at 64 48 memory_of_twos 0 0 (data_of 0) = Num3072_of_Z Wide 4)
    by (vm_compute; reflexivity).
  split; [reflexivity|]. split; [exact E|].
  rewrite E. vm_compute. discriminate.
Qed.
